(** * kubegems: the release-1.23 alert-rule migration and the Plugin deep copy

    A shallow embedding of
      - scripts/release-1.23-update/migrate-alertrule.go
      - pkg/apis/plugins/v1beta1/zz_generated.deepcopy.go
    with the statements of the specification settled against it.

    Go strings are byte strings ([string]), Go maps are [gmap]s, and a Go
    slice is a [list] wherever its backing array is not shared; the deep
    copy, whose very point is sharing, is modelled over an explicit heap. *)

From Stdlib Require Import String Ascii List ZArith Lia.
From stdpp Require Import base option list gmap strings.

Import ListNotations.
Local Open Scope string_scope.
Local Open Scope list_scope.

(** ** Package strings (the two functions the scripts call) *)

Module strings.

(** [strings.HasPrefix]. *)
Fixpoint HasPrefix (s prefix : string) {struct prefix} : bool :=
  match prefix with
  | EmptyString => true
  | String c prefix' =>
      match s with
      | EmptyString => false
      | String d s' => if Ascii.eqb c d then HasPrefix s' prefix' else false
      end
  end.

(** [strings.Contains]: [substr] occurs in [s] at some offset. *)
Fixpoint Contains (s substr : string) : bool :=
  HasPrefix s substr
  || match s with
     | EmptyString => false
     | String _ s' => Contains s' substr
     end.

End strings.

(** ** Errors and the log sink *)

(** Go's [error] values.  [EOF] is the sentinel [io.EOF]; [Wrapf] is
    [errors.Wrapf] of github.com/pkg/errors. *)
Inductive error : Type :=
| EOF
| Err (msg : string)
| Wrapf (cause : error) (format : string) (args : list string).

Global Instance error_eq_dec : EqDecision error.
Proof.
  refine (fix go (x y : error) : Decision (x = y) :=
            match x, y with
            | EOF, EOF => left _
            | Err a, Err b => cast_if (decide (a = b))
            | Wrapf c f a, Wrapf c' f' a' =>
                cast_if_and3 (go c c') (decide (f = f')) (decide (a = a'))
            | _, _ => right _
            end); abstract congruence.
Defined.

(** One call of the [log] package: the format (or message) and its
    arguments, in call order. *)
Inductive LogArg : Type :=
| ArgS (s : string)
| ArgD (z : Z)
| ArgE (e : error).

Inductive LogEntry : Type :=
| LogInfo (msg : string) (keysAndValues : list (string * string))
| LogErrorf (format : string) (args : list LogArg)
| LogError (e : error) (msg : string).

(** ** Package promql *)

Module promql.

Inductive MatchType : Type :=
| MatchEqual
| MatchNotEqual
| MatchRegexp
| MatchNotRegexp.

Module LabelMatcher.
Record t : Type := mk { Type_ : MatchType; Name : string; Value : string }.
End LabelMatcher.

End promql.

(** ** Package prometheus: the alert type tag *)

Module prometheus.
Inductive AlertType : Type := AlertTypeMonitor | AlertTypeLogging.
End prometheus.

(** ** Package observe: the legacy, cluster-resident rules *)

Module observe.

Module AlertChannel.
Record t : Type := mk { ID : N }.
End AlertChannel.

Module AlertLevel.
Record t : Type :=
  mk { CompareOp : string; CompareValue : string; Severity : string }.
End AlertLevel.

Module AlertReceiver.
Record t : Type := mk { AlertChannel : AlertChannel.t; Interval : string }.
End AlertReceiver.

Module PromqlGenerator.
Record t : Type :=
  mk { Scope : string; Resource : string; Rule : string; Unit : string;
       LabelPairs : gmap string string }.
End PromqlGenerator.

Module LogqlGenerator.
Record t : Type :=
  mk { Duration : string; Match : string;
       LabelPairs : gmap string string }.
End LogqlGenerator.

(** The fields both rule kinds share (the converter reads them off
    either kind under the same names). *)
Module BaseAlertRule.
Record t : Type :=
  mk { Namespace : string; Name : string; Expr : string; For : string;
       Message : string; InhibitLabels : list string;
       AlertLevels : list AlertLevel.t;
       Receivers : list AlertReceiver.t;
       IsOpen : bool;
       ChannelStatus : Z }.
End BaseAlertRule.

Module MonitorAlertRule.
Record t : Type :=
  mk { Base : BaseAlertRule.t;
       PromqlGenerator : option PromqlGenerator.t }.
End MonitorAlertRule.

Module LoggingAlertRule.
Record t : Type :=
  mk { Base : BaseAlertRule.t;
       LogqlGenerator : option LogqlGenerator.t }.
End LoggingAlertRule.

End observe.

(** Go promotes the fields of the embedded base rule. *)
Coercion observe.MonitorAlertRule.Base :
  observe.MonitorAlertRule.t >-> observe.BaseAlertRule.t.
Coercion observe.LoggingAlertRule.Base :
  observe.LoggingAlertRule.t >-> observe.BaseAlertRule.t.

(** ** Package models: the canonical, persisted rule *)

Module models.

Module AlertLevel.
Record t : Type :=
  mk { CompareOp : string; CompareValue : string; Severity : string }.
End AlertLevel.

Module AlertReceiver.
Record t : Type := mk { AlertChannelID : N; Interval : string }.
End AlertReceiver.

Module PromqlGenerator.
Record t : Type :=
  mk { Scope : string; Resource : string; Rule : string; Unit : string;
       LabelMatchers : list promql.LabelMatcher.t }.
End PromqlGenerator.

Module LogqlGenerator.
Record t : Type :=
  mk { Duration : string; Match : string;
       LabelMatchers : list promql.LabelMatcher.t }.
End LogqlGenerator.

Module AlertRule.
(** [ID] is the primary key gorm addresses a row by; a rule built by
    the converter has the zero [ID]. *)
Record t : Type :=
  mk { ID : N;
       Cluster : string; Namespace : string; Name : string;
       AlertType : prometheus.AlertType;
       Expr : string; Message : string; For : string;
       InhibitLabels : list string;
       IsOpen : bool;
       AlertLevels : list AlertLevel.t;
       Receivers : list AlertReceiver.t;
       PromqlGenerator : option PromqlGenerator.t;
       LogqlGenerator : option LogqlGenerator.t }.

Definition withName (v : t) (name : string) : t :=
  mk (ID v) (Cluster v) (Namespace v) name (AlertType v) (Expr v)
     (Message v) (For v) (InhibitLabels v) (IsOpen v) (AlertLevels v)
     (Receivers v) (PromqlGenerator v) (LogqlGenerator v).
End AlertRule.

End models.

(** ** The rule converter (migrate-alertrule.go, lines 217-312) *)

Module converter.

(** [matchType], lines 217-222. *)
Definition matchType (value : string) : promql.MatchType :=
  if strings.Contains value "|" then promql.MatchRegexp
  else promql.MatchEqual.

(** The loop bodies of lines 236-242 and 282-288. *)
Definition convertLevel (level : observe.AlertLevel.t) : models.AlertLevel.t :=
  models.AlertLevel.mk
    (observe.AlertLevel.CompareOp level)
    (observe.AlertLevel.CompareValue level)
    (observe.AlertLevel.Severity level).

(** The loop bodies of lines 243-248 and 289-294. *)
Definition convertReceiver (rec : observe.AlertReceiver.t)
  : models.AlertReceiver.t :=
  models.AlertReceiver.mk
    (observe.AlertChannel.ID (observe.AlertReceiver.AlertChannel rec))
    (observe.AlertReceiver.Interval rec).

(** The loop bodies of lines 256-262 and 300-306. *)
Definition convertLabelPair (kv : string * string) : promql.LabelMatcher.t :=
  promql.LabelMatcher.mk (matchType kv.2) kv.1 kv.2.

(** [for ... range s { ret = append(ret, f(x)) }] on a [ret] that starts
    out as [init]. *)
Definition appendEach {A B : Type} (f : A → B) (s : list A) (init : list B)
  : list B :=
  fold_left (λ ret x, ret ++ [f x]) s init.

(** What "copied verbatim, levels and receivers one to one and in
    order" says of a legacy rule [b] and the canonical rule [ret]. *)
Definition copied (cluster : string) (b : observe.BaseAlertRule.t)
    (ret : models.AlertRule.t) : Prop :=
  models.AlertRule.Cluster ret = cluster
  ∧ models.AlertRule.Namespace ret = observe.BaseAlertRule.Namespace b
  ∧ models.AlertRule.Name ret = observe.BaseAlertRule.Name b
  ∧ models.AlertRule.Expr ret = observe.BaseAlertRule.Expr b
  ∧ models.AlertRule.Message ret = observe.BaseAlertRule.Message b
  ∧ models.AlertRule.For ret = observe.BaseAlertRule.For b
  ∧ models.AlertRule.InhibitLabels ret = observe.BaseAlertRule.InhibitLabels b
  ∧ models.AlertRule.IsOpen ret = observe.BaseAlertRule.IsOpen b
  ∧ length (models.AlertRule.AlertLevels ret)
    = length (observe.BaseAlertRule.AlertLevels b)
  ∧ (∀ i, models.AlertRule.AlertLevels ret !! i
          = convertLevel <$> observe.BaseAlertRule.AlertLevels b !! i)
  ∧ length (models.AlertRule.Receivers ret)
    = length (observe.BaseAlertRule.Receivers b)
  ∧ (∀ i, models.AlertRule.Receivers ret !! i
          = convertReceiver <$> observe.BaseAlertRule.Receivers b !! i).

Section Converter.

(** [ret.FullName()], a method of models.AlertRule. *)
Variable FullName : models.AlertRule.t → string.
(** The constant [observe.StatusNormal]. *)
Variable StatusNormal : Z.
(** The order in which [range] visits the entries of a label-pair map
    on this run; Go leaves it unspecified. *)
Variable rangeOrder : gmap string string → list (string * string).

Definition channelStatusLog (kind : string) (ret : models.AlertRule.t)
    (status : Z) : list LogEntry :=
  if decide (status ≠ StatusNormal)
  then [LogErrorf (kind +:+ " alertrule: %s channel status: %d")
                  [ArgS (FullName ret); ArgD status]]
  else [].

(** [convertMonitorAlertRule], lines 224-268: the rule and what it
    logs. *)
Definition convertMonitorAlertRule (cluster : string)
    (monitorRule : observe.MonitorAlertRule.t)
  : models.AlertRule.t * list LogEntry :=
  let ret :=
    models.AlertRule.mk 0%N cluster
      (observe.BaseAlertRule.Namespace monitorRule)
      (observe.BaseAlertRule.Name monitorRule)
      prometheus.AlertTypeMonitor
      (observe.BaseAlertRule.Expr monitorRule)
      (observe.BaseAlertRule.Message monitorRule)
      (observe.BaseAlertRule.For monitorRule)
      (observe.BaseAlertRule.InhibitLabels monitorRule)
      (observe.BaseAlertRule.IsOpen monitorRule)
      (appendEach convertLevel
         (observe.BaseAlertRule.AlertLevels monitorRule) [])
      (appendEach convertReceiver
         (observe.BaseAlertRule.Receivers monitorRule) [])
      (match observe.MonitorAlertRule.PromqlGenerator monitorRule with
       | None => None
       | Some g =>
           Some (models.PromqlGenerator.mk
                   (observe.PromqlGenerator.Scope g)
                   (observe.PromqlGenerator.Resource g)
                   (observe.PromqlGenerator.Rule g)
                   (observe.PromqlGenerator.Unit g)
                   (appendEach convertLabelPair
                      (rangeOrder (observe.PromqlGenerator.LabelPairs g))
                      []))
       end)
      None in
  (ret, channelStatusLog "monitor" ret
          (observe.BaseAlertRule.ChannelStatus monitorRule)).

(** [convertLoggingAlertRule], lines 270-312. *)
Definition convertLoggingAlertRule (cluster : string)
    (loggingRule : observe.LoggingAlertRule.t)
  : models.AlertRule.t * list LogEntry :=
  let ret :=
    models.AlertRule.mk 0%N cluster
      (observe.BaseAlertRule.Namespace loggingRule)
      (observe.BaseAlertRule.Name loggingRule)
      prometheus.AlertTypeLogging
      (observe.BaseAlertRule.Expr loggingRule)
      (observe.BaseAlertRule.Message loggingRule)
      (observe.BaseAlertRule.For loggingRule)
      (observe.BaseAlertRule.InhibitLabels loggingRule)
      (observe.BaseAlertRule.IsOpen loggingRule)
      (appendEach convertLevel
         (observe.BaseAlertRule.AlertLevels loggingRule) [])
      (appendEach convertReceiver
         (observe.BaseAlertRule.Receivers loggingRule) [])
      None
      (match observe.LoggingAlertRule.LogqlGenerator loggingRule with
       | None => None
       | Some g =>
           Some (models.LogqlGenerator.mk
                   (observe.LogqlGenerator.Duration g)
                   (observe.LogqlGenerator.Match g)
                   (appendEach convertLabelPair
                      (rangeOrder (observe.LogqlGenerator.LabelPairs g))
                      []))
       end) in
  (ret, channelStatusLog "logging" ret
          (observe.BaseAlertRule.ChannelStatus loggingRule)).

End Converter.

End converter.

(** ** Results, the world the scripts act on, and a small monad *)

(** How a function of the scripts ends: it returns (a value, with a nil
    error), it returns an error, or the Go runtime panics. *)
Inductive Result (A : Type) : Type :=
| Ok (a : A)
| Fail (e : error)
| Panic.
Arguments Ok {A} a.
Arguments Fail {A} e.
Arguments Panic {A}.

(** The override file [alertNameMapFile] as the YAML codec sees it. *)
Inductive YamlFile : Type :=
| YamlEmpty                          (* no document: Decode gives io.EOF *)
| YamlMalformed (e : error)          (* Decode gives the error e *)
| YamlMap (m : gmap string string).  (* a document holding a string map *)

Record World : Type := mkWorld {
  alert_rules : list models.AlertRule.t;   (* the table slt.alert_rules *)
  nameMapFile : option YamlFile;           (* None: the file does not exist *)
  changeRecordFile : option string;        (* the bytes of the audit file *)
  logs : list LogEntry;                    (* what was logged, oldest first *)
  synced : list (option string * models.AlertRule.t)
                                           (* the SyncAlertRule calls made:
                                              the client's name (None for
                                              a nil client) and the rule *)
}.

Definition M (A : Type) : Type := World → Result A * World.

Global Instance M_ret : MRet M := λ A a w, (Ok a, w).
Global Instance M_bind : MBind M := λ A B k c w,
  match c w with
  | (Ok a, w') => k a w'
  | (Fail e, w') => (Fail e, w')
  | (Panic, w') => (Panic, w')
  end.

Definition fail {A : Type} (e : error) : M A := λ w, (Fail e, w).
Definition panic {A : Type} : M A := λ w, (Panic, w).

(** [if err != nil { return err }] on the outcome of a collaborator. *)
Definition check (err : option error) : M unit :=
  match err with
  | Some e => fail e
  | None => mret tt
  end.

Definition log (entry : LogEntry) : M unit := λ w,
  (Ok tt, mkWorld (alert_rules w) (nameMapFile w) (changeRecordFile w)
                  (logs w ++ [entry]) (synced w)).

(** [for _, v := range l], with the locals the body updates threaded
    through as [s]; the first error or panic leaves the loop. *)
Fixpoint forRange {A S : Type} (body : S → A → M S) (l : list A) (s : S) : M S :=
  match l with
  | [] => mret s
  | v :: l' => s' ← body s v; forRange body l' s'
  end.

(** ** Package database: the environment-resolution table *)

Module database.
Module EnvInfo.
Record t : Type :=
  mk { ClusterName : string; Namespace : string; TenantName : string;
       ProjectName : string; EnvironmentName : string }.
(** The zero value a Go map yields for a missing key. *)
Definition zero : t := mk "" "" "" "" "".
End EnvInfo.
End database.

(** ** The name normalizer (migrate-alertrule.go, lines 79-163) *)

Module normalizer.

(** What the collaborators answer during one run; [None] is a nil
    error. *)
Record Faults : Type := mkFaults {
  openNameMapFile : option error;      (* os.OpenFile(alertNameMapFile) *)
  scanOldNames : option error;         (* Raw(...).Scan(&oldnames) *)
  writeNameMapFile : option error;     (* os.WriteFile(alertNameMapFile) *)
  findAlertRules : option error;       (* db.DB().Find(&alertrules) *)
  clusterNS2EnvMap : error + gmap string database.EnvInfo.t;
                                       (* db.ClusterNS2EnvMap() *)
  updateName : list models.AlertRule.t → models.AlertRule.t → string →
               option error;           (* Model(v).Update("name", ...) *)
  openChangeRecordFile : option error  (* os.OpenFile(alertNameChangeRecordFile) *)
}.

(** [os.OpenFile(alertNameMapFile, os.O_CREATE|os.O_RDWR, 0644)]: the
    file is created empty when it does not exist. *)
Definition openMapFile (F : Faults) : M unit := λ w,
  match openNameMapFile F with
  | Some e => (Fail e, w)
  | None =>
      (Ok tt, mkWorld (alert_rules w)
                      (Some (default YamlEmpty (nameMapFile w)))
                      (changeRecordFile w) (logs w) (synced w))
  end.

(** [yaml.NewDecoder(f).Decode(alertNameMap)] into the empty map: the
    error and the map afterwards. *)
Definition decode : M (option error * gmap string string) := λ w,
  (Ok (match nameMapFile w with
       | Some (YamlMap m) => (None, m)
       | Some (YamlMalformed e) => (Some e, ∅)
       | Some YamlEmpty | None => (Some EOF, ∅)
       end), w).

(** MySQL's [char_length] on a utf8 column: the bytes that do not
    continue a character (10xxxxxx) are the ones that begin one. *)
Definition isContinuation (c : ascii) : bool :=
  let n := N_of_ascii c in ((128 <=? n) && (n <? 192))%N.

Fixpoint char_length (s : string) : nat :=
  match s with
  | EmptyString => 0
  | String c s' => (if isContinuation c then 0 else 1) + char_length s'
  end.

(** The WHERE clause of line 90:
    [length(name) != char_length(name) or name like "% %"]. *)
Definition isOldName (name : string) : bool :=
  negb (String.length name =? char_length name)%nat
  || strings.Contains name " ".

(** [SELECT name FROM slt.alert_rules where ...]. *)
Definition selectOldNames (F : Faults) : M (list string) := λ w,
  match scanOldNames F with
  | Some e => (Fail e, w)
  | None =>
      (Ok (filter (λ n, isOldName n = true)
             (map models.AlertRule.Name (alert_rules w))), w)
  end.

(** The body of the loop of lines 93-98. *)
Definition addOldName (alertNameMap : gmap string string) (v : string)
  : M (gmap string string) :=
  match alertNameMap !! v with
  | Some _ => mret alertNameMap
  | None =>
      log (LogInfo "add new alert name" [("name", v)]);;
      mret (<[v := ""]> alertNameMap)
  end.

(** [os.WriteFile(alertNameMapFile, yaml.Marshal(alertNameMap), 0644)]. *)
Definition writeMapFile (F : Faults) (alertNameMap : gmap string string)
  : M unit := λ w,
  match writeNameMapFile F with
  | Some e => (Fail e, w)
  | None =>
      (Ok tt, mkWorld (alert_rules w) (Some (YamlMap alertNameMap))
                      (changeRecordFile w) (logs w) (synced w))
  end.

(** A name Phase A discovers: some persisted rule carries it and the
    query of line 90 selects it. *)
Definition discovered (w : World) (name : string) : Prop :=
  ∃ v, v ∈ alert_rules w ∧ models.AlertRule.Name v = name
       ∧ isOldName name = true.

(** The override map a run starts from: the document of the file, and
    the empty map when there is none yet. *)
Definition overrideMap (w : World) : gmap string string :=
  match nameMapFile w with
  | Some (YamlMap m) => m
  | _ => ∅
  end.

(** [updateAlertNameMapInFile], lines 80-102 (Phase A). *)
Definition updateAlertNameMapInFile (F : Faults) : M unit :=
  openMapFile F;;
  d ← decode;
  match d.1 with
  | Some e => if decide (e ≠ EOF) then fail e else mret tt
  | None => mret tt
  end;;
  oldnames ← selectOldNames F;
  alertNameMap ← forRange addOldName oldnames d.2;
  writeMapFile F alertNameMap.

(** The byte-order marker of line 156. *)
Definition BOM : string :=
  String "239"%char (String "187"%char (String "191"%char EmptyString)).

Definition header : list string :=
  ["oldname"; "newname"; "cluster"; "namespace"; "tenant_name";
   "project_name"; "environment_name"].

(** [n] bytes into a file's content. *)
Fixpoint seek (n : nat) (s : string) : string :=
  match n, s with
  | O, _ => s
  | S _, EmptyString => EmptyString
  | S n', String _ s' => seek n' s'
  end.

(** Writing [data] from offset 0 into a file opened without O_TRUNC:
    the bytes beyond the written ones stay. *)
Definition writeAt0 (data old : string) : string :=
  data +:+ seek (String.length data) old.

Section PhaseB.

(** [strcase.KebabCase] of github.com/stoewer/go-strcase. *)
Variable KebabCase : string → string.
(** [models.IsValidAlertRuleName]; [None] is the nil error. *)
Variable IsValidAlertRuleName : string → option error.
(** [v.FullName()]. *)
Variable FullName : models.AlertRule.t → string.
(** The bytes a [csv.Writer] emits for one record. *)
Variable csvRecord : list string → string.

Variable F : Faults.

(** Lines 132-135. *)
Definition newName (alertNameMap : gmap string string)
    (v : models.AlertRule.t) : string :=
  match alertNameMap !! models.AlertRule.Name v with
  | Some newname => newname
  | None => KebabCase (models.AlertRule.Name v)
  end.

(** The new name as the specification words it: the override entry
    when it is non-empty, the slug otherwise. *)
Definition newName_spec (alertNameMap : gmap string string)
    (v : models.AlertRule.t) : string :=
  match alertNameMap !! models.AlertRule.Name v with
  | Some newname =>
      if decide (newname = "") then KebabCase (models.AlertRule.Name v)
      else newname
  | None => KebabCase (models.AlertRule.Name v)
  end.

(** The row of [v] once it carries its new name. *)
Definition renamed (alertNameMap : gmap string string)
    (v : models.AlertRule.t) : models.AlertRule.t :=
  models.AlertRule.withName v (newName alertNameMap v).

(** The new name of [v] passes the grammar check. *)
Definition valid (alertNameMap : gmap string string)
    (v : models.AlertRule.t) : Prop :=
  IsValidAlertRuleName (newName alertNameMap v) = None.

(** Lines 140-144: the audit record of [v]. *)
Definition auditRecord (envinfo : gmap string database.EnvInfo.t)
    (v : models.AlertRule.t) (newname : string) : list string :=
  let info :=
    default database.EnvInfo.zero
      (envinfo !! (models.AlertRule.Cluster v +:+ "/"
                   +:+ models.AlertRule.Namespace v)) in
  [models.AlertRule.Name v; newname;
   database.EnvInfo.ClusterName info; database.EnvInfo.Namespace info;
   database.EnvInfo.TenantName info; database.EnvInfo.ProjectName info;
   database.EnvInfo.EnvironmentName info].

(** The rows of [UPDATE alert_rules SET name = ? WHERE id = ?]. *)
Definition setName (id : N) (newname : string)
    (table : list models.AlertRule.t) : list models.AlertRule.t :=
  map (λ row, if decide (models.AlertRule.ID row = id)
              then models.AlertRule.withName row newname else row)
      table.

(** [db.DB().Model(v).Update("name", newname)], line 148, with the
    wrapping of line 149. *)
Definition update (v : models.AlertRule.t) (newname : string) : M unit :=
  λ w,
  match updateName F (alert_rules w) v newname with
  | Some e =>
      (Fail (Wrapf e "update alertrule: %s name" [FullName v]), w)
  | None =>
      (Ok tt, mkWorld (setName (models.AlertRule.ID v) newname
                         (alert_rules w))
                      (nameMapFile w) (changeRecordFile w) (logs w)
                      (synced w))
  end.

(** The log line of line 147. *)
Definition renameLog (alertNameMap : gmap string string)
    (v : models.AlertRule.t) : LogEntry :=
  LogInfo "update alertrule name"
          [("alertrule", FullName v);
           ("newname", newName alertNameMap v)].

(** The body of the loop of lines 131-152. *)
Definition renameRule (alertNameMap : gmap string string)
    (envinfo : gmap string database.EnvInfo.t)
    (records : list (list string)) (v : models.AlertRule.t)
  : M (list (list string)) :=
  let newname := newName alertNameMap v in
  check (IsValidAlertRuleName newname);;
  let records := records ++ [auditRecord envinfo v newname] in
  (if decide (models.AlertRule.Name v ≠ newname)
   then log (renameLog alertNameMap v);;
        update v newname
   else mret tt);;
  mret records.

(** The bytes of a freshly written audit file. *)
Definition auditBytes (records : list (list string)) : string :=
  BOM +:+ csvRecord header +:+ String.concat "" (map csvRecord records).

(** Lines 154-159: the file is opened without O_TRUNC and the error
    of the open is dropped; on a nil file every write fails and is
    dropped too. *)
Definition writeChangeRecords (records : list (list string)) : M unit :=
  λ w,
  match openChangeRecordFile F with
  | Some _ => (Ok tt, w)
  | None =>
      (Ok tt, mkWorld (alert_rules w) (nameMapFile w)
                (Some (writeAt0 (auditBytes records)
                         (default "" (changeRecordFile w))))
                (logs w) (synced w))
  end.

Definition find : M (list models.AlertRule.t) := λ w,
  match findAlertRules F with
  | Some e => (Fail e, w)
  | None => (Ok (alert_rules w), w)
  end.

Definition ClusterNS2EnvMap : M (gmap string database.EnvInfo.t) :=
  match clusterNS2EnvMap F with
  | inl e => fail e
  | inr envinfo => mret envinfo
  end.

(** The set-up of a run went through: the override file opens and
    holds the map [alertNameMap], the rules are read, and the
    environment table is [envinfo]. *)
Definition setupOk (w : World) (alertNameMap : gmap string string)
    (envinfo : gmap string database.EnvInfo.t) : Prop :=
  openNameMapFile F = None
  ∧ nameMapFile w = Some (YamlMap alertNameMap)
  ∧ findAlertRules F = None
  ∧ clusterNS2EnvMap F = inr envinfo.

(** [updateAlertRuleNameInDB], lines 112-163 (Phase B); the settle
    delay of line 161 has no effect on the world. *)
Definition updateAlertRuleNameInDB : M unit :=
  openMapFile F;;
  d ← decode;
  check d.1;;
  alertrules ← find;
  envinfo ← ClusterNS2EnvMap;
  records ← forRange (renameRule d.2 envinfo) alertrules [];
  writeChangeRecords records.

End PhaseB.

End normalizer.

(** ** The re-sync driver (migrate-alertrule.go, lines 197-215) *)

Module resync.

Section Sync.

(** The dynamic type behind a non-nil [agents.Client] and its
    [Name()]. *)
Variable Client : Type.
Variable Client_Name : Client → string.
Variable FullName : models.AlertRule.t → string.

(** [db.DB().Preload("Receivers.AlertChannel").Find(&alertrules)]. *)
Variable preloadFind : option error.
(** [cs.ClientOf(ctx, cluster)]: the interface value (None is the nil
    interface) and the error. *)
Variable ClientOf : string → option Client * option error.
(** [observability.NewAlertRuleProcessor(cli, db).SyncAlertRule(ctx, v)]. *)
Variable SyncAlertRule : option Client → models.AlertRule.t → option error.

Definition find : M (list models.AlertRule.t) := λ w,
  match preloadFind with
  | Some e => (Fail e, w)
  | None => (Ok (alert_rules w), w)
  end.

Definition callSyncAlertRule (cli : option Client) (v : models.AlertRule.t)
  : M (option error) := λ w,
  (Ok (SyncAlertRule cli v),
   mkWorld (alert_rules w) (nameMapFile w) (changeRecordFile w) (logs w)
           (synced w ++ [(Client_Name <$> cli, v)])).

(** The body of the loop of lines 202-213.  On line 205 [cli.Name()]
    is called on the value [ClientOf] returned next to its error: on a
    nil interface that is a nil dereference. *)
Definition syncOne (v : models.AlertRule.t) : M unit :=
  let (cli, err) := ClientOf (models.AlertRule.Cluster v) in
  match err with
  | Some _ =>
      match cli with
      | None => panic
      | Some c => log (LogErrorf "client of: %s failed" [ArgS (Client_Name c)])
      end
  | None =>
      err ← callSyncAlertRule cli v;
      match err with
      | Some e => log (LogError e "SyncAlertRule")
      | None => log (LogInfo "sync alert rule success" [("name", FullName v)])
      end
  end.

(** [syncAlertRules], lines 197-215. *)
Definition syncAlertRules : M unit :=
  alertrules ← find;
  forRange (λ _ v, syncOne v) alertrules tt.

End Sync.

End resync.

(** ** Stand-ins for code outside the two source files

    The statements below hold for every slug function, validator and CSV
    encoder; these concrete ones serve where a statement is evaluated on
    an example. *)

Module strcase.

Definition isLower (ch : ascii) : bool :=
  let n := N_of_ascii ch in ((97 <=? n) && (n <=? 122))%N.
Definition isUpper (ch : ascii) : bool :=
  let n := N_of_ascii ch in ((65 <=? n) && (n <=? 90))%N.
Definition isSpace (ch : ascii) : bool :=
  let n := N_of_ascii ch in
  ((n =? 32) || (n =? 9) || (n =? 10) || (n =? 13))%N.
Definition isDelimiter (ch : ascii) : bool :=
  let n := N_of_ascii ch in ((n =? 45) || (n =? 95))%N || isSpace ch.
Definition toLower (ch : ascii) : ascii :=
  if isUpper ch then ascii_of_N (N_of_ascii ch + 32) else ch.

(** [strings.TrimSpace], on ASCII white space. *)
Definition isWhite (ch : ascii) : bool :=
  let n := N_of_ascii ch in (((9 <=? n) && (n <=? 13)) || (n =? 32))%N.

Fixpoint trimLeft (s : list ascii) : list ascii :=
  match s with
  | c :: s' => if isWhite c then trimLeft s' else s
  | [] => []
  end.

Definition TrimSpace (s : list ascii) : list ascii :=
  rev (trimLeft (rev (trimLeft s))).

(** One round of the loop of [delimiterCase]: [prev] and [curr] are the
    two characters before [next]; the zero character stands for "none
    yet". *)
Definition step (delimiter : ascii) (prev curr next : ascii) : list ascii :=
  if isDelimiter curr then
    if negb (isDelimiter prev) then [delimiter] else []
  else if isUpper curr then
    (if isLower prev || (isUpper prev && isLower next)
     then [delimiter] else [])
    ++ [toLower curr]
  else if negb (Ascii.eqb curr zero) then [toLower curr]
  else [].

Fixpoint loop (delimiter prev curr : ascii) (s : list ascii) : list ascii :=
  match s with
  | [] =>
      (if isUpper curr && isLower prev && negb (Ascii.eqb prev zero)
       then [delimiter] else [])
      ++ [toLower curr]
  | next :: s' => step delimiter prev curr next ++ loop delimiter curr next s'
  end.

(** A model of [KebabCase] (that is [delimiterCase(s, '-', false)]) of
    github.com/stoewer/go-strcase, exact on ASCII names; the library
    walks the string by characters, and no byte of a multi-byte
    character is a letter or a delimiter. *)
Definition KebabCase (s : string) : string :=
  match TrimSpace (list_ascii_of_string s) with
  | [] => ""
  | s' => string_of_list_ascii (loop "-"%char zero zero s')
  end.

End strcase.

Module standin.

Definition isSlugChar (c : ascii) : bool :=
  let n := N_of_ascii c in
  (((97 <=? n) && (n <=? 122)) || ((48 <=? n) && (n <=? 57)) || (n =? 45))%N.

Fixpoint isSlug (name : string) : bool :=
  match name with
  | EmptyString => true
  | String c name' => isSlugChar c && isSlug name'
  end.

(** Modelled from the spec: [models.IsValidAlertRuleName] is not among
    the two source files.  The glossary's slug: "a name containing only
    lowercase letters, digits, and hyphens". *)
Definition IsValidAlertRuleName (name : string) : option error :=
  if isSlug name then None else Some (Err "invalid alert rule name").

(** [FullName] is not among the sources either; any rendering of
    (cluster, namespace, name) serves the log lines. *)
Definition FullName (v : models.AlertRule.t) : string :=
  models.AlertRule.Cluster v +:+ "/" +:+ models.AlertRule.Namespace v
  +:+ "/" +:+ models.AlertRule.Name v.

(** What encoding/csv writes for a record none of whose fields has to
    be quoted: the fields joined by commas and a line feed. *)
Definition csvPlain (record : list string) : string :=
  String.concat "," record +:+ String "010"%char EmptyString.

Definition noFaults (envinfo : gmap string database.EnvInfo.t)
  : normalizer.Faults :=
  normalizer.mkFaults None None None None (inr envinfo)
                      (λ _ _ _, None) None.

Definition rule (id : N) (cluster namespace name : string)
  : models.AlertRule.t :=
  models.AlertRule.mk id cluster namespace name prometheus.AlertTypeMonitor
                      "up == 0" "down" "1m" [] true [] [] None None.

End standin.

(** ** The Plugin deep copy (zz_generated.deepcopy.go)

    A slice is a header (backing array, offset, length) or nil, and the
    backing arrays live in a heap, one region per element type: whether
    the copy shares an array with the original is exactly what the
    functions are about. *)

Module v1beta1.

Local Open Scope nat_scope.

Definition loc : Type := positive.

Record SliceHeader : Type := mkSlice { array : loc; offset : nat; len : nat }.

(** A Go slice value; [None] is the nil slice. *)
Definition Slice : Type := option SliceHeader.

Section Arrays.

Context {A : Type}.

(** The elements a header denotes in a region of arrays. *)
Definition elements (h : gmap loc (list A)) (s : SliceHeader) : list A :=
  take (len s) (drop (offset s) (default [] (h !! array s))).

(** The header lies within an allocated array (Go's slices always do). *)
Definition inBounds (h : gmap loc (list A)) (s : SliceHeader) : Prop :=
  ∃ arr, h !! array s = Some arr ∧ offset s + len s ≤ length arr.

(** [make([]T, n)]: a new array of [n] zero values. *)
Definition make (zero : A) (n : nat) (h : gmap loc (list A))
  : SliceHeader * gmap loc (list A) :=
  let l := fresh (dom h) in
  (mkSlice l 0 n, <[l := replicate n zero]> h).

(** [copy(dst, src)]: the first min(len(dst), len(src)) elements. *)
Definition copy (dst src : SliceHeader) (h : gmap loc (list A))
  : gmap loc (list A) :=
  let n := Nat.min (len dst) (len src) in
  let data := take n (elements h src) in
  alter (λ arr, take (offset dst) arr ++ data
                ++ drop (offset dst + length data) arr)
        (array dst) h.

(** The block [if in.X != nil { ... }] of a slice field [X]: a new array
    of the length of [in.X] is made for [out.X] and the elements of
    [in.X] are copied into it; before the block, the plain assignment
    has set [out.X] to [in.X]. *)
Definition deepCopySlice (zero : A) (s : Slice) (h : gmap loc (list A))
  : Slice * gmap loc (list A) :=
  match s with
  | None => (None, h)
  | Some hdr =>
      let (out, h1) := make zero (len hdr) h in
      (Some out, copy out hdr h1)
  end.

(** What a slice value holds: nil, or its elements. *)
Definition sliceValue (h : gmap loc (list A)) (s : Slice) : option (list A) :=
  elements h <$> s.

Definition wfSlice (h : gmap loc (list A)) (s : Slice) : Prop :=
  match s with
  | None => True
  | Some hdr => inBounds h hdr
  end.

(** The slice is nil or backed by an array that [h] does not have. *)
Definition newIn (h : gmap loc (list A)) (s : Slice) : Prop :=
  match s with
  | None => True
  | Some hdr => array hdr ∉ dom h
  end.

End Arrays.

(** The declarations the generated file relies on and does not contain:
    the types of k8s.io (apimachinery and core/v1), the types of this
    package's types.go, with the zero values [new] and [make] fill in,
    and the deep copies written elsewhere.  [SpecFields] and
    [StatusFields] stand for the fields of PluginSpec and PluginStatus
    that the generated code copies by the plain assignment alone. *)
Class Foreign : Type := {
  TypeMeta : Type;
  ObjectMeta : Type;
  ListMeta : Type;
  Time : Type;
  ObjectReference : Type;
  Values : Type;
  ValuesFrom : Type;
  ManagedResource : Type;
  SpecFields : Type;
  StatusFields : Type;
  zeroTypeMeta : TypeMeta;
  zeroObjectMeta : ObjectMeta;
  zeroTime : Time;
  zeroObjectReference : ObjectReference;
  zeroValues : Values;
  zeroValuesFrom : ValuesFrom;
  zeroManagedResource : ManagedResource;
  zeroSpecFields : SpecFields;
  zeroStatusFields : StatusFields;
  (** [in.ObjectMeta.DeepCopyInto(&out.ObjectMeta)]: what [out] holds. *)
  ObjectMeta_DeepCopyInto : ObjectMeta → ObjectMeta;
  ListMeta_DeepCopyInto : ListMeta → ListMeta;
  Time_DeepCopyInto : Time → Time;
  (** [in.DeepCopy()] on a non-nil [*Values]; [None] is a nil clone. *)
  Values_DeepCopy : Values → option Values
}.

Section DeepCopy.

Context {X : Foreign}.

Record PluginSpec : Type := mkSpec {
  spec_Fields : SpecFields;
  spec_Dependencies : Slice;      (* []v1.ObjectReference *)
  spec_Values : Values;
  spec_ValuesFrom : Slice         (* []ValuesFrom *)
}.

Record PluginStatus : Type := mkStatus {
  status_Fields : StatusFields;
  status_Values : Values;
  status_CreationTimestamp : Time;
  status_UpgradeTimestamp : Time;
  status_Resources : Slice        (* []ManagedResource *)
}.

Record Plugin : Type := mkPlugin {
  plugin_TypeMeta : TypeMeta;
  plugin_ObjectMeta : ObjectMeta;
  Spec : PluginSpec;
  Status : PluginStatus
}.

Record PluginList : Type := mkPluginList {
  list_TypeMeta : TypeMeta;
  list_ListMeta : ListMeta;
  Items : Slice                   (* []Plugin *)
}.

Definition zeroPlugin : Plugin :=
  mkPlugin zeroTypeMeta zeroObjectMeta
           (mkSpec zeroSpecFields None zeroValues None)
           (mkStatus zeroStatusFields zeroValues zeroTime zeroTime None).

(** The backing arrays, by element type. *)
Record Heap : Type := mkHeap {
  refs : gmap loc (list ObjectReference);
  froms : gmap loc (list ValuesFrom);
  resources : gmap loc (list ManagedResource);
  plugins : gmap loc (list Plugin)
}.

Definition H (A : Type) : Type := Heap → Result A * Heap.

#[export] Instance H_ret : MRet H := λ A a h, (Ok a, h).
#[export] Instance H_bind : MBind H := λ A B k c h,
  match c h with
  | (Ok a, h') => k a h'
  | (Fail e, h') => (Fail e, h')
  | (Panic, h') => (Panic, h')
  end.

Definition onRefs {B : Type}
    (f : gmap loc (list ObjectReference) → B * gmap loc (list ObjectReference))
  : H B := λ h,
  let (b, r) := f (refs h) in
  (Ok b, mkHeap r (froms h) (resources h) (plugins h)).

Definition onFroms {B : Type}
    (f : gmap loc (list ValuesFrom) → B * gmap loc (list ValuesFrom))
  : H B := λ h,
  let (b, r) := f (froms h) in
  (Ok b, mkHeap (refs h) r (resources h) (plugins h)).

Definition onResources {B : Type}
    (f : gmap loc (list ManagedResource) → B * gmap loc (list ManagedResource))
  : H B := λ h,
  let (b, r) := f (resources h) in
  (Ok b, mkHeap (refs h) (froms h) r (plugins h)).

Definition onPlugins {B : Type}
    (f : gmap loc (list Plugin) → B * gmap loc (list Plugin))
  : H B := λ h,
  let (b, r) := f (plugins h) in
  (Ok b, mkHeap (refs h) (froms h) (resources h) r).

(** [Values.DeepCopyInto], lines 151-154: the assignment of line 153
    dereferences the clone. *)
Definition Values_DeepCopyInto (in_ : Values) : H Values := λ h,
  match Values_DeepCopy in_ with
  | Some clone => (Ok clone, h)
  | None => (Panic, h)
  end.

(** [PluginSpec.DeepCopyInto], lines 102-115: what [out] points to in
    the end. *)
Definition PluginSpec_DeepCopyInto (in_ : PluginSpec) : H PluginSpec :=
  let out := in_ in
  dependencies ← onRefs (deepCopySlice zeroObjectReference
                           (spec_Dependencies out));
  values ← Values_DeepCopyInto (spec_Values in_);
  valuesFrom ← onFroms (deepCopySlice zeroValuesFrom (spec_ValuesFrom out));
  mret (mkSpec (spec_Fields out) dependencies values valuesFrom).

(** [PluginStatus.DeepCopyInto], lines 128-138. *)
Definition PluginStatus_DeepCopyInto (in_ : PluginStatus) : H PluginStatus :=
  let out := in_ in
  values ← Values_DeepCopyInto (status_Values in_);
  let creation := Time_DeepCopyInto (status_CreationTimestamp in_) in
  let upgrade := Time_DeepCopyInto (status_UpgradeTimestamp in_) in
  res ← onResources (deepCopySlice zeroManagedResource (status_Resources out));
  mret (mkStatus (status_Fields out) values creation upgrade res).

(** [Plugin.DeepCopyInto], lines 43-49. *)
Definition Plugin_DeepCopyInto (in_ : Plugin) : H Plugin :=
  let typeMeta := plugin_TypeMeta in_ in
  let objectMeta := ObjectMeta_DeepCopyInto (plugin_ObjectMeta in_) in
  spec ← PluginSpec_DeepCopyInto (Spec in_);
  status ← PluginStatus_DeepCopyInto (Status in_);
  mret (mkPlugin typeMeta objectMeta spec status).

(** [Plugin.DeepCopy], lines 52-59; [None] is the nil pointer. *)
Definition Plugin_DeepCopy (in_ : option Plugin) : H (option Plugin) :=
  match in_ with
  | None => mret None
  | Some p => out ← Plugin_DeepCopyInto p; mret (Some out)
  end.

(** Reading the [i]-th element of a slice of plugins; out of range is a
    run-time panic. *)
Definition load (s : SliceHeader) (i : nat) : H Plugin := λ h,
  match plugins h !! array s with
  | Some arr =>
      if decide (i < len s) then
        match arr !! (offset s + i) with
        | Some e => (Ok e, h)
        | None => (Panic, h)
        end
      else (Panic, h)
  | None => (Panic, h)
  end.

(** Writing the [i]-th element of a slice of plugins. *)
Definition store (s : SliceHeader) (i : nat) (e : Plugin) : H unit := λ h,
  if decide (i < len s) then
    (Ok tt, mkHeap (refs h) (froms h) (resources h)
                   (alter (λ arr, <[offset s + i := e]> arr) (array s)
                          (plugins h)))
  else (Panic, h).

(** The loop of lines 77-79 over the indices of the slice: the [i]-th
    element of the original is deep-copied into the [i]-th element of
    the new slice. *)
Fixpoint copyItems (in_ out : SliceHeader) (indices : list nat) : H unit :=
  match indices with
  | [] => mret tt
  | i :: indices' =>
      e ← load in_ i;
      c ← Plugin_DeepCopyInto e;
      store out i c;;
      copyItems in_ out indices'
  end.

(** [PluginList.DeepCopyInto], lines 70-81. *)
Definition PluginList_DeepCopyInto (in_ : PluginList) : H PluginList :=
  let typeMeta := list_TypeMeta in_ in
  let listMeta := ListMeta_DeepCopyInto (list_ListMeta in_) in
  items ← match Items in_ with
          | None => mret None
          | Some hdr =>
              out ← onPlugins (make zeroPlugin (len hdr));
              copyItems hdr out (seq 0 (len hdr));;
              mret (Some out)
          end;
  mret (mkPluginList typeMeta listMeta items).

(** [PluginList.DeepCopy], lines 84-91. *)
Definition PluginList_DeepCopy (in_ : option PluginList)
  : H (option PluginList) :=
  match in_ with
  | None => mret None
  | Some l => out ← PluginList_DeepCopyInto l; mret (Some out)
  end.

(** *** What the statements are about *)

(** The deep copies written elsewhere return a copy equal to the
    original (and [Values.DeepCopy] a clone that is not nil). *)
Definition faithful : Prop :=
  (∀ m, ObjectMeta_DeepCopyInto m = m)
  ∧ (∀ m, ListMeta_DeepCopyInto m = m)
  ∧ (∀ t, Time_DeepCopyInto t = t)
  ∧ (∀ v, Values_DeepCopy v = Some v).

Definition wfPlugin (h : Heap) (p : Plugin) : Prop :=
  wfSlice (refs h) (spec_Dependencies (Spec p))
  ∧ wfSlice (froms h) (spec_ValuesFrom (Spec p))
  ∧ wfSlice (resources h) (status_Resources (Status p)).

Definition wfPluginList (h : Heap) (l : PluginList) : Prop :=
  wfSlice (plugins h) (Items l)
  ∧ ∀ hdr, Items l = Some hdr →
           Forall (wfPlugin h) (elements (plugins h) hdr).

(** Field for field and element for element, [a] in heap [h] is [b] in
    heap [h']. *)
Definition samePlugin (h : Heap) (a : Plugin) (h' : Heap) (b : Plugin) : Prop :=
  plugin_TypeMeta a = plugin_TypeMeta b
  ∧ plugin_ObjectMeta a = plugin_ObjectMeta b
  ∧ spec_Fields (Spec a) = spec_Fields (Spec b)
  ∧ sliceValue (refs h) (spec_Dependencies (Spec a))
    = sliceValue (refs h') (spec_Dependencies (Spec b))
  ∧ spec_Values (Spec a) = spec_Values (Spec b)
  ∧ sliceValue (froms h) (spec_ValuesFrom (Spec a))
    = sliceValue (froms h') (spec_ValuesFrom (Spec b))
  ∧ status_Fields (Status a) = status_Fields (Status b)
  ∧ status_Values (Status a) = status_Values (Status b)
  ∧ status_CreationTimestamp (Status a) = status_CreationTimestamp (Status b)
  ∧ status_UpgradeTimestamp (Status a) = status_UpgradeTimestamp (Status b)
  ∧ sliceValue (resources h) (status_Resources (Status a))
    = sliceValue (resources h') (status_Resources (Status b)).

Definition samePluginList (h : Heap) (a : PluginList) (h' : Heap)
    (b : PluginList) : Prop :=
  list_TypeMeta a = list_TypeMeta b
  ∧ list_ListMeta a = list_ListMeta b
  ∧ match Items a, Items b with
    | None, None => True
    | Some ha, Some hb =>
        Forall2 (λ x y, samePlugin h x h' y)
                (elements (plugins h) ha) (elements (plugins h') hb)
    | _, _ => False
    end.

(** Every array of [h] is in [h'], unchanged. *)
Definition extends (h h' : Heap) : Prop :=
  refs h ⊆ refs h' ∧ froms h ⊆ froms h'
  ∧ resources h ⊆ resources h' ∧ plugins h ⊆ plugins h'.

(** The slices of the copy are backed by arrays that did not exist before
    the call. *)
Definition newSlices (h : Heap) (p : Plugin) : Prop :=
  newIn (refs h) (spec_Dependencies (Spec p))
  ∧ newIn (froms h) (spec_ValuesFrom (Spec p))
  ∧ newIn (resources h) (status_Resources (Status p)).

End DeepCopy.

End v1beta1.

(** ** Concrete worlds *)

Module example.
Import normalizer standin.

Definition envinfo : gmap string database.EnvInfo.t :=
  {[ "c1/ns1" := database.EnvInfo.mk "c1" "ns1" "t1" "p1" "e1" ]}.

Definition phaseB : M unit :=
  updateAlertRuleNameInDB strcase.KebabCase IsValidAlertRuleName FullName
                          csvPlain (noFaults envinfo).

Definition phaseA : M unit := updateAlertNameMapInFile (noFaults envinfo).

(** Two rules to rename, one by the operator's choice and one by its
    slug; no audit file yet. *)
Definition renameWorld : World :=
  mkWorld [rule 1 "c1" "ns1" "Foo Bar"; rule 2 "c1" "ns1" "My Rule"]
          (Some (YamlMap {[ "My Rule" := "my-custom-rule" ]}))
          None [] [].

(** A rule whose override entry the operator left empty. *)
Definition emptyEntryMap : gmap string string := {[ "My Rule" := "" ]}.
Definition emptyEntryRule : models.AlertRule.t := rule 2 "c1" "ns1" "My Rule".

Definition emptyEntryWorld : World :=
  mkWorld [emptyEntryRule] (Some (YamlMap emptyEntryMap)) None [] [].

(** The operator chose a name that is no slug for the second of three
    rules. *)
Definition badNameMap : gmap string string := {[ "My Rule" := "My Custom" ]}.
Definition badNameWorld : World :=
  mkWorld [rule 1 "c1" "ns1" "Foo Bar"; rule 2 "c1" "ns1" "My Rule";
           rule 3 "c1" "ns1" "cpu-high"]
          (Some (YamlMap badNameMap)) None [] [].

(** One rule, renamed to a shorter name; Phase B is run on it twice. *)
Definition rerunWorld : World :=
  mkWorld [rule 1 "c1" "ns1" "My Rule"]
          (Some (YamlMap {[ "My Rule" := "rule" ]})) None [] [].

(** Three persisted rules, two of them with a space in the name, and an
    override file in which the operator has filled one entry. *)
Definition discoverWorld : World :=
  mkWorld [rule 1 "c1" "ns1" "Foo Bar"; rule 2 "c1" "ns1" "My Rule";
           rule 3 "c1" "ns1" "cpu-high"]
          (Some (YamlMap {[ "My Rule" := "my-custom-rule" ]})) None [] [].

Definition lf : string := String "010"%char EmptyString.

(** Three rules in three clusters; the client of the second cluster
    cannot be resolved, and [ClientOf] returns the nil client next to
    the error. *)
Definition clientOf (cluster : string) : option string * option error :=
  if decide (cluster = "c2") then (None, Some (Err "cluster c2 not found"))
  else (Some cluster, None).

Definition syncWorld : World :=
  mkWorld [rule 1 "c1" "ns1" "rule-1"; rule 2 "c2" "ns1" "rule-2";
           rule 3 "c3" "ns1" "rule-3"]
          None None [] [].

Definition sync : M unit :=
  resync.syncAlertRules string id FullName None clientOf (λ _ _, None).

(** The declarations missing from zz_generated.deepcopy.go,
    instantiated: every foreign type is a string and every foreign deep
    copy returns its argument. *)
Definition stringForeign : v1beta1.Foreign :=
  v1beta1.Build_Foreign string string string string string string string
    string string string "" "" "" "" "" "" "" "" "" id id id Some.

(** A plugin whose Dependencies slice is the tail of a three-element
    array, with one ValuesFrom and a nil Resources slice. *)
Definition plugin1 : v1beta1.Plugin (X := stringForeign) :=
  v1beta1.mkPlugin (X := stringForeign) "Plugin" "monitoring"
    (v1beta1.mkSpec (X := stringForeign) "chart: prometheus"
       (Some (v1beta1.mkSlice 1%positive 1 2)) "replicas: 2"
       (Some (v1beta1.mkSlice 1%positive 0 1)))
    (v1beta1.mkStatus (X := stringForeign) "Installed" "replicas: 2"
       "2023-01-01" "2023-02-01" None).

Definition plugin2 : v1beta1.Plugin (X := stringForeign) :=
  v1beta1.mkPlugin (X := stringForeign) "Plugin" "logging"
    (v1beta1.mkSpec (X := stringForeign) "chart: loki" None "" None)
    (v1beta1.mkStatus (X := stringForeign) "Installed" ""
       "2023-01-01" "2023-01-01" (Some (v1beta1.mkSlice 2%positive 0 2))).

Definition pluginList : v1beta1.PluginList (X := stringForeign) :=
  v1beta1.mkPluginList (X := stringForeign) "PluginList" "resourceVersion: 7"
    (Some (v1beta1.mkSlice 5%positive 0 2)).

Definition heap : v1beta1.Heap (X := stringForeign) :=
  v1beta1.mkHeap (X := stringForeign)
    {[ 1%positive := ["kubegems-local"; "monitoring-crds"; "cert-manager"] ]}
    {[ 1%positive := ["global-values"] ]}
    {[ 2%positive := ["deployment/loki"; "service/loki"] ]}
    {[ 5%positive := [plugin1; plugin2] ]}.

(** Two legacy rules with their query generators. *)
Definition monitorRule : observe.MonitorAlertRule.t :=
  observe.MonitorAlertRule.mk
    (observe.BaseAlertRule.mk "ns1" "cpu-high" "cpu > 80" "1m" "cpu is high"
       [] [observe.AlertLevel.mk ">" "80" "error"]
       [observe.AlertReceiver.mk (observe.AlertChannel.mk 7) "10m"] true 0)
    (Some (observe.PromqlGenerator.mk "containers" "container" "cpuUsage" "%"
             {[ "pod" := "api|web"; "container" := "main" ]})).

Definition loggingRule : observe.LoggingAlertRule.t :=
  observe.LoggingAlertRule.mk
    (observe.BaseAlertRule.mk "ns1" "errors" "count > 10" "5m" "many errors"
       [] [observe.AlertLevel.mk ">" "10" "critical"] [] true 1)
    (Some (observe.LogqlGenerator.mk "1m" "error" {[ "app" := "api" ]})).


(** No override file yet. *)
Definition freshWorld : World :=
  mkWorld [rule 1 "c1" "ns1" "Foo Bar"] None None [] [].


End example.

(** ** The export of the legacy rules (migrate-alertrule.go, lines 44-77) *)

Module exporter.

(** What the two listings of one cluster answer (lines 48 and 52): the
    rules and the error. *)
Record Listing : Type := mkListing {
  monitorAlertRules : list observe.MonitorAlertRule.t;
  monitorErr : option error;
  loggingAlertRules : list observe.LoggingAlertRule.t;
  loggingErr : option error
}.

(** The rule once the database has given it its primary key. *)
Definition withID (v : models.AlertRule.t) (id : N) : models.AlertRule.t :=
  models.AlertRule.mk id (models.AlertRule.Cluster v)
    (models.AlertRule.Namespace v) (models.AlertRule.Name v)
    (models.AlertRule.AlertType v) (models.AlertRule.Expr v)
    (models.AlertRule.Message v) (models.AlertRule.For v)
    (models.AlertRule.InhibitLabels v) (models.AlertRule.IsOpen v)
    (models.AlertRule.AlertLevels v) (models.AlertRule.Receivers v)
    (models.AlertRule.PromqlGenerator v) (models.AlertRule.LogqlGenerator v).

Definition logAll (entries : list LogEntry) : M unit :=
  forRange (λ _ entry, log entry) entries tt.

Section ExportRules.

Variable FullName : models.AlertRule.t → string.
Variable StatusNormal : Z.
Variable rangeOrder : gmap string string → list (string * string).
(** [observability.SetReceivers(v, db.DB())]: the error, and [v] as the
    call leaves it. *)
Variable SetReceivers : models.AlertRule.t → option error * models.AlertRule.t.
(** [db.DB().Omit("Receivers.AlertChannel").Create(v)] on the table as it
    is: the error, or the primary key the new row gets. *)
Variable Create : list models.AlertRule.t → models.AlertRule.t → error + N.

(** The callback of lines 46-63 for the cluster [name], on the rules
    gathered so far; it returns the nil error in every case. *)
Definition exportCluster (name : string) (ls : Listing)
    (alertrules : list models.AlertRule.t) : M (list models.AlertRule.t) :=
  match monitorErr ls with
  | Some err =>
      log (LogErrorf "ListMonitorAlertRules in cluster: %s, err: %v"
                     [ArgS name; ArgE err])
  | None => mret tt
  end;;
  match loggingErr ls with
  | Some err =>
      log (LogErrorf "ListLoggingAlertRules in cluster: %s, err: %v"
                     [ArgS name; ArgE err])
  | None => mret tt
  end;;
  alertrules ←
    forRange (λ alertrules v,
                let r := converter.convertMonitorAlertRule FullName
                           StatusNormal rangeOrder name v in
                logAll r.2;; mret (alertrules ++ [r.1]))
             (monitorAlertRules ls) alertrules;
  forRange (λ alertrules v,
              let r := converter.convertLoggingAlertRule FullName
                         StatusNormal rangeOrder name v in
              logAll r.2;; mret (alertrules ++ [r.1]))
           (loggingAlertRules ls) alertrules.

(** Line 71: the row is appended to the table with its new key, and [v]
    carries the key from then on. *)
Definition create (v : models.AlertRule.t)
  : M (option error * models.AlertRule.t) := λ w,
  match Create (alert_rules w) v with
  | inl err => (Ok (Some err, v), w)
  | inr id =>
      (Ok (None, withID v id),
       mkWorld (alert_rules w ++ [withID v id]) (nameMapFile w)
               (changeRecordFile w) (logs w) (synced w))
  end.

(** The body of the loop of lines 66-75: [v] as the round leaves it. *)
Definition persistRule (v : models.AlertRule.t) : M models.AlertRule.t :=
  let (err, v) := SetReceivers v in
  match err with
  | Some err =>
      log (LogErrorf "SetReceivers for: %s failed: %v"
                     [ArgS (FullName v); ArgE err]);;
      mret v
  | None =>
      r ← create v;
      match r.1 with
      | Some err =>
          log (LogErrorf "create alertrule %s in db failed: %v"
                         [ArgS (FullName r.2); ArgE err])
      | None => mret tt
      end;;
      log (LogInfo "export alertrule success" [("name", FullName r.2)]);;
      mret r.2
  end.

(** The loop of lines 66-75 over the rules gathered. *)
Definition persistRules (alertrules : list models.AlertRule.t)
  : M (list models.AlertRule.t) :=
  forRange (λ done v, v' ← persistRule v; mret (done ++ [v']))
           alertrules [].

(** [cs.ExecuteInEachCluster], handed the callback and the empty list of
    rules: a cluster is its name and what its listings answer. *)
Variable ExecuteInEachCluster :
  (string * Listing → list models.AlertRule.t → M (list models.AlertRule.t)) →
  list models.AlertRule.t → M (list models.AlertRule.t).

(** [exportOldAlertRulesToDB], lines 44-77. *)
Definition exportOldAlertRulesToDB : M (list models.AlertRule.t) :=
  alertrules ← ExecuteInEachCluster (λ c, exportCluster c.1 c.2) [];
  persistRules alertrules.

(** The rows a run of the loop of lines 66-75 adds: one for each rule
    whose receivers resolve and whose create goes through, on the table
    as the earlier rounds have left it. *)
Fixpoint created (table : list models.AlertRule.t)
    (alertrules : list models.AlertRule.t) : list models.AlertRule.t :=
  match alertrules with
  | [] => []
  | v :: alertrules' =>
      match SetReceivers v with
      | (Some _, _) => created table alertrules'
      | (None, v1) =>
          match Create table v1 with
          | inl _ => created table alertrules'
          | inr id => withID v1 id :: created (table ++ [withID v1 id]) alertrules'
          end
      end
  end.

End ExportRules.

(** Modelled from the spec: [ExecuteInEachCluster] is not among the
    sources.  "Invoke the callback once per registered cluster", here
    one cluster after the other. *)
Definition eachCluster (clusters : list (string * Listing))
    (callback : string * Listing → list models.AlertRule.t →
                M (list models.AlertRule.t))
    (alertrules : list models.AlertRule.t) : M (list models.AlertRule.t) :=
  forRange (λ alertrules c, callback c alertrules) clusters alertrules.

End exporter.

(** ** The purge of the cluster objects (migrate-alertrule.go, lines 165-195) *)

Module purger.

Module Object.
(** What the purge reads of an AlertmanagerConfig or a PrometheusRule. *)
Record t : Type :=
  mk { Namespace : string; Name : string; Labels : gmap string string }.
End Object.

(** The objects of the two kinds in one cluster. *)
Record Cluster : Type := mkCluster {
  alertmanagerConfigs : list Object.t;
  prometheusRules : list Object.t
}.

(** The object [cli.Delete] addresses: namespace and name. *)
Definition key (o : Object.t) : string * string :=
  (Object.Namespace o, Object.Name o).

Definition remove (v : Object.t) (objects : list Object.t) : list Object.t :=
  filter (λ o, key o ≠ key v) objects.

Section Purge.

(** The label keys of package gems and the value of the monitor type. *)
Variable LabelAlertmanagerConfigName : string.
Variable LabelPrometheusRuleName : string.
Variable LabelPrometheusRuleType : string.
Variable AlertTypeMonitor : string.

(** [cli.Name()] and what the calls on the cluster answer; a list that
    fails leaves the list it was to fill empty. *)
Variable name : string.
Variable listConfigs : option error.
Variable listRules : option error.
Variable delete : Object.t → option error.

(** [client.HasLabels{gems.LabelAlertmanagerConfigName}] over all
    namespaces, line 168. *)
Definition selectsConfig (o : Object.t) : bool :=
  bool_decide (is_Some (Object.Labels o !! LabelAlertmanagerConfigName)).

(** [client.HasLabels{gems.LabelPrometheusRuleName}] and
    [client.MatchingLabels{gems.LabelPrometheusRuleType: AlertTypeMonitor}],
    lines 179-184. *)
Definition selectsRule (o : Object.t) : bool :=
  bool_decide (is_Some (Object.Labels o !! LabelPrometheusRuleName))
  && bool_decide (Object.Labels o !! LabelPrometheusRuleType
                  = Some AlertTypeMonitor).

(** The loops of lines 172-176 and 188-192 over the listed items: the
    objects of the kind and the log, round by round. *)
Definition deleteEach (format : string) (items : list Object.t)
    (state : list Object.t * list LogEntry) : list Object.t * list LogEntry :=
  fold_left
    (λ st v,
       match delete v with
       | Some _ =>
           (st.1, st.2 ++ [LogErrorf format
                             [ArgS name; ArgS (Object.Namespace v);
                              ArgS (Object.Name v)]])
       | None => (remove v st.1, st.2)
       end)
    items state.

(** One kind: the list, its error logged, and the deletes. *)
Definition purgeKind (listed : option error) (selects : Object.t → bool)
    (format : string) (state : list Object.t * list LogEntry)
  : list Object.t * list LogEntry :=
  match listed with
  | Some _ =>
      (state.1, state.2 ++ [LogErrorf "list cmcfg in cluster: %s failed"
                                      [ArgS name]])
  | None => deleteEach format (filter (λ o, selects o = true) state.1) state
  end.

(** The callback of lines 166-194 on one cluster: the error it returns
    (always nil), the cluster and the log afterwards. *)
Definition purgeCluster (c : Cluster) (lg : list LogEntry)
  : option error * Cluster * list LogEntry :=
  let configs :=
    purgeKind listConfigs selectsConfig
      "delete alertmanager config: %s/%s in cluster: %s failed"
      (alertmanagerConfigs c, lg) in
  let rules :=
    purgeKind listRules selectsRule
      "delete prometheus rule: %s/%s in cluster: %s failed"
      (prometheusRules c, configs.2) in
  (None, mkCluster configs.1 rules.1, rules.2).

End Purge.

End purger.

(** ** The other functions of zz_generated.deepcopy.go *)

Module v1beta1_rest.
Import v1beta1.

Section DeepCopy.

Context {X : Foreign}.

(** [ManagedResource.DeepCopyInto], lines 28-30: the plain assignment. *)
Definition ManagedResource_DeepCopyInto (in_ : ManagedResource)
  : ManagedResource := in_.

(** [ManagedResource.DeepCopy], lines 33-40. *)
Definition ManagedResource_DeepCopy (in_ : option ManagedResource)
  : option ManagedResource :=
  match in_ with
  | None => None
  | Some r => Some (ManagedResource_DeepCopyInto r)
  end.

(** [ValuesFrom.DeepCopyInto], lines 157-159. *)
Definition ValuesFrom_DeepCopyInto (in_ : ValuesFrom) : ValuesFrom := in_.

(** [ValuesFrom.DeepCopy], lines 162-169. *)
Definition ValuesFrom_DeepCopy (in_ : option ValuesFrom) : option ValuesFrom :=
  match in_ with
  | None => None
  | Some v => Some (ValuesFrom_DeepCopyInto v)
  end.

(** [PluginSpec.DeepCopy], lines 118-125. *)
Definition PluginSpec_DeepCopy (in_ : option PluginSpec)
  : H (option PluginSpec) :=
  match in_ with
  | None => mret None
  | Some s => out ← PluginSpec_DeepCopyInto s; mret (Some out)
  end.

(** [PluginStatus.DeepCopy], lines 141-148. *)
Definition PluginStatus_DeepCopy (in_ : option PluginStatus)
  : H (option PluginStatus) :=
  match in_ with
  | None => mret None
  | Some s => out ← PluginStatus_DeepCopyInto s; mret (Some out)
  end.

(** A non-nil [runtime.Object] of this package: the dynamic type and the
    pointer it holds, which may be nil. *)
Inductive Object : Type :=
| PluginObject (p : option Plugin)
| PluginListObject (l : option PluginList).

(** [Plugin.DeepCopyObject], lines 62-67; [None] is the nil interface. *)
Definition Plugin_DeepCopyObject (in_ : option Plugin) : H (option Object) :=
  c ← Plugin_DeepCopy in_;
  match c with
  | Some _ => mret (Some (PluginObject c))
  | None => mret None
  end.

(** [PluginList.DeepCopyObject], lines 94-99. *)
Definition PluginList_DeepCopyObject (in_ : option PluginList)
  : H (option Object) :=
  c ← PluginList_DeepCopy in_;
  match c with
  | Some _ => mret (Some (PluginListObject c))
  | None => mret None
  end.

(** The slice [s'] (in region [h']) is a copy of [s] (in region [h])
    that owns its array: both are nil and the region is as it was, or
    [s'] starts at offset 0 of an array that is new, holds exactly the
    elements of [s], and is all that the region has gained. *)
Definition owns {A : Type} (h : gmap loc (list A)) (s : Slice)
    (h' : gmap loc (list A)) (s' : Slice) : Prop :=
  match s, s' with
  | None, None => h' = h
  | Some hdr, Some hdr' =>
      offset hdr' = 0 ∧ len hdr' = len hdr
      ∧ (array hdr' ∉ dom h)
      ∧ h' = <[array hdr' := elements h hdr]> h
      ∧ length (elements h hdr) = len hdr
  | _, _ => False
  end.

(** Both heaps hold the same array at every location of [ls]. *)
Definition agreeOn {A : Type} (ls : gset loc) (h h' : gmap loc (list A))
  : Prop :=
  ∀ l, l ∈ ls → h' !! l = h !! l.

(** [h'] is [h] up to the arrays whose locations are not in [keep]:
    what a program may have written through slices backed by them. *)
Definition sameOn (keepRefs keepFroms keepResources : gset loc)
    (h h' : Heap) : Prop :=
  agreeOn keepRefs (refs h) (refs h')
  ∧ agreeOn keepFroms (froms h) (froms h')
  ∧ agreeOn keepResources (resources h) (resources h').

End DeepCopy.

End v1beta1_rest.

(** ** More concrete worlds *)

Module example_more.

(** Two clusters: the logging listing of the first one fails. *)
Definition clusters : list (string * exporter.Listing) :=
  [("c1", exporter.mkListing [example.monitorRule] None []
            (Some (Err "loki is not installed")));
   ("c2", exporter.mkListing [example.monitorRule] None [example.loggingRule] None)].

(** The receivers of the logging rules do not resolve; the database
    numbers the rows it takes from 1 and refuses the namespace "full". *)
Definition setReceivers (v : models.AlertRule.t)
  : option error * models.AlertRule.t :=
  match models.AlertRule.AlertType v with
  | prometheus.AlertTypeLogging => (Some (Err "channel not found"), v)
  | prometheus.AlertTypeMonitor => (None, v)
  end.

Definition createRow (table : list models.AlertRule.t)
    (v : models.AlertRule.t) : error + N :=
  if decide (models.AlertRule.Cluster v = "c2")
  then inl (Err "duplicate entry")
  else inr (N.of_nat (S (length table))).

Definition export : M (list models.AlertRule.t) :=
  exporter.exportOldAlertRulesToDB standin.FullName 0 map_to_list setReceivers
    createRow (exporter.eachCluster clusters).

(** A cluster with two alertmanager configs (one of them not made by
    kubegems) and three prometheus rules: a monitor rule, a logging rule
    and one without labels. *)
Definition object (namespace name : string) (labels : gmap string string)
  : purger.Object.t := purger.Object.mk namespace name labels.

Definition cluster : purger.Cluster :=
  purger.mkCluster
    [object "ns1" "cpu-high" {[ "amcfg-name" := "cpu-high" ]};
     object "ns1" "handmade" ∅]
    [object "ns1" "cpu-high" {[ "rule-name" := "cpu-high";
                                "rule-type" := "monitor" ]};
     object "ns1" "errors" {[ "rule-name" := "errors";
                              "rule-type" := "logging" ]};
     object "ns2" "handmade" ∅].

Definition purge : option error * purger.Cluster * list LogEntry :=
  purger.purgeCluster "amcfg-name" "rule-name" "rule-type" "monitor" "c1"
    None None (λ _, None) cluster [].

End example_more.

(** * Properties *)

(** ** The rule converter *)

Module converter_proofs.
Import converter.

Lemma HasPrefix_char (s : string) (c : ascii) :
  strings.HasPrefix s (String c EmptyString) = true ↔
  ∃ s', s = String c s'.
Proof.
  destruct s as [|d s]; simpl.
  - split; [discriminate | intros [s' Hs']; discriminate].
  - destruct (Ascii.eqb_spec c d) as [->|Hne].
    + split; [eauto | reflexivity].
    + split; [discriminate | intros [s' Hs']; congruence].
Qed.

Lemma Contains_char (s : string) (c : ascii) :
  strings.Contains s (String c EmptyString) = true ↔
  In c (list_ascii_of_string s).
Proof.
  induction s as [|d s IH].
  - simpl. split; [discriminate | tauto].
  - change (strings.Contains (String d s) (String c EmptyString))
      with (strings.HasPrefix (String d s) (String c EmptyString)
            || strings.Contains s (String c EmptyString)).
    rewrite orb_true_iff, HasPrefix_char, IH. simpl. split.
    + intros [[s' Hs'] | Hin]; [left; congruence | right; exact Hin].
    + intros [-> | Hin]; [left; eauto | right; exact Hin].
Qed.

(** C5. For every string [v], [matchType v] is the regex-equality match
    type exactly when the character "|" occurs in [v], and it is the
    exact-equality match type exactly when it does not. *)
Theorem matchType_regexp_iff_bar (v : string) :
  (matchType v = promql.MatchRegexp ↔ In "|"%char (list_ascii_of_string v))
  ∧ (matchType v = promql.MatchEqual ↔ ¬ In "|"%char (list_ascii_of_string v)).
Proof.
  unfold matchType. rewrite <- (Contains_char v "|"%char).
  destruct (strings.Contains v "|"); split; split;
    try discriminate; try reflexivity; try tauto.
Qed.

Lemma appendEach_map {A B : Type} (f : A → B) (s : list A) (init : list B) :
  appendEach f s init = init ++ map f s.
Proof.
  unfold appendEach. revert init.
  induction s as [|x s IH]; intros init; simpl.
  - symmetry. apply app_nil_r.
  - rewrite IH, <- app_assoc. reflexivity.
Qed.

Lemma appendEach_lookup {A B : Type} (f : A → B) (s : list A) (i : nat) :
  appendEach f s [] !! i = f <$> s !! i.
Proof. rewrite appendEach_map. simpl. apply list_lookup_fmap. Qed.

Lemma appendEach_length {A B : Type} (f : A → B) (s : list A) :
  length (appendEach f s []) = length s.
Proof. rewrite appendEach_map. simpl. apply length_map. Qed.

Section ConverterFacts.

Variable FullName : models.AlertRule.t → string.
Variable StatusNormal : Z.
Variable rangeOrder : gmap string string → list (string * string).

Local Abbreviation monitor :=
  (convertMonitorAlertRule FullName StatusNormal rangeOrder).
Local Abbreviation logging :=
  (convertLoggingAlertRule FullName StatusNormal rangeOrder).

(** C6. For every legacy monitor rule and every legacy logging rule
    the converter copies cluster, namespace, name, expression,
    message, duration, inhibit labels and enabled flag verbatim, and
    the severity levels and the receiver bindings are mapped one to
    one in the input order: same length, and the i-th output is the
    conversion of the i-th input (comparison operator, threshold and
    severity for a level; channel id and interval for a receiver). *)
Theorem convert_copies_fields (cluster : string)
    (monitorRule : observe.MonitorAlertRule.t)
    (loggingRule : observe.LoggingAlertRule.t) :
  copied cluster monitorRule (monitor cluster monitorRule).1
  ∧ copied cluster loggingRule (logging cluster loggingRule).1
  ∧ (∀ level, models.AlertLevel.CompareOp (convertLevel level)
                = observe.AlertLevel.CompareOp level
              ∧ models.AlertLevel.CompareValue (convertLevel level)
                = observe.AlertLevel.CompareValue level
              ∧ models.AlertLevel.Severity (convertLevel level)
                = observe.AlertLevel.Severity level)
  ∧ (∀ rec, models.AlertReceiver.AlertChannelID (convertReceiver rec)
              = observe.AlertChannel.ID (observe.AlertReceiver.AlertChannel rec)
            ∧ models.AlertReceiver.Interval (convertReceiver rec)
              = observe.AlertReceiver.Interval rec).
Proof.
  unfold copied, convertMonitorAlertRule, convertLoggingAlertRule; simpl.
  repeat split; auto using appendEach_length, appendEach_lookup.
Qed.

(** C7. A canonical rule produced by the converter never carries both
    generators: monitor conversion leaves the log-query generator
    unset and sets the metric-query generator exactly when the legacy
    rule has its descriptor; logging conversion leaves the
    metric-query generator unset and sets the log-query generator
    exactly when the legacy rule has its descriptor. *)
Theorem convert_at_most_one_generator (cluster : string)
    (monitorRule : observe.MonitorAlertRule.t)
    (loggingRule : observe.LoggingAlertRule.t) :
  let m := (monitor cluster monitorRule).1 in
  let l := (logging cluster loggingRule).1 in
  (models.AlertRule.LogqlGenerator m = None
   ∧ (is_Some (models.AlertRule.PromqlGenerator m)
      ↔ is_Some (observe.MonitorAlertRule.PromqlGenerator monitorRule)))
  ∧ (models.AlertRule.PromqlGenerator l = None
     ∧ (is_Some (models.AlertRule.LogqlGenerator l)
        ↔ is_Some (observe.LoggingAlertRule.LogqlGenerator loggingRule)))
  ∧ ¬ (is_Some (models.AlertRule.PromqlGenerator m)
       ∧ is_Some (models.AlertRule.LogqlGenerator m))
  ∧ ¬ (is_Some (models.AlertRule.PromqlGenerator l)
       ∧ is_Some (models.AlertRule.LogqlGenerator l)).
Proof.
  unfold convertMonitorAlertRule, convertLoggingAlertRule; simpl.
  assert (Hnone : ∀ A : Type, ¬ is_Some (@None A))
    by (intros A [x Hx]; discriminate).
  destruct (observe.MonitorAlertRule.PromqlGenerator monitorRule),
    (observe.LoggingAlertRule.LogqlGenerator loggingRule);
    repeat split; try (intros _; eexists; reflexivity);
    try (intros H; exfalso; eapply Hnone; exact H);
    try (intros [H1 H2]; eapply Hnone; eassumption).
Qed.

End ConverterFacts.

End converter_proofs.

(** ** The monad *)

Lemma bind_Ok {A B : Type} (c : M A) (k : A → M B) (w w' : World) (a : A) :
  c w = (Ok a, w') → (c ≫= k) w = k a w'.
Proof. intros H. unfold mbind, M_bind. by rewrite H. Qed.

Lemma bind_Fail {A B : Type} (c : M A) (k : A → M B) (w w' : World) (e : error) :
  c w = (Fail e, w') → (c ≫= k) w = (Fail e, w').
Proof. intros H. unfold mbind, M_bind. by rewrite H. Qed.

Lemma bind_Panic {A B : Type} (c : M A) (k : A → M B) (w w' : World) :
  c w = (Panic, w') → (c ≫= k) w = (Panic, w').
Proof. intros H. unfold mbind, M_bind. by rewrite H. Qed.

(** Inversion of a bind that ended well. *)
Lemma bind_Ok_inv {A B : Type} (c : M A) (k : A → M B) (w w'' : World) (b : B) :
  (c ≫= k) w = (Ok b, w'') →
  ∃ a w', c w = (Ok a, w') ∧ k a w' = (Ok b, w'').
Proof.
  unfold mbind, M_bind. destruct (c w) as [[a|e|] w']; intros H;
    [eauto | discriminate | discriminate].
Qed.

Lemma forRange_app {A S : Type} (body : S → A → M S) (l1 l2 : list A) (s : S)
    (w : World) :
  forRange body (l1 ++ l2) s w = (forRange body l1 s ≫= forRange body l2) w.
Proof.
  revert s w. induction l1 as [|v l1 IH]; intros s w; simpl.
  - reflexivity.
  - unfold mbind, M_bind in *. destruct (body s v w) as [[s'|e|] w']; auto.
Qed.

(** ** Phase A: discovery *)

Module phaseA_proofs.
Import normalizer.

Lemma addOldName_present (m : gmap string string) (v x : string) (w : World) :
  m !! v = Some x → addOldName m v w = (Ok m, w).
Proof. intros H. unfold addOldName. by rewrite H. Qed.

Lemma addOldName_absent (m : gmap string string) (v : string) (w : World) :
  m !! v = None →
  addOldName m v w
  = (Ok (<[v:=""]> m),
     mkWorld (alert_rules w) (nameMapFile w) (changeRecordFile w)
             (logs w ++ [LogInfo "add new alert name" [("name", v)]])
             (synced w)).
Proof. intros H. unfold addOldName. by rewrite H. Qed.

(** The loop of lines 93-98 always ends well; it leaves every entry of
    the map in place and adds the missing names with the empty value. *)
Lemma addOldNames_lookup (oldnames : list string) (m : gmap string string)
    (w : World) :
  ∃ m' lg,
    forRange addOldName oldnames m w
    = (Ok m', mkWorld (alert_rules w) (nameMapFile w) (changeRecordFile w)
                      (logs w ++ lg) (synced w))
    ∧ (∀ k x, m !! k = Some x → m' !! k = Some x)
    ∧ (∀ k, m !! k = None → k ∈ oldnames → m' !! k = Some "")
    ∧ (∀ k, m !! k = None → k ∉ oldnames → m' !! k = None).
Proof.
  revert m w. induction oldnames as [|v l IH]; intros m w.
  - exists m, []. destruct w; simpl. rewrite app_nil_r.
    repeat split; auto. intros k _ Hk. by apply not_elem_of_nil in Hk.
  - cbn [forRange].
    destruct (m !! v) as [x|] eqn:Hv.
    + destruct (IH m w) as (m' & lg & Hrun & Hkeep & Hnew & Hout).
      exists m', lg. erewrite bind_Ok by (eapply addOldName_present; eauto).
      repeat split; auto.
      * intros k Hk Hin. apply elem_of_cons in Hin.
        destruct Hin as [->|Hin]; [congruence|auto].
      * intros k Hk Hnin. apply Hout; [done|]. set_solver.
    + set (w1 := mkWorld (alert_rules w) (nameMapFile w) (changeRecordFile w)
                   (logs w ++ [LogInfo "add new alert name" [("name", v)]])
                   (synced w)).
      destruct (IH (<[v:=""]> m) w1) as (m' & lg & Hrun & Hkeep & Hnew & Hout).
      exists m', (LogInfo "add new alert name" [("name", v)] :: lg).
      split.
      { erewrite bind_Ok by (by apply addOldName_absent).
        fold w1. rewrite Hrun. simpl. by rewrite <- app_assoc. }
      repeat split.
      * intros k x Hk. apply Hkeep. rewrite lookup_insert_ne; [done|congruence].
      * intros k Hk Hin. destruct (decide (k = v)) as [->|Hne].
        -- apply Hkeep. apply lookup_insert_eq.
        -- apply Hnew; [by rewrite lookup_insert_ne|].
   apply elem_of_cons in Hin. by destruct Hin.
      * intros k Hk Hnin. apply Hout; [|set_solver].
        rewrite lookup_insert_ne; [done|]. set_solver.
Qed.

(** On a map that already has every name the loop changes nothing. *)
Lemma addOldNames_present (oldnames : list string) (m : gmap string string)
    (w : World) :
  (∀ k, k ∈ oldnames → is_Some (m !! k)) →
  forRange addOldName oldnames m w = (Ok m, w).
Proof.
  induction oldnames as [|v l IH]; intros Hall; cbn [forRange].
  - reflexivity.
  - destruct (Hall v) as [x Hx]; [set_solver|].
    erewrite bind_Ok by (eapply addOldName_present; eauto). apply IH.
    intros k Hk. apply Hall. set_solver.
Qed.

Lemma selected_discovered (w : World) (k : string) :
  k ∈ filter (λ n, isOldName n = true) (map models.AlertRule.Name (alert_rules w))
  ↔ discovered w k.
Proof.
  rewrite list_elem_of_filter, list_elem_of_fmap. unfold discovered. split.
  - intros [Hold (v & -> & Hv)]. eauto.
  - intros (v & Hv & <- & Hold). eauto.
Qed.

(** C4. A run of Phase A that ends well leaves in the file the map it
    started from, merged: every entry that was there is kept with its
    value, every discovered name that had no entry is added with the
    empty value, and nothing else is added.  Run again on what it left
    (same rules, no edits), Phase A ends well and changes nothing. *)
Theorem phaseA_merge_idempotent (F : Faults) (w w1 : World) :
  updateAlertNameMapInFile F w = (Ok tt, w1) →
  ∃ m1, nameMapFile w1 = Some (YamlMap m1)
    ∧ (∀ k x, overrideMap w !! k = Some x → m1 !! k = Some x)
    ∧ (∀ k, overrideMap w !! k = None → discovered w k → m1 !! k = Some "")
    ∧ (∀ k, overrideMap w !! k = None → ¬ discovered w k → m1 !! k = None)
    ∧ alert_rules w1 = alert_rules w
    ∧ updateAlertNameMapInFile F w1 = (Ok tt, w1).
Proof.
  unfold updateAlertNameMapInFile. intros Hrun.
  apply bind_Ok_inv in Hrun as ([] & wa & Hopen & Hrun).
  apply bind_Ok_inv in Hrun as (d & wb & Hdec & Hrun).
  apply bind_Ok_inv in Hrun as ([] & wc & Hchk & Hrun).
  apply bind_Ok_inv in Hrun as (oldnames & wd & Hsel & Hrun).
  apply bind_Ok_inv in Hrun as (m1 & we & Hloop & Hwrite).
  unfold openMapFile in Hopen.
  destruct (openNameMapFile F) as [e|] eqn:HopenF; [discriminate|].
  injection Hopen as <-.
  unfold decode in Hdec. injection Hdec as <- <-.
  assert (Hd2 : (match default YamlEmpty (nameMapFile w) with
                 | YamlMap m => (None, m)
                 | YamlMalformed e => (Some e, ∅)
                 | YamlEmpty => (Some EOF, ∅)
                 end).2 = overrideMap w).
  { unfold overrideMap. destruct (nameMapFile w) as [[| |]|]; reflexivity. }
  cbn [nameMapFile] in Hchk, Hloop. rewrite Hd2 in Hloop.
  assert (wc = mkWorld (alert_rules w)
                       (Some (default YamlEmpty (nameMapFile w)))
                       (changeRecordFile w) (logs w) (synced w)) as ->.
  { destruct (nameMapFile w) as [[| e |]|]; cbn in Hchk;
      try (injection Hchk as <-; reflexivity);
      destruct (decide _); first [discriminate | by injection Hchk as <-]. }
  unfold selectOldNames in Hsel.
  destruct (scanOldNames F) as [e|] eqn:HscanF; [discriminate|].
  injection Hsel as <- <-. cbn [alert_rules] in Hloop.
  unfold writeMapFile in Hwrite.
  destruct (writeNameMapFile F) as [e|] eqn:HwriteF; [discriminate|].
  injection Hwrite as <-.
  match type of Hloop with forRange _ ?l ?m ?w0 = _ =>
    destruct (addOldNames_lookup l m w0) as (m' & lg & Hrun' & Hkeep & Hnew & Hout)
  end.
  rewrite Hrun' in Hloop. injection Hloop as <- <-.
  exists m'. cbn [nameMapFile alert_rules changeRecordFile logs synced].
  split; [reflexivity|]. split; [exact Hkeep|].
  split; [intros k Hk Hd; apply Hnew; [done | by apply selected_discovered]|].
  split; [intros k Hk Hd; apply Hout; [done | by rewrite selected_discovered]|].
  split; [reflexivity|].
  (* the second run *)
  erewrite bind_Ok; [| unfold openMapFile; rewrite HopenF; reflexivity].
  erewrite bind_Ok by reflexivity.
  erewrite bind_Ok by reflexivity.
  erewrite bind_Ok; [| unfold selectOldNames; rewrite HscanF; reflexivity].
  cbn [alert_rules nameMapFile default fst snd].
  erewrite bind_Ok.
  2: { apply addOldNames_present. intros k Hk.
       destruct (overrideMap w !! k) as [x|] eqn:Hx.
       - exists x. eauto.
       - exists "". eauto. }
  unfold writeMapFile. rewrite HwriteF. reflexivity.
Qed.

End phaseA_proofs.

(** ** Phase B: apply *)

Module phaseB_proofs.
Import normalizer.

Lemma withName_same (v : models.AlertRule.t) :
  models.AlertRule.withName v (models.AlertRule.Name v) = v.
Proof. by destruct v. Qed.

Lemma setName_other (id : N) (newname : string)
    (table : list models.AlertRule.t) :
  id ∉ map models.AlertRule.ID table → setName id newname table = table.
Proof.
  unfold setName. induction table as [|row table IH]; intros Hid; cbn.
  - reflexivity.
  - cbn in Hid. apply not_elem_of_cons in Hid as [Hne Hid].
    destruct (decide _) as [Heq|_]; [congruence|]. by rewrite IH.
Qed.

(** With the primary key unique, the update of [v] rewrites the row of
    [v] and no other. *)
Lemma setName_mid (done rest : list models.AlertRule.t)
    (v : models.AlertRule.t) (newname : string) :
  NoDup (map models.AlertRule.ID (done ++ v :: rest)) →
  setName (models.AlertRule.ID v) newname (done ++ v :: rest)
  = done ++ models.AlertRule.withName v newname :: rest.
Proof.
  rewrite map_app. cbn [map]. intros Hnd.
  apply NoDup_app in Hnd as (_ & Hdisj & Hnd).
  apply NoDup_cons in Hnd as [Hrest _].
  unfold setName. rewrite map_app. cbn [map].
  destruct (decide _) as [_|Hne]; [|done].
  fold (setName (models.AlertRule.ID v) newname done).
  fold (setName (models.AlertRule.ID v) newname rest).
  rewrite !setName_other; [done|exact Hrest|].
  intros Hin. apply (Hdisj _ Hin). apply list_elem_of_here.
Qed.

Section Loop.

Variable KebabCase : string → string.
Variable IsValidAlertRuleName : string → option error.
Variable FullName : models.AlertRule.t → string.
Variable csvRecord : list string → string.
Variable F : Faults.
Variable alertNameMap : gmap string string.
Variable envinfo : gmap string database.EnvInfo.t.

Local Abbreviation newName := (newName KebabCase alertNameMap).
Local Abbreviation renamed := (renamed KebabCase alertNameMap).
Local Abbreviation valid :=
  (valid KebabCase IsValidAlertRuleName alertNameMap).
Local Abbreviation renameLog := (renameLog KebabCase FullName alertNameMap).
Local Abbreviation audit :=
  (λ v, auditRecord envinfo v (newName v)).
Local Abbreviation body :=
  (renameRule KebabCase IsValidAlertRuleName FullName F alertNameMap envinfo).

(** One round of the loop, by cases. *)
Lemma renameRule_cases (records : list (list string))
    (v : models.AlertRule.t) (w : World) :
  body records v w =
  match IsValidAlertRuleName (newName v) with
  | Some e => (Fail e, w)
  | None =>
      if decide (models.AlertRule.Name v ≠ newName v) then
        let w1 := mkWorld (alert_rules w) (nameMapFile w)
                    (changeRecordFile w) (logs w ++ [renameLog v])
                    (synced w) in
        match updateName F (alert_rules w) v (newName v) with
        | Some e0 =>
            (Fail (Wrapf e0 "update alertrule: %s name" [FullName v]), w1)
        | None =>
            (Ok (records ++ [auditRecord envinfo v (newName v)]),
             mkWorld (setName (models.AlertRule.ID v) (newName v)
                        (alert_rules w))
                     (nameMapFile w) (changeRecordFile w)
                     (logs w ++ [renameLog v]) (synced w))
        end
      else (Ok (records ++ [auditRecord envinfo v (newName v)]), w)
  end.
Proof.
  unfold renameRule, check, update.
  destruct (IsValidAlertRuleName (newName v)) as [e|]; [reflexivity|].
  unfold mbind, M_bind, mret, M_ret, log; cbn.
  destruct (decide (models.AlertRule.Name v ≠ newName v)); cbn; [|reflexivity].
  destruct (updateName F (alert_rules w) v (newName v)); reflexivity.
Qed.

(** What every run of the loop guarantees, however it ends. *)
Lemma renameLoop_outcome (todo : list models.AlertRule.t) :
  ∀ (records : list (list string)) (w : World),
    let r := (forRange body todo records w).1 in
    let w' := (forRange body todo records w).2 in
    nameMapFile w' = nameMapFile w
    ∧ changeRecordFile w' = changeRecordFile w
    ∧ synced w' = synced w
    ∧ (∀ row, row ∈ alert_rules w' →
              row ∈ alert_rules w
              ∨ IsValidAlertRuleName (models.AlertRule.Name row) = None)
    ∧ match r with
      | Ok recs => Forall valid todo ∧ recs = records ++ map audit todo
      | Fail e =>
          (∃ u, u ∈ todo ∧ IsValidAlertRuleName (newName u) = Some e)
          ∨ (∃ u e0, u ∈ todo
                     ∧ e = Wrapf e0 "update alertrule: %s name" [FullName u])
      | Panic => False
      end.
Proof.
  induction todo as [|v todo IH]; intros records w; cbn [forRange].
  - cbn. rewrite app_nil_r. repeat split; auto.
  - unfold mbind, M_bind. rewrite renameRule_cases.
    destruct (IsValidAlertRuleName (newName v)) as [e|] eqn:Hv.
    { cbn. repeat split; auto. left. exists v.
  split; [apply list_elem_of_here|done]. }
    destruct (decide (models.AlertRule.Name v ≠ newName v)) as [Hne|Heq].
    + cbn zeta.
      destruct (updateName F (alert_rules w) v (newName v)) as [e0|] eqn:Hu.
      { cbn. repeat split; auto. right. exists v, e0.
  split; [apply list_elem_of_here|done]. }
      match goal with |- context [forRange body todo ?recs ?w1] =>
        specialize (IH recs w1); cbn zeta in IH;
        destruct (forRange body todo recs w1) as [r w'] end.
      cbn [fst snd nameMapFile changeRecordFile synced alert_rules] in *.
      destruct IH as (Hm & Hc & Hs & Hrows & Hr).
      repeat split; auto.
      * intros row Hrow. destruct (Hrows row Hrow) as [Hin|Hval]; [|by right].
        unfold setName in Hin. apply list_elem_of_fmap in Hin as (row0 & -> & Hin0).
        destruct (decide _); [right; exact Hv | left; exact Hin0].
      * destruct r as [recs|e|]; [| |done].
        -- destruct Hr as [Hall ->]. split; [by constructor|].
           by rewrite <- app_assoc.
        -- destruct Hr as [(u & Hu' & He)|(u & e0 & Hu' & He)];
             [left; exists u | right; exists u, e0]; split; auto; set_solver.
    + match goal with |- context [forRange body todo ?recs ?w1] =>
        specialize (IH recs w1); cbn zeta in IH;
        destruct (forRange body todo recs w1) as [r w'] end.
      cbn [fst snd] in *.
      destruct IH as (Hm & Hc & Hs & Hrows & Hr).
      repeat split; auto.
      destruct r as [recs|e|]; [| |done].
      * destruct Hr as [Hall ->]. split; [by constructor|].
        by rewrite <- app_assoc.
      * destruct Hr as [(u & Hu' & He)|(u & e0 & Hu' & He)];
          [left; exists u | right; exists u, e0]; split; auto; set_solver.
Qed.

Lemma renamed_ID (v : models.AlertRule.t) :
  models.AlertRule.ID (renamed v) = models.AlertRule.ID v.
Proof. reflexivity. Qed.

Lemma NoDup_ID_step (done todo : list models.AlertRule.t)
    (v : models.AlertRule.t) :
  NoDup (map models.AlertRule.ID (done ++ v :: todo)) →
  NoDup (map models.AlertRule.ID ((done ++ [renamed v]) ++ todo)).
Proof.
  rewrite <- app_assoc. cbn [app].
  rewrite !map_app. cbn [map]. by rewrite renamed_ID.
Qed.

(** A loop that ends well has renamed every row and has one audit
    record per rule; the files are as before. *)
Lemma renameLoop_Ok (todo : list models.AlertRule.t) :
  ∀ (done : list models.AlertRule.t) (records recs : list (list string))
    (w w' : World),
    alert_rules w = done ++ todo →
    NoDup (map models.AlertRule.ID (done ++ todo)) →
    forRange body todo records w = (Ok recs, w') →
    alert_rules w' = done ++ map renamed todo.
Proof.
  induction todo as [|v todo IH]; intros done records recs w w' Htbl Hnd;
    cbn [forRange].
  - intros [= <- <-]. by rewrite Htbl.
  - unfold mbind, M_bind. rewrite renameRule_cases.
    destruct (IsValidAlertRuleName (newName v)) as [e|]; [discriminate|].
    destruct (decide (models.AlertRule.Name v ≠ newName v)) as [Hne|Heq].
    + cbn zeta. rewrite Htbl.
      destruct (updateName F (done ++ v :: todo) v (newName v)) as [e0|];
        [discriminate|].
      rewrite setName_mid by exact Hnd. intros Hrun.
      apply (IH (done ++ [renamed v])) in Hrun.
      * rewrite Hrun, <- app_assoc. reflexivity.
      * cbn. by rewrite <- app_assoc.
      * by apply NoDup_ID_step.
    + intros Hrun. apply (IH (done ++ [renamed v])) in Hrun.
      * rewrite Hrun, <- app_assoc. reflexivity.
      * rewrite Htbl, <- app_assoc. cbn [app]. unfold normalizer.renamed.
        apply dec_stable in Heq. by rewrite <- Heq, withName_same.
      * by apply NoDup_ID_step.
Qed.

(** A prefix of rules that all validate and whose updates the store
    accepts is processed to its end. *)
Lemma renameLoop_prefix (pre : list models.AlertRule.t) :
  ∀ (done rest : list models.AlertRule.t) (records : list (list string))
    (w : World),
    alert_rules w = done ++ pre ++ rest →
    NoDup (map models.AlertRule.ID (done ++ pre ++ rest)) →
    Forall valid pre →
    (∀ u table, u ∈ pre → updateName F table u (newName u) = None) →
    ∃ lg,
      forRange body pre records w
      = (Ok (records ++ map audit pre),
         mkWorld (done ++ map renamed pre ++ rest) (nameMapFile w)
                 (changeRecordFile w) (logs w ++ lg) (synced w)).
Proof.
  induction pre as [|v pre IH]; intros done rest records w Htbl Hnd Hval Hupd;
    cbn [forRange].
  - exists []. cbn in *. rewrite !app_nil_r, <- Htbl. by destruct w.
  - apply Forall_cons in Hval as [Hv Hval].
    unfold mbind, M_bind. rewrite renameRule_cases.
    unfold normalizer.valid in Hv. rewrite Hv.
    assert (Hnd' : NoDup (map models.AlertRule.ID
                            ((done ++ [renamed v]) ++ pre ++ rest)))
      by (by apply NoDup_ID_step).
    assert (Hupd' : ∀ u table, u ∈ pre →
                      updateName F table u (newName u) = None)
      by (intros u table Hu; apply Hupd; set_solver).
    destruct (decide (models.AlertRule.Name v ≠ newName v)) as [Hne|Heq].
    + cbn zeta. rewrite (Hupd v) by set_solver.
      rewrite Htbl. cbn [app]. rewrite setName_mid by exact Hnd.
      match goal with |- context [forRange body pre ?recs ?w1] =>
        destruct (IH (done ++ [renamed v]) rest recs w1) as [lg Hrun] end;
        [cbn; by rewrite <- app_assoc | exact Hnd' | exact Hval | exact Hupd' |].
      exists (renameLog v :: lg). rewrite Hrun. cbn.
      by rewrite <- !app_assoc.
    + destruct (IH (done ++ [renamed v]) rest
                  (records ++ [audit v]) w) as [lg Hrun];
        [|exact Hnd' | exact Hval | exact Hupd' |].
      { rewrite Htbl, <- app_assoc. cbn [app]. unfold normalizer.renamed.
        apply dec_stable in Heq. by rewrite <- Heq, withName_same. }
      exists lg. rewrite Hrun. cbn. by rewrite <- !app_assoc.
Qed.

End Loop.

Section Run.

Variable KebabCase : string → string.
Variable IsValidAlertRuleName : string → option error.
Variable FullName : models.AlertRule.t → string.
Variable csvRecord : list string → string.
Variable F : Faults.

Local Abbreviation run :=
  (updateAlertRuleNameInDB KebabCase IsValidAlertRuleName FullName
                           csvRecord F).
Local Abbreviation body :=
  (renameRule KebabCase IsValidAlertRuleName FullName F).
Local Abbreviation write := (writeChangeRecords csvRecord F).

(** After a set-up that went through, the run is the loop followed
    by the writing of the audit file. *)
Lemma run_after_setup (w : World) (m : gmap string string)
    (envinfo : gmap string database.EnvInfo.t) :
  setupOk F w m envinfo →
  run w = (forRange (body m envinfo) (alert_rules w) [] ≫= write) w.
Proof.
  intros (Hopen & Hfile & Hfind & Henv).
  unfold updateAlertRuleNameInDB, openMapFile, decode, check, find,
    ClusterNS2EnvMap.
  unfold mbind at 1 2 3 4 5, M_bind at 1 2 3 4 5.
  rewrite Hopen, Hfile, Hfind, Henv. cbn.
  destruct w; cbn in *. by rewrite Hfile.
Qed.

(** A set-up that does not go through ends the run with an error and
    leaves the table and the audit file alone. *)
Lemma run_cases (w : World) :
  (∃ m envinfo, setupOk F w m envinfo)
  ∨ ((∀ m envinfo, ¬ setupOk F w m envinfo)
     ∧ ∃ e, (run w).1 = Fail e
            ∧ alert_rules (run w).2 = alert_rules w
            ∧ changeRecordFile (run w).2 = changeRecordFile w).
Proof.
  unfold setupOk, updateAlertRuleNameInDB, openMapFile, decode, check,
    find, ClusterNS2EnvMap.
  unfold mbind at 1 2 3 4 5 6 7 8 9 10 11 12 13 14 15,
    M_bind at 1 2 3 4 5 6 7 8 9 10 11 12 13 14 15.
  destruct (openNameMapFile F) as [e|];
    [right; split; [intros ? ? (? & _); done | by exists e]|].
  destruct (nameMapFile w) as [[|e|m]|] eqn:Hfile; cbn;
    [right; split; [intros ? ? (_ & ? & _); done | by exists EOF]
    |right; split; [intros ? ? (_ & ? & _); done | by exists e]
    |
    |right; split; [intros ? ? (_ & ? & _); done | by exists EOF]].
  destruct (findAlertRules F) as [e|];
    [right; split; [intros ? ? (_ & _ & ? & _); done | by exists e]|].
  destruct (clusterNS2EnvMap F) as [e|envinfo];
    [right; split; [intros ? ? (_ & _ & _ & ?); done | by exists e]|].
  left. by exists m, envinfo.
Qed.

Lemma write_table (records : list (list string)) (w : World) :
  (write records w).1 = Ok tt
  ∧ alert_rules (write records w).2 = alert_rules w
  ∧ nameMapFile (write records w).2 = nameMapFile w.
Proof.
  unfold writeChangeRecords. by destruct (openChangeRecordFile F).
Qed.

(** C1 (amended). In a run of Phase B that ends well every persisted
    rule gets as its new name the override-map entry of its old name
    whenever the map has an entry for it, be it empty, and the
    kebab-case slug of its old name when the map has none; so a rule
    without an entry is renamed to its slug, "Foo Bar" to "foo-bar". *)
Theorem phaseB_new_name (w w' : World) :
  NoDup (map models.AlertRule.ID (alert_rules w)) →
  run w = (Ok tt, w') →
  ∃ m, nameMapFile w = Some (YamlMap m)
    ∧ alert_rules w'
      = map (λ v, models.AlertRule.withName v
                    (match m !! models.AlertRule.Name v with
                     | Some newname => newname
                     | None => KebabCase (models.AlertRule.Name v)
                     end))
            (alert_rules w)
    ∧ (∀ v, v ∈ alert_rules w → m !! models.AlertRule.Name v = None →
            models.AlertRule.withName v
              (KebabCase (models.AlertRule.Name v)) ∈ alert_rules w')
    ∧ strcase.KebabCase "Foo Bar" = "foo-bar".
Proof.
  intros Hnd Hrun.
  destruct (run_cases w) as [(m & envinfo & Hsetup)|(_ & e & He & _)];
    [|by rewrite Hrun in He].
  rewrite (run_after_setup w m envinfo Hsetup) in Hrun.
  apply bind_Ok_inv in Hrun as (recs & w1 & Hloop & Hwrite).
  apply (renameLoop_Ok _ _ _ _ _ _ _ []) in Hloop; [|done|done].
  destruct (write_table recs w1) as (_ & Htbl & _).
  rewrite Hwrite in Htbl. cbn in Htbl, Hloop.
  assert (Hall : alert_rules w'
                 = map (renamed KebabCase m) (alert_rules w))
    by (by rewrite Htbl, Hloop).
  exists m. split; [apply Hsetup|]. split; [exact Hall|].
  split; [|reflexivity].
  intros v Hv Hnone. rewrite Hall. apply list_elem_of_fmap.
  exists v. split; [|exact Hv].
  unfold renamed, newName. by rewrite Hnone.
Qed.

(** C2. Whatever the outcome of Phase B, a row of the table afterwards
    is a row that was there before or carries a name that passed the
    grammar check: no name that fails the check is ever written.  And
    when, after a set-up that went through, the new name of some rule
    fails the check, the phase ends with an error (the validator's,
    or the store's on an earlier rule) and writes no audit file. *)
Theorem phaseB_never_persists_invalid (w : World) :
  (∀ row, row ∈ alert_rules (run w).2 →
          row ∈ alert_rules w
          ∨ IsValidAlertRuleName (models.AlertRule.Name row) = None)
  ∧ (∀ m envinfo v e,
       setupOk F w m envinfo →
       v ∈ alert_rules w →
       IsValidAlertRuleName (newName KebabCase m v) = Some e →
       ∃ e', (run w).1 = Fail e'
             ∧ ((∃ u, u ∈ alert_rules w
                      ∧ IsValidAlertRuleName (newName KebabCase m u) = Some e')
                ∨ (∃ u e0, u ∈ alert_rules w
                           ∧ e' = Wrapf e0 "update alertrule: %s name"
                                        [FullName u]))
             ∧ changeRecordFile (run w).2 = changeRecordFile w).
Proof.
  destruct (run_cases w)
    as [(m & envinfo & Hsetup)|(Hno & e & He & Htbl & Hfile)].
  - rewrite (run_after_setup w m envinfo Hsetup).
    pose proof (renameLoop_outcome KebabCase IsValidAlertRuleName FullName
                  F m envinfo (alert_rules w) [] w) as Hout.
    cbn zeta in Hout. unfold mbind, M_bind.
    destruct (forRange (body m envinfo) (alert_rules w) [] w) as [r w1].
    cbn [fst snd] in Hout. destruct Hout as (_ & Hc & _ & Hrows & Hr).
    split.
    + destruct r as [recs|e|]; [|exact Hrows|exact Hrows].
      destruct (write_table recs w1) as (_ & Htbl & _).
      intros row. rewrite Htbl. apply Hrows.
    + intros m' envinfo' v e Hsetup' Hv Hbad.
      assert (m' = m) as ->.
      { destruct Hsetup as (_ & H1 & _), Hsetup' as (_ & H2 & _). congruence. }
      destruct r as [recs|e'|]; [| |done].
      * destruct Hr as [Hall _]. rewrite Forall_forall in Hall.
        specialize (Hall v Hv). unfold valid in Hall. congruence.
      * exists e'. cbn. auto.
  - split.
    + intros row. rewrite Htbl. by left.
    + intros m envinfo v e0 Hsetup _ _. by destruct (Hno m envinfo).
Qed.

(** C9. When, after a set-up that went through, the rules before the
    k-th all pass the grammar check and the store accepts their updates,
    and the new name of the k-th rule fails the check, then Phase B
    returns that error; the rows of the rules before the k-th carry
    their new names, the k-th row and the later ones are as they were,
    and the audit file is untouched: no marker, header or record has
    been written.  And in any run, the audit file is written only when
    the run ends well, every rule having passed the check. *)
Theorem phaseB_abort_keeps_earlier_updates (w : World) :
  (∀ (m : gmap string string) (envinfo : gmap string database.EnvInfo.t)
     (pre post : list models.AlertRule.t) (v : models.AlertRule.t)
     (e : error),
     setupOk F w m envinfo →
     alert_rules w = pre ++ v :: post →
     NoDup (map models.AlertRule.ID (alert_rules w)) →
     Forall (valid KebabCase IsValidAlertRuleName m) pre →
     (∀ u table, u ∈ pre →
                 updateName F table u (newName KebabCase m u) = None) →
     IsValidAlertRuleName (newName KebabCase m v) = Some e →
     (run w).1 = Fail e
     ∧ alert_rules (run w).2 = map (renamed KebabCase m) pre ++ v :: post
     ∧ changeRecordFile (run w).2 = changeRecordFile w
     ∧ nameMapFile (run w).2 = nameMapFile w)
  ∧ (changeRecordFile (run w).2 ≠ changeRecordFile w →
     (run w).1 = Ok tt
     ∧ ∃ m envinfo,
         setupOk F w m envinfo
         ∧ Forall (valid KebabCase IsValidAlertRuleName m) (alert_rules w)).
Proof.
  split.
  - intros m envinfo pre post v e Hsetup Htbl Hnd Hval Hupd Hbad.
    rewrite (run_after_setup w m envinfo Hsetup), Htbl.
    destruct (renameLoop_prefix KebabCase IsValidAlertRuleName FullName F m
                envinfo pre [] (v :: post) [] w) as [lg Hrun];
      [by rewrite Htbl | by rewrite <- Htbl | exact Hval | exact Hupd |].
    assert (Hres : (forRange (body m envinfo) (pre ++ v :: post) [] ≫= write) w
                   = (Fail e,
                      mkWorld (map (renamed KebabCase m) pre ++ v :: post)
                              (nameMapFile w) (changeRecordFile w)
                              (logs w ++ lg) (synced w))).
    { apply bind_Fail. rewrite forRange_app.
      erewrite bind_Ok by exact Hrun.
      cbn [forRange]. apply bind_Fail.
      by rewrite renameRule_cases, Hbad. }
    rewrite Hres. cbn. auto.
  - destruct (run_cases w)
      as [(m & envinfo & Hsetup)|(_ & e & _ & _ & Hfile)]; [|done].
    rewrite (run_after_setup w m envinfo Hsetup).
    pose proof (renameLoop_outcome KebabCase IsValidAlertRuleName FullName
                  F m envinfo (alert_rules w) [] w) as Hout.
    cbn zeta in Hout. unfold mbind, M_bind.
    destruct (forRange (body m envinfo) (alert_rules w) [] w) as [[recs|e|] w1];
      cbn [fst snd] in Hout; destruct Hout as (_ & Hc & _ & _ & Hr).
    + intros _. destruct Hr as [Hall _].
      split; [apply write_table|]. by exists m, envinfo.
    + intros Hne. by destruct Hne.
    + done.
Qed.

(** The audit file after a run that ends well (and whose open of the
    file went through): the fresh content, one record per rule in
    table order, written over the old bytes from offset 0. *)
Lemma phaseB_audit_written (w w' : World) :
  run w = (Ok tt, w') →
  openChangeRecordFile F = None →
  ∃ m envinfo,
    setupOk F w m envinfo
    ∧ changeRecordFile w'
      = Some (writeAt0
                (auditBytes csvRecord
                   (map (λ v, auditRecord envinfo v (newName KebabCase m v))
                        (alert_rules w)))
                (default "" (changeRecordFile w))).
Proof.
  intros Hrun Hopen.
  destruct (run_cases w) as [(m & envinfo & Hsetup)|(_ & e & He & _)];
    [|by rewrite Hrun in He].
  exists m, envinfo. split; [exact Hsetup|].
  rewrite (run_after_setup w m envinfo Hsetup) in Hrun.
  apply bind_Ok_inv in Hrun as (recs & w1 & Hloop & Hwrite).
  pose proof (renameLoop_outcome KebabCase IsValidAlertRuleName FullName
                F m envinfo (alert_rules w) [] w) as Hout.
  cbn zeta in Hout. rewrite Hloop in Hout. cbn [fst snd] in Hout.
  destruct Hout as (_ & Hc & _ & _ & _ & ->).
  unfold writeChangeRecords in Hwrite. rewrite Hopen in Hwrite.
  injection Hwrite as <-. cbn. by rewrite Hc.
Qed.

(** A failed open of the audit file goes unnoticed: the run still ends
    well and the file is as it was. *)
Lemma phaseB_audit_open_failure (w w' : World) (e : error) :
  run w = (Ok tt, w') →
  openChangeRecordFile F = Some e →
  changeRecordFile w' = changeRecordFile w.
Proof.
  intros Hrun Hopen.
  destruct (run_cases w) as [(m & envinfo & Hsetup)|(_ & e' & He & _)];
    [|by rewrite Hrun in He].
  rewrite (run_after_setup w m envinfo Hsetup) in Hrun.
  apply bind_Ok_inv in Hrun as (recs & w1 & Hloop & Hwrite).
  pose proof (renameLoop_outcome KebabCase IsValidAlertRuleName FullName
                F m envinfo (alert_rules w) [] w) as Hout.
  cbn zeta in Hout. rewrite Hloop in Hout. cbn [fst snd] in Hout.
  destruct Hout as (_ & Hc & _).
  unfold writeChangeRecords in Hwrite. rewrite Hopen in Hwrite.
  by injection Hwrite as <-.
Qed.

Lemma seek_all (s : string) : seek (String.length s) s = "".
Proof. induction s; cbn; auto. Qed.

Lemma seek_nil (n : nat) : seek n "" = "".
Proof. by destruct n. Qed.

Lemma append_nil_r (s : string) : s +:+ "" = s.
Proof.
  induction s as [|c s IH]; [reflexivity|].
  change (String c (s +:+ "") = String c s). by rewrite IH.
Qed.

Lemma seek_beyond (old : string) :
  ∀ n : nat, (String.length old ≤ n)%nat → seek n old = "".
Proof.
  induction old as [|c old IH]; intros n Hn; [apply seek_nil|].
  destruct n; cbn in *; [lia|]. apply IH. lia.
Qed.

(** Onto a file that is absent, empty, or no longer than the new
    content, the write leaves exactly the new content. *)
Lemma writeAt0_short (data old : string) :
  (String.length old ≤ String.length data)%nat → writeAt0 data old = data.
Proof.
  intros H. unfold writeAt0. by rewrite seek_beyond, append_nil_r.
Qed.

(** Where there is no audit file yet (or none longer than the new
    content), a run that ends well leaves exactly the marker, the
    header and one record per rule, renamed or not, in table order. *)
Lemma phaseB_audit_fresh (w w' : World) :
  run w = (Ok tt, w') →
  openChangeRecordFile F = None →
  changeRecordFile w = None →
  ∃ m envinfo,
    setupOk F w m envinfo
    ∧ changeRecordFile w'
      = Some (auditBytes csvRecord
                (map (λ v, auditRecord envinfo v (newName KebabCase m v))
                     (alert_rules w))).
Proof.
  intros Hrun Hopen Hnone.
  destruct (phaseB_audit_written w w' Hrun Hopen) as (m & envinfo & Hs & Hf).
  exists m, envinfo. split; [exact Hs|].
  rewrite Hf, Hnone. cbn [default]. f_equal. apply writeAt0_short. cbn. lia.
Qed.

End Run.

End phaseB_proofs.

(** ** The statements on concrete worlds *)

Module example_proofs.
Import normalizer standin example.

Lemma phaseB_new_name_witness :
  NoDup (map models.AlertRule.ID (alert_rules renameWorld))
  ∧ phaseB renameWorld = (Ok tt, (phaseB renameWorld).2)
  ∧ ∃ m, nameMapFile renameWorld = Some (YamlMap m)
      ∧ alert_rules (phaseB renameWorld).2
        = map (λ v, models.AlertRule.withName v
                      (match m !! models.AlertRule.Name v with
                       | Some newname => newname
                       | None => strcase.KebabCase (models.AlertRule.Name v)
                       end))
              (alert_rules renameWorld)
      ∧ (∀ v, v ∈ alert_rules renameWorld →
              m !! models.AlertRule.Name v = None →
              models.AlertRule.withName v
                (strcase.KebabCase (models.AlertRule.Name v))
              ∈ alert_rules (phaseB renameWorld).2)
      ∧ strcase.KebabCase "Foo Bar" = "foo-bar".
Proof.
  assert (Hnd : NoDup (map models.AlertRule.ID (alert_rules renameWorld)))
    by (apply (bool_decide_unpack _); vm_compute; exact I).
  assert (Hrun : phaseB renameWorld = (Ok tt, (phaseB renameWorld).2))
    by (vm_compute; reflexivity).
  split; [exact Hnd|]. split; [exact Hrun|].
  exact (phaseB_proofs.phaseB_new_name strcase.KebabCase IsValidAlertRuleName
           FullName csvPlain (noFaults envinfo) renameWorld
           (phaseB renameWorld).2 Hnd Hrun).
Defined.

(** The claim C1 as worded fails where the override entry is empty: the
    code takes the empty entry as the new name, the claim the slug.  So,
    whatever the validator says of the empty name, Phase B leaves no
    rule named by the slug. *)
Lemma newName_empty_entry_is_not_slug :
  newName strcase.KebabCase emptyEntryMap emptyEntryRule = ""
  ∧ newName_spec strcase.KebabCase emptyEntryMap emptyEntryRule = "my-rule"
  ∧ newName strcase.KebabCase emptyEntryMap emptyEntryRule
    ≠ newName_spec strcase.KebabCase emptyEntryMap emptyEntryRule
  ∧ (∀ validator : string → option error,
       map models.AlertRule.Name
           (alert_rules
              (updateAlertRuleNameInDB strcase.KebabCase validator FullName
                 csvPlain (noFaults envinfo) emptyEntryWorld).2)
       ≠ ["my-rule"]).
Proof.
  split; [vm_compute; reflexivity|]. split; [vm_compute; reflexivity|].
  split; [vm_compute; discriminate|].
  intros validator.
  rewrite (phaseB_proofs.run_after_setup strcase.KebabCase validator FullName
             csvPlain (noFaults envinfo) emptyEntryWorld emptyEntryMap envinfo)
    by (repeat split; reflexivity).
  cbn [alert_rules emptyEntryWorld forRange].
  unfold mbind, M_bind. rewrite phaseB_proofs.renameRule_cases.
  change (newName strcase.KebabCase emptyEntryMap emptyEntryRule) with "".
  destruct (validator "") as [e|]; [cbn; discriminate|].
  vm_compute. discriminate.
Qed.

Lemma phaseB_never_persists_invalid_witness :
  setupOk (noFaults envinfo) badNameWorld badNameMap envinfo
  ∧ rule 2 "c1" "ns1" "My Rule" ∈ alert_rules badNameWorld
  ∧ IsValidAlertRuleName
      (newName strcase.KebabCase badNameMap (rule 2 "c1" "ns1" "My Rule"))
    = Some (Err "invalid alert rule name")
  ∧ ∃ e', (phaseB badNameWorld).1 = Fail e'
        ∧ ((∃ u, u ∈ alert_rules badNameWorld
                 ∧ IsValidAlertRuleName
                     (newName strcase.KebabCase badNameMap u) = Some e')
           ∨ (∃ u e0, u ∈ alert_rules badNameWorld
                      ∧ e' = Wrapf e0 "update alertrule: %s name" [FullName u]))
        ∧ changeRecordFile (phaseB badNameWorld).2
          = changeRecordFile badNameWorld.
Proof.
  assert (Hsetup : setupOk (noFaults envinfo) badNameWorld badNameMap envinfo)
    by (repeat split; reflexivity).
  assert (Hin : rule 2 "c1" "ns1" "My Rule" ∈ alert_rules badNameWorld)
    by (apply list_elem_of_In; cbn; auto).
  assert (Hbad : IsValidAlertRuleName
                   (newName strcase.KebabCase badNameMap
                      (rule 2 "c1" "ns1" "My Rule"))
                 = Some (Err "invalid alert rule name"))
    by (vm_compute; reflexivity).
  repeat (split; [assumption|]).
  exact (proj2 (phaseB_proofs.phaseB_never_persists_invalid
                  strcase.KebabCase IsValidAlertRuleName FullName csvPlain
                  (noFaults envinfo) badNameWorld)
               badNameMap envinfo _ _ Hsetup Hin Hbad).
Defined.

Lemma phaseB_abort_keeps_earlier_updates_witness :
  setupOk (noFaults envinfo) badNameWorld badNameMap envinfo
  ∧ (phaseB badNameWorld).1 = Fail (Err "invalid alert rule name")
  ∧ alert_rules (phaseB badNameWorld).2
    = map (renamed strcase.KebabCase badNameMap)
          [rule 1 "c1" "ns1" "Foo Bar"]
      ++ rule 2 "c1" "ns1" "My Rule" :: [rule 3 "c1" "ns1" "cpu-high"]
  ∧ changeRecordFile (phaseB badNameWorld).2 = changeRecordFile badNameWorld
  ∧ nameMapFile (phaseB badNameWorld).2 = nameMapFile badNameWorld.
Proof.
  assert (Hsetup : setupOk (noFaults envinfo) badNameWorld badNameMap envinfo)
    by (repeat split; reflexivity).
  split; [exact Hsetup|].
  apply (proj1 (phaseB_proofs.phaseB_abort_keeps_earlier_updates
                  strcase.KebabCase IsValidAlertRuleName FullName csvPlain
                  (noFaults envinfo) badNameWorld)
               badNameMap envinfo).
  - exact Hsetup.
  - reflexivity.
  - apply (bool_decide_unpack _); vm_compute; exact I.
  - repeat constructor.
  - intros u table _. reflexivity.
  - vm_compute; reflexivity.
Defined.

(** C3. Phase B run a second time, on the table the first run left: the
    second audit content is three bytes shorter than the first, the
    file is opened without truncation, and the last three bytes of the
    first run stay behind the fresh content. *)
Theorem phaseB_rerun_leaves_stale_bytes :
  let w1 := (phaseB rerunWorld).2 in
  let w2 := (phaseB w1).2 in
  (phaseB rerunWorld).1 = Ok tt
  ∧ (phaseB w1).1 = Ok tt
  ∧ changeRecordFile w1
    = Some (auditBytes csvPlain
              [["My Rule"; "rule"; "c1"; "ns1"; "t1"; "p1"; "e1"]])
  ∧ changeRecordFile w2
    = Some (auditBytes csvPlain
              [["rule"; "rule"; "c1"; "ns1"; "t1"; "p1"; "e1"]]
            +:+ "e1" +:+ lf)
  ∧ changeRecordFile w2
    ≠ Some (auditBytes csvPlain
              [["rule"; "rule"; "c1"; "ns1"; "t1"; "p1"; "e1"]]).
Proof. vm_compute. repeat split; discriminate. Qed.

Lemma phaseA_merge_idempotent_witness :
  phaseA discoverWorld = (Ok tt, (phaseA discoverWorld).2)
  ∧ ∃ m1, nameMapFile (phaseA discoverWorld).2 = Some (YamlMap m1)
      ∧ (∀ k x, overrideMap discoverWorld !! k = Some x → m1 !! k = Some x)
      ∧ (∀ k, overrideMap discoverWorld !! k = None →
              discovered discoverWorld k → m1 !! k = Some "")
      ∧ (∀ k, overrideMap discoverWorld !! k = None →
              ¬ discovered discoverWorld k → m1 !! k = None)
      ∧ alert_rules (phaseA discoverWorld).2 = alert_rules discoverWorld
      ∧ phaseA (phaseA discoverWorld).2 = (Ok tt, (phaseA discoverWorld).2).
Proof.
  assert (Hrun : phaseA discoverWorld = (Ok tt, (phaseA discoverWorld).2))
    by (vm_compute; reflexivity).
  split; [exact Hrun|].
  exact (phaseA_proofs.phaseA_merge_idempotent (noFaults envinfo)
           discoverWorld (phaseA discoverWorld).2 Hrun).
Defined.

(** C8. Three rules, the cluster lookup of the second one failing:
    [ClientOf] returns the nil client with its error, line 205 calls
    [Name()] on it, and the driver panics after the first rule; the
    third rule is never processed and nothing is logged for the
    second. *)
Theorem syncAlertRules_lookup_failure_panics :
  (sync syncWorld).1 = Panic
  ∧ synced (sync syncWorld).2 = [(Some "c1", rule 1 "c1" "ns1" "rule-1")]
  ∧ logs (sync syncWorld).2
    = [LogInfo "sync alert rule success" [("name", "c1/ns1/rule-1")]]
  ∧ ¬ ∃ cli, (cli, rule 3 "c3" "ns1" "rule-3") ∈ synced (sync syncWorld).2.
Proof.
  vm_compute. repeat split.
  intros [cli Hin]. apply list_elem_of_In in Hin as [Hin|[]]. discriminate.
Qed.

End example_proofs.

(** ** The re-sync driver *)

Module resync_proofs.
Import resync.

Section SyncFacts.

Variable Client : Type.
Variable Client_Name : Client → string.
Variable FullName : models.AlertRule.t → string.
Variable ClientOf : string → option Client * option error.
Variable SyncAlertRule : option Client → models.AlertRule.t → option error.

Local Abbreviation one :=
  (syncOne Client Client_Name FullName ClientOf SyncAlertRule).

(** The rules the loop hands to the rule processor: those whose
    cluster lookup reports no error. *)
Local Abbreviation resolved :=
  (omap (λ v : models.AlertRule.t,
           match ClientOf (models.AlertRule.Cluster v) with
           | (cli, None) => Some (Client_Name <$> cli, v)
           | (_, Some _) => None
           end)).

Lemma syncOne_continues (v : models.AlertRule.t) (w : World) :
  (∀ cluster e, ClientOf cluster ≠ (None, Some e)) →
  ∃ lg, one v w
        = (Ok tt, mkWorld (alert_rules w) (nameMapFile w)
                          (changeRecordFile w) (logs w ++ lg)
                          (synced w ++ resolved [v])).
Proof.
  intros Hnonnil. unfold syncOne. cbn [omap list_omap].
  pose proof (Hnonnil (models.AlertRule.Cluster v)) as Hv.
  destruct (ClientOf (models.AlertRule.Cluster v)) as [cli [e|]].
  - destruct cli as [c|]; [|exfalso; by apply (Hv e)].
    eexists. unfold log. rewrite (app_nil_r (synced w)). reflexivity.
  - unfold mbind, M_bind, callSyncAlertRule.
    destruct (SyncAlertRule cli v); eexists; reflexivity.
Qed.

(** Where every failing lookup still returns a client to name, the
    loop logs the failure and goes on: it ends well and has called
    the processor for every rule whose lookup went through, in
    order. *)
Lemma syncLoop_continues (alertrules : list models.AlertRule.t) :
  (∀ cluster e, ClientOf cluster ≠ (None, Some e)) →
  ∀ w, (forRange (λ _ v, one v) alertrules tt w).1 = Ok tt
       ∧ synced (forRange (λ _ v, one v) alertrules tt w).2
         = synced w ++ resolved alertrules.
Proof.
  intros Hnonnil.
  induction alertrules as [|v l IH]; intros w; cbn [forRange].
  - cbn. by rewrite app_nil_r.
  - destruct (syncOne_continues v w Hnonnil) as [lg Hone].
    erewrite bind_Ok by exact Hone.
    match goal with |- context [forRange _ l tt ?w1] =>
      destruct (IH w1) as [H1 H2]; rewrite H1, H2 end.
    split; [reflexivity|]. cbn [synced]. rewrite <- app_assoc.
    f_equal. cbn [omap list_omap].
    by destruct (ClientOf (models.AlertRule.Cluster v)) as [cli [e|]].
Qed.

End SyncFacts.

End resync_proofs.

(** ** The Plugin deep copy *)

Module deepcopy_proofs.
Import v1beta1.

Local Open Scope nat_scope.

Section ArrayFacts.

Context {A : Type}.
Implicit Types (h : gmap loc (list A)) (s : Slice) (hdr : SliceHeader).

Lemma inBounds_mono h h' hdr :
  h ⊆ h' → inBounds h hdr → inBounds h' hdr.
Proof.
  intros Hsub (arr & Harr & Hlen). exists arr. split; [|exact Hlen].
  eapply lookup_weaken; eauto.
Qed.

Lemma elements_mono h h' hdr :
  h ⊆ h' → inBounds h hdr → elements h' hdr = elements h hdr.
Proof.
  intros Hsub (arr & Harr & _). unfold elements.
  by rewrite Harr, (lookup_weaken _ _ _ _ Harr Hsub).
Qed.

Lemma wfSlice_mono h h' s : h ⊆ h' → wfSlice h s → wfSlice h' s.
Proof. destruct s; cbn; eauto using inBounds_mono. Qed.

Lemma sliceValue_mono h h' s :
  h ⊆ h' → wfSlice h s → sliceValue h' s = sliceValue h s.
Proof.
  destruct s as [hdr|]; cbn; [|done].
  intros Hsub Hwf. f_equal. by apply elements_mono.
Qed.

Lemma elements_length h hdr : inBounds h hdr → length (elements h hdr) = len hdr.
Proof.
  intros (arr & Harr & Hlen). unfold elements. rewrite Harr. cbn.
  rewrite length_take, length_drop. lia.
Qed.

(** The copy of a slice that is not nil: a new array with the elements
    of the original. *)
Lemma deepCopySlice_Some (zero : A) h hdr :
  inBounds h hdr →
  deepCopySlice zero (Some hdr) h
  = (Some (mkSlice (fresh (dom h)) 0 (len hdr)),
     <[fresh (dom h) := elements h hdr]> h).
Proof.
  intros Hwf. pose proof (elements_length h hdr Hwf) as Hlen.
  unfold deepCopySlice, make. f_equal.
  set (l := fresh (dom h)).
  assert (Hl : h !! l = None) by (apply not_elem_of_dom, is_fresh).
  assert (Hsub : h ⊆ <[l := replicate (len hdr) zero]> h)
    by (by apply insert_subseteq).
  unfold copy. cbn [array offset len].
  rewrite (elements_mono h _ hdr Hsub Hwf).
  rewrite Nat.min_id, <- Hlen, firstn_all.
  rewrite alter_insert_eq. f_equal. cbn.
  rewrite drop_ge by (rewrite length_replicate; lia).
  apply app_nil_r.
Qed.

(** A nil slice stays nil; any other is copied into a new array that
    holds the same elements, and no array of the heap is touched. *)
Lemma deepCopySlice_spec (zero : A) h s :
  wfSlice h s →
  sliceValue (deepCopySlice zero s h).2 (deepCopySlice zero s h).1
  = sliceValue h s
  ∧ h ⊆ (deepCopySlice zero s h).2
  ∧ newIn h (deepCopySlice zero s h).1
  ∧ wfSlice (deepCopySlice zero s h).2 (deepCopySlice zero s h).1
  ∧ (s = None ↔ (deepCopySlice zero s h).1 = None).
Proof.
  destruct s as [hdr|]; [|intros _; cbn; repeat split; done].
  intros Hwf. cbn in Hwf. rewrite (deepCopySlice_Some zero h hdr Hwf).
  pose proof (elements_length h hdr Hwf) as Hlen.
  assert (Hl : h !! fresh (dom h) = None) by (apply not_elem_of_dom, is_fresh).
  cbn [fst snd]. repeat split.
  - unfold sliceValue. cbn [fmap option_fmap option_map]. f_equal.
    unfold elements at 1. cbn [array offset len].
    rewrite lookup_insert_eq. cbn [default]. rewrite drop_0.
    rewrite <- Hlen. apply firstn_all.
  - by apply insert_subseteq.
  - apply is_fresh.
  - exists (elements h hdr). cbn [array offset len].
    rewrite lookup_insert_eq. split; [done|]. lia.
  - discriminate.
  - discriminate.
Qed.

End ArrayFacts.

Section PluginFacts.

Context {X : Foreign}.

Lemma bindH_Ok {A B : Type} (c : H A) (k : A → H B) (h h' : Heap) (a : A) :
  c h = (Ok a, h') → (c ≫= k) h = k a h'.
Proof. intros Hc. unfold mbind, H_bind. by rewrite Hc. Qed.

(** The copy of a plugin, spelled out: the three slices are copied each
    in its region, everything else is taken over. *)
Lemma Plugin_DeepCopyInto_eq (p : Plugin) (h : Heap) :
  faithful →
  let d := deepCopySlice zeroObjectReference
             (spec_Dependencies (Spec p)) (refs h) in
  let v := deepCopySlice zeroValuesFrom (spec_ValuesFrom (Spec p)) (froms h) in
  let r := deepCopySlice zeroManagedResource
             (status_Resources (Status p)) (resources h) in
  Plugin_DeepCopyInto p h
  = (Ok (mkPlugin (plugin_TypeMeta p) (plugin_ObjectMeta p)
           (mkSpec (spec_Fields (Spec p)) d.1 (spec_Values (Spec p)) v.1)
           (mkStatus (status_Fields (Status p)) (status_Values (Status p))
                     (status_CreationTimestamp (Status p))
                     (status_UpgradeTimestamp (Status p)) r.1)),
     mkHeap d.2 v.2 r.2 (plugins h)).
Proof.
  intros (Hom & _ & Htime & Hval) d v r. subst d v r.
  unfold Plugin_DeepCopyInto, PluginSpec_DeepCopyInto,
    PluginStatus_DeepCopyInto, Values_DeepCopyInto, onRefs, onFroms,
    onResources.
  unfold mbind, H_bind, mret, H_ret.
  rewrite Hom, !Htime.
  destruct (deepCopySlice zeroObjectReference _ (refs h)) as [d1 d2].
  rewrite !Hval. cbn [froms refs resources plugins].
  destruct (deepCopySlice zeroValuesFrom _ (froms h)) as [v1 v2].
  cbn [froms refs resources plugins].
  destruct (deepCopySlice zeroManagedResource _ (resources h)) as [r1 r2].
  reflexivity.
Qed.

Lemma extends_refl (h : Heap) : extends h h.
Proof. by repeat split. Qed.

Lemma extends_trans (h1 h2 h3 : Heap) :
  extends h1 h2 → extends h2 h3 → extends h1 h3.
Proof.
  intros (A1 & A2 & A3 & A4) (B1 & B2 & B3 & B4).
  repeat split; etrans; eauto.
Qed.

(** The three regions a plugin's slices live in have only grown. *)
Local Abbreviation grows h h' :=
  (refs h ⊆ refs h' ∧ froms h ⊆ froms h' ∧ resources h ⊆ resources h').

Lemma extends_grows (h h' : Heap) : extends h h' → grows h h'.
Proof. intros (S1 & S2 & S3 & _). auto. Qed.

Lemma wfPlugin_mono (h h' : Heap) (p : Plugin) :
  grows h h' → wfPlugin h p → wfPlugin h' p.
Proof.
  intros (S1 & S2 & S3) (W1 & W2 & W3).
  repeat split; eauto using wfSlice_mono.
Qed.

Lemma samePlugin_mono_r (h0 : Heap) (a : Plugin) (h h' : Heap) (b : Plugin) :
  grows h h' → wfPlugin h b → samePlugin h0 a h b → samePlugin h0 a h' b.
Proof.
  intros (S1 & S2 & S3) (W1 & W2 & W3) Hs. unfold samePlugin in *.
  rewrite !(sliceValue_mono _ _ _ S1 W1), !(sliceValue_mono _ _ _ S2 W2),
    !(sliceValue_mono _ _ _ S3 W3). exact Hs.
Qed.

Lemma samePlugin_mono_l (h0 h : Heap) (a : Plugin) (h' : Heap) (b : Plugin) :
  grows h0 h → wfPlugin h0 a → samePlugin h a h' b → samePlugin h0 a h' b.
Proof.
  intros (S1 & S2 & S3) (W1 & W2 & W3) Hs. unfold samePlugin in *.
  rewrite <- !(sliceValue_mono _ _ _ S1 W1), <- !(sliceValue_mono _ _ _ S2 W2),
    <- !(sliceValue_mono _ _ _ S3 W3). exact Hs.
Qed.

(** The copy of a well-formed plugin: it ends well, the copy is the
    original field for field and element for element, its slices are new
    arrays, and the heap has only grown. *)
Lemma Plugin_DeepCopyInto_spec (p : Plugin) (h : Heap) :
  faithful → wfPlugin h p →
  ∃ p' h',
    Plugin_DeepCopyInto p h = (Ok p', h')
    ∧ samePlugin h p h' p'
    ∧ extends h h'
    ∧ newSlices h p'
    ∧ wfPlugin h' p'
    ∧ plugins h' = plugins h.
Proof.
  intros Hf (W1 & W2 & W3).
  rewrite (Plugin_DeepCopyInto_eq p h Hf). cbn zeta.
  destruct (deepCopySlice_spec zeroObjectReference _ _ W1)
    as (D1 & D2 & D3 & D4 & _).
  destruct (deepCopySlice_spec zeroValuesFrom _ _ W2)
    as (V1 & V2 & V3 & V4 & _).
  destruct (deepCopySlice_spec zeroManagedResource _ _ W3)
    as (R1 & R2 & R3 & R4 & _).
  eexists _, _. split; [reflexivity|].
  unfold samePlugin, extends, newSlices, wfPlugin. cbn.
  repeat split; auto.
Qed.

Lemma elements_lookup {A : Type} (h : gmap loc (list A)) (hdr : SliceHeader)
    (arr : list A) (k : nat) :
  h !! array hdr = Some arr → k < len hdr →
  elements h hdr !! k = arr !! (offset hdr + k).
Proof.
  intros Harr Hk. unfold elements. rewrite Harr. cbn [default].
  rewrite lookup_take_lt by exact Hk. apply lookup_drop.
Qed.

(** The loop of lines 77-79, from index [k] on: the first [k] elements
    of the new array are copies already, the other [m] still zero. *)
Lemma copyItems_spec (hin : SliceHeader) (l : loc) (h0 : Heap)
    (arr : list Plugin) :
  faithful →
  plugins h0 !! array hin = Some arr →
  offset hin + len hin ≤ length arr →
  plugins h0 !! l = None →
  Forall (wfPlugin h0) (elements (plugins h0) hin) →
  ∀ (m k : nat) (h : Heap) (copies : list Plugin),
    k + m = len hin →
    length copies = k →
    plugins h = <[l := copies ++ replicate m zeroPlugin]> (plugins h0) →
    grows h0 h →
    Forall2 (λ x y, samePlugin h0 x h y ∧ wfPlugin h y)
            (take k (elements (plugins h0) hin)) copies →
    ∃ h' copies',
      copyItems hin (mkSlice l 0 (len hin)) (seq k m) h = (Ok tt, h')
      ∧ plugins h' = <[l := copies']> (plugins h0)
      ∧ grows h0 h'
      ∧ Forall2 (λ x y, samePlugin h0 x h' y)
                (elements (plugins h0) hin) copies'.
Proof.
  intros Hf Harr Hbound Hl Hwf.
  assert (Hlen : length (elements (plugins h0) hin) = len hin)
    by (apply elements_length; exists arr; auto).
  assert (Hne : array hin ≠ l) by congruence.
  induction m as [|m IH]; intros k h copies Hkm Hcopies Hplug Hgrow Hsame.
  - exists h, copies. cbn [seq copyItems]. split; [reflexivity|].
    rewrite Hplug, app_nil_r. split; [reflexivity|]. split; [exact Hgrow|].
    rewrite take_ge in Hsame by lia.
    eapply Forall2_impl; [exact Hsame|]. by intros x y [? _].
  - cbn [seq copyItems].
    assert (Hk : k < len hin) by lia.
    destruct (lookup_lt_is_Some_2 arr (offset hin + k)) as [e He]; [lia|].
    assert (Hek : elements (plugins h0) hin !! k = Some e)
      by (by rewrite (elements_lookup _ _ arr)).
    assert (Hwfe : wfPlugin h e).
    { apply (wfPlugin_mono h0); [exact Hgrow|].
      rewrite Forall_forall in Hwf. apply Hwf.
      by apply list_elem_of_lookup_2 in Hek. }
    erewrite bindH_Ok.
    2: { unfold load. rewrite Hplug, lookup_insert_ne by congruence.
         rewrite Harr, decide_True by exact Hk. by rewrite He. }
    destruct (Plugin_DeepCopyInto_spec e h Hf Hwfe)
      as (c & h2 & Hrun & Hsame2 & Hext2 & _ & Hwfc & Hplug2).
    erewrite bindH_Ok by exact Hrun.
    erewrite bindH_Ok.
    2: { unfold store. cbn [len]. rewrite decide_True by exact Hk.
         reflexivity. }
    cbn [array offset]. rewrite Hplug2, Hplug, alter_insert_eq.
    assert (Hins : <[0 + k := c]> (copies ++ replicate (S m) zeroPlugin)
                   = (copies ++ [c]) ++ replicate m zeroPlugin).
    { cbn [Nat.add]. rewrite insert_app_r_alt by lia.
      rewrite Hcopies, Nat.sub_diag, <- app_assoc. reflexivity. }
    rewrite Hins.
    set (h3 := mkHeap (refs h2) (froms h2) (resources h2)
                      (<[l := (copies ++ [c]) ++ replicate m zeroPlugin]>
                         (plugins h0))).
    pose proof (extends_grows _ _ Hext2) as Hg2.
    assert (Hg3 : grows h h3) by exact Hg2.
    assert (Hg03 : grows h0 h3).
    { destruct Hgrow as (A1 & A2 & A3), Hg2 as (B1 & B2 & B3).
      repeat split; cbn; etrans; eauto. }
    apply (IH (S k) h3 (copies ++ [c])).
    + lia.
    + rewrite length_app. cbn. lia.
    + reflexivity.
    + exact Hg03.
    + rewrite (take_S_r _ _ _ Hek). apply Forall2_app.
      * eapply Forall2_impl; [exact Hsame|]. intros x y [Hxy Hy]. split.
        -- by apply (samePlugin_mono_r h0 x h).
        -- by apply (wfPlugin_mono h).
      * constructor; [|constructor]. split.
        -- apply (samePlugin_mono_l h0 h); [exact Hgrow | |exact Hsame2].
           rewrite Forall_forall in Hwf. apply Hwf.
           by apply list_elem_of_lookup_2 in Hek.
        -- exact Hwfc.
Qed.

(** The copy of a well-formed plugin list. *)
Lemma PluginList_DeepCopyInto_spec (l : PluginList) (h : Heap) :
  faithful → wfPluginList h l →
  ∃ l' h',
    PluginList_DeepCopyInto l h = (Ok l', h')
    ∧ samePluginList h l h' l'
    ∧ extends h h'
    ∧ newIn (plugins h) (Items l').
Proof.
  intros Hf [Hwf Helems]. unfold PluginList_DeepCopyInto.
  destruct Hf as (Hom & Hlm & Htime & Hval).
  assert (Hf : faithful) by done.
  rewrite Hlm. destruct (Items l) as [hin|] eqn:Hitems.
  - destruct Hwf as (arr & Harr & Hbound).
    set (a := fresh (dom (plugins h))).
    assert (Ha : plugins h !! a = None) by (apply not_elem_of_dom, is_fresh).
    destruct (copyItems_spec hin a h arr Hf Harr Hbound Ha (Helems hin eq_refl)
                (len hin) 0
                (mkHeap (refs h) (froms h) (resources h)
                        (<[a := replicate (len hin) zeroPlugin]> (plugins h)))
                [])
      as (h' & copies & Hrun & Hplug & Hgrow & Hsame);
      [lia | reflexivity | reflexivity | by repeat split | constructor |].
    exists (mkPluginList (list_TypeMeta l) (list_ListMeta l)
                         (Some (mkSlice a 0 (len hin)))), h'.
    split.
    { erewrite bindH_Ok; [reflexivity|].
      erewrite bindH_Ok by reflexivity.
      fold a. erewrite bindH_Ok by exact Hrun. reflexivity. }
    unfold samePluginList, extends. cbn [list_TypeMeta list_ListMeta Items].
    rewrite Hitems.
    assert (Hlen : length copies = len hin).
    { apply Forall2_length in Hsame. rewrite <- Hsame.
      apply elements_length. by exists arr. }
    split; [|split].
    + repeat split.
      replace (elements (plugins h') (mkSlice a 0 (len hin))) with copies;
        [exact Hsame|].
      unfold elements. cbn [array offset len].
      rewrite Hplug, lookup_insert_eq. cbn [default]. rewrite drop_0.
      rewrite <- Hlen. symmetry. apply firstn_all.
    + destruct Hgrow as (G1 & G2 & G3). repeat split; auto.
      rewrite Hplug. by apply insert_subseteq.
    + cbn. apply is_fresh.
  - exists (mkPluginList (list_TypeMeta l) (list_ListMeta l) None), h.
    split; [reflexivity|].
    unfold samePluginList. cbn. rewrite Hitems.
    repeat split; auto.
Qed.

(** C10. [Plugin.DeepCopy] of the nil pointer is nil.  Of a pointer to a
    plugin it is a pointer to a plugin that equals the original field for
    field and element for element; its Dependencies, ValuesFrom and
    Resources slices are nil where the original's are and otherwise
    backed by arrays allocated by the call, and every array that existed
    before is unchanged.  [PluginList.DeepCopy] does the same for Items:
    a new array whose i-th plugin is the deep copy of the i-th original.
    (This holds provided the deep copies of the embedded k8s.io types
    and of Values, which are written elsewhere, return equal copies.) *)
Theorem Plugin_DeepCopy_equal_and_fresh (h : Heap) :
  faithful →
  Plugin_DeepCopy None h = (Ok None, h)
  ∧ PluginList_DeepCopy None h = (Ok None, h)
  ∧ (∀ p, wfPlugin h p →
          ∃ p' h',
            Plugin_DeepCopy (Some p) h = (Ok (Some p'), h')
            ∧ samePlugin h p h' p'
            ∧ newSlices h p'
            ∧ extends h h')
  ∧ (∀ l, wfPluginList h l →
          ∃ l' h',
            PluginList_DeepCopy (Some l) h = (Ok (Some l'), h')
            ∧ samePluginList h l h' l'
            ∧ newIn (plugins h) (Items l')
            ∧ extends h h').
Proof.
  intros Hf. split; [reflexivity|]. split; [reflexivity|]. split.
  - intros p Hwf.
    destruct (Plugin_DeepCopyInto_spec p h Hf Hwf)
      as (p' & h' & Hrun & Hsame & Hext & Hnew & _ & _).
    exists p', h'. unfold Plugin_DeepCopy.
    erewrite bindH_Ok by exact Hrun. auto.
  - intros l Hwf.
    destruct (PluginList_DeepCopyInto_spec l h Hf Hwf)
      as (l' & h' & Hrun & Hsame & Hext & Hnew).
    exists l', h'. unfold PluginList_DeepCopy.
    erewrite bindH_Ok by exact Hrun. auto.
Qed.

End PluginFacts.

Lemma Plugin_DeepCopy_equal_and_fresh_witness :
  faithful (X := example.stringForeign)
  ∧ wfPlugin example.heap example.plugin1
  ∧ wfPluginList example.heap example.pluginList
  ∧ (∃ p' h',
       Plugin_DeepCopy (Some example.plugin1) example.heap = (Ok (Some p'), h')
       ∧ samePlugin example.heap example.plugin1 h' p'
       ∧ newSlices example.heap p'
       ∧ extends example.heap h')
  ∧ (∃ l' h',
       PluginList_DeepCopy (Some example.pluginList) example.heap
       = (Ok (Some l'), h')
       ∧ samePluginList example.heap example.pluginList h' l'
       ∧ newIn (plugins example.heap) (Items l')
       ∧ extends example.heap h').
Proof.
  assert (Hf : faithful (X := example.stringForeign))
    by (repeat split; intros; reflexivity).
  assert (Hb : ∀ (A : Type) (h : gmap loc (list A)) (hdr : SliceHeader)
                 (arr : list A),
             h !! array hdr = Some arr →
             offset hdr + len hdr ≤ length arr → inBounds h hdr)
    by (intros A h hdr arr H1 H2; exists arr; auto).
  assert (Hp1 : wfPlugin example.heap example.plugin1).
  { repeat split; cbn.
    - eapply Hb; [reflexivity | cbn; lia].
    - eapply Hb; [reflexivity | cbn; lia]. }
  assert (Hp2 : wfPlugin example.heap example.plugin2).
  { repeat split; cbn. eapply Hb; [reflexivity | cbn; lia]. }
  assert (Hl : wfPluginList example.heap example.pluginList).
  { split.
    - eapply Hb; [reflexivity | cbn; lia].
    - intros hdr [= <-].
      change (Forall (wfPlugin example.heap) [example.plugin1; example.plugin2]).
      constructor; [exact Hp1|]. constructor; [exact Hp2|]. constructor. }
  split; [exact Hf|]. split; [exact Hp1|]. split; [exact Hl|].
  pose proof (Plugin_DeepCopy_equal_and_fresh example.heap Hf)
    as (_ & _ & Hplugin & Hlist).
  split; [exact (Hplugin _ Hp1) | exact (Hlist _ Hl)].
Defined.

End deepcopy_proofs.

(** * Further properties *)

(** Inversion of a bind, whatever its outcome. *)
Lemma bind_inv {A B : Type} (c : M A) (k : A → M B) (w w' : World)
    (r : Result B) :
  (c ≫= k) w = (r, w') →
  (∃ a w1, c w = (Ok a, w1) ∧ k a w1 = (r, w'))
  ∨ (∃ e, c w = (Fail e, w') ∧ r = Fail e)
  ∨ (c w = (Panic, w') ∧ r = Panic).
Proof.
  unfold mbind, M_bind. destruct (c w) as [[a|e|] w1]; intros H.
  - left. eauto.
  - injection H as <- <-. right. left. eauto.
  - injection H as <- <-. right. right. eauto.
Qed.

Ltac bind_inv H :=
  let a := fresh "a" in
  let w1 := fresh "w" in
  let e := fresh "e" in
  let H1 := fresh "Hstep" in
  apply bind_inv in H as [(a & w1 & H1 & H)|[(e & H1 & ->)|[H1 ->]]].

(** ** Phase A *)

Module phaseA_more.
Import normalizer.

(** Every way a run of Phase A can end. *)
Lemma phaseA_outcome (F : Faults) (w w' : World) (r : Result unit) :
  updateAlertNameMapInFile F w = (r, w') →
  alert_rules w' = alert_rules w
  ∧ changeRecordFile w' = changeRecordFile w
  ∧ synced w' = synced w
  ∧ match r with
    | Ok _ => True
    | Fail _ =>
        default YamlEmpty (nameMapFile w') = default YamlEmpty (nameMapFile w)
    | Panic => False
    end.
Proof.
  unfold updateAlertNameMapInFile. intros H.
  bind_inv H.
  2: { unfold openMapFile in Hstep.
       destruct (openNameMapFile F); [|discriminate].
       injection Hstep as _ <-. auto. }
  2: { unfold openMapFile in Hstep. by destruct (openNameMapFile F). }
  unfold openMapFile in Hstep.
  destruct (openNameMapFile F); [discriminate|]. injection Hstep as <- <-.
  bind_inv H; [|discriminate Hstep|discriminate Hstep].
  unfold decode in Hstep. injection Hstep as <- <-. cbn [nameMapFile] in H.
  assert (Hrest : ∀ m w1 r',
            (oldnames ← selectOldNames F;
             alertNameMap ← forRange addOldName oldnames m;
             writeMapFile F alertNameMap) w1 = (r', w') →
            alert_rules w' = alert_rules w1
            ∧ changeRecordFile w' = changeRecordFile w1
            ∧ synced w' = synced w1
            ∧ match r' with
              | Ok _ => True
              | Fail _ => nameMapFile w' = nameMapFile w1
              | Panic => False
              end).
  { clear. intros m w1 r' H. bind_inv H.
    2: { unfold selectOldNames in Hstep. destruct (scanOldNames F);
           [|discriminate]. injection Hstep as _ <-. auto. }
    2: { unfold selectOldNames in Hstep. by destruct (scanOldNames F). }
    unfold selectOldNames in Hstep. destruct (scanOldNames F); [discriminate|].
    injection Hstep as <- <-.
    match type of H with context [forRange addOldName ?l ?m0] =>
      destruct (phaseA_proofs.addOldNames_lookup l m0 w1)
        as (m' & lg & Hrun & _) end.
    erewrite bind_Ok in H by exact Hrun.
    unfold writeMapFile in H. destruct (writeNameMapFile F);
      injection H as <- <-; cbn; auto. }
  bind_inv H.
  - apply Hrest in H. cbn in H.
    assert (w0 = mkWorld (alert_rules w)
                         (Some (default YamlEmpty (nameMapFile w)))
                         (changeRecordFile w) (logs w) (synced w)) as ->.
    { destruct (default YamlEmpty (nameMapFile w)) as [|e|m]; cbn in Hstep;
        repeat destruct (decide _); by inversion Hstep. }
    cbn in H. destruct H as (-> & -> & -> & H). repeat split.
    destruct r; [done| |done]. by rewrite H.
  - destruct (default YamlEmpty (nameMapFile w)) as [|e'|m] eqn:Hd;
      cbn in Hstep; repeat destruct (decide _); inversion Hstep; subst; cbn;
      by rewrite ?Hd.
  - destruct (default YamlEmpty (nameMapFile w)) as [|e'|m] eqn:Hd;
      cbn in Hstep; repeat destruct (decide _); inversion Hstep.
Qed.

(** X1. Phase A reads the rule table and writes the override file and
    the log, nothing else: whatever the collaborators answer, the table,
    the audit file and the clusters are as before, and the run does not
    panic. *)
Theorem phaseA_touches_only_the_override_file (F : Faults) (w : World) :
  alert_rules (updateAlertNameMapInFile F w).2 = alert_rules w
  ∧ changeRecordFile (updateAlertNameMapInFile F w).2 = changeRecordFile w
  ∧ synced (updateAlertNameMapInFile F w).2 = synced w
  ∧ (updateAlertNameMapInFile F w).1 ≠ Panic.
Proof.
  destruct (updateAlertNameMapInFile F w) as [r w'] eqn:Hrun.
  destruct (phaseA_outcome F w w' r Hrun) as (H1 & H2 & H3 & H4).
  repeat split; auto. cbn. intros ->. exact H4.
Qed.



Local Abbreviation addLog :=
  (λ n : string, LogInfo "add new alert name" [("name", n)]).

(** The names the loop of lines 93-98 adds, in the order it logs them. *)
Lemma addOldNames_added (oldnames : list string) :
  ∀ (m : gmap string string) (w : World),
    ∃ m' added,
      forRange addOldName oldnames m w
      = (Ok m', mkWorld (alert_rules w) (nameMapFile w) (changeRecordFile w)
                        (logs w ++ map addLog added) (synced w))
      ∧ NoDup added
      ∧ (∀ n, n ∈ added ↔ n ∈ oldnames ∧ m !! n = None).
Proof.
  induction oldnames as [|v l IH]; intros m w.
  - exists m, []. cbn. rewrite app_nil_r. destruct w.
    split; [reflexivity|]. split; [constructor|].
    intros n. split; [by intros ?%elem_of_nil | by intros [?%elem_of_nil _]].
  - cbn [forRange]. destruct (m !! v) as [x|] eqn:Hv.
    + destruct (IH m w) as (m' & added & Hrun & Hnd & Hin).
      exists m', added.
      erewrite bind_Ok by (eapply phaseA_proofs.addOldName_present; eauto).
      split; [exact Hrun|]. split; [exact Hnd|].
      intros n. rewrite Hin, elem_of_cons. split; [tauto|].
      intros [[->|Hl] Hn]; [congruence|tauto].
    + set (w1 := mkWorld (alert_rules w) (nameMapFile w) (changeRecordFile w)
                   (logs w ++ [addLog v]) (synced w)).
      destruct (IH (<[v:=""]> m) w1) as (m' & added & Hrun & Hnd & Hin).
      exists m', (v :: added).
      erewrite bind_Ok by (by apply phaseA_proofs.addOldName_absent).
      fold w1. split; [|split].
      * rewrite Hrun. cbn. by rewrite <- app_assoc.
      * constructor; [|exact Hnd]. rewrite Hin, lookup_insert_eq.
        by intros [_ ?].
      * intros n. rewrite !elem_of_cons, Hin.
        destruct (decide (n = v)) as [->|Hne].
        -- rewrite lookup_insert_eq. split; [by auto|]. by auto.
        -- rewrite lookup_insert_ne by congruence. tauto.
Qed.

(** A run of Phase A that ends well, taken apart. *)
Lemma phaseA_Ok_inv (F : Faults) (w w' : World) :
  updateAlertNameMapInFile F w = (Ok tt, w') →
  ∃ m' wl,
    forRange addOldName
      (filter (λ n, isOldName n = true)
              (map models.AlertRule.Name (alert_rules w)))
      (overrideMap w)
      (mkWorld (alert_rules w) (Some (default YamlEmpty (nameMapFile w)))
               (changeRecordFile w) (logs w) (synced w))
    = (Ok m', wl)
    ∧ w' = mkWorld (alert_rules wl) (Some (YamlMap m')) (changeRecordFile wl)
                   (logs wl) (synced wl).
Proof.
  unfold updateAlertNameMapInFile. intros Hrun.
  apply bind_Ok_inv in Hrun as ([] & wa & Hopen & Hrun).
  apply bind_Ok_inv in Hrun as (d & wb & Hdec & Hrun).
  apply bind_Ok_inv in Hrun as ([] & wc & Hchk & Hrun).
  apply bind_Ok_inv in Hrun as (oldnames & wd & Hsel & Hrun).
  apply bind_Ok_inv in Hrun as (m1 & we & Hloop & Hwrite).
  unfold openMapFile in Hopen.
  destruct (openNameMapFile F) as [e|]; [discriminate|].
  injection Hopen as <-.
  unfold decode in Hdec. injection Hdec as <- <-.
  cbn [nameMapFile] in Hchk, Hloop.
  assert (Hd2 : (match default YamlEmpty (nameMapFile w) with
                 | YamlMap m => (None, m)
                 | YamlMalformed e => (Some e, ∅)
                 | YamlEmpty => (Some EOF, ∅)
                 end).2 = overrideMap w).
  { unfold overrideMap. destruct (nameMapFile w) as [[| |]|]; reflexivity. }
  rewrite Hd2 in Hloop.
  assert (wc = mkWorld (alert_rules w)
                       (Some (default YamlEmpty (nameMapFile w)))
                       (changeRecordFile w) (logs w) (synced w)) as ->.
  { destruct (nameMapFile w) as [[| e |]|]; cbn in Hchk;
      try (injection Hchk as <-; reflexivity);
      destruct (decide _); first [discriminate | by injection Hchk as <-]. }
  unfold selectOldNames in Hsel.
  destruct (scanOldNames F) as [e|]; [discriminate|].
  injection Hsel as <- <-. cbn [alert_rules] in Hloop.
  unfold writeMapFile in Hwrite.
  destruct (writeNameMapFile F) as [e|]; [discriminate|].
  injection Hwrite as <-. eauto.
Qed.

(** X3. A run of Phase A that ends well logs "add new alert name" once
    for each name it adds and for no other: the names logged are
    pairwise different, and a name is among them exactly when some rule
    carries it, the query selects it, and the map had no entry for it. *)
Theorem phaseA_logs_each_new_name_once (F : Faults) (w w' : World) :
  updateAlertNameMapInFile F w = (Ok tt, w') →
  ∃ added,
    logs w' = logs w ++ map addLog added
    ∧ NoDup added
    ∧ (∀ n, n ∈ added ↔ discovered w n ∧ overrideMap w !! n = None).
Proof.
  intros Hrun. apply phaseA_Ok_inv in Hrun as (m' & wl & Hloop & ->).
  match type of Hloop with forRange _ ?l ?m ?w0 = _ =>
    destruct (addOldNames_added l m w0) as (m1 & added & Hrun' & Hnd & Hin)
  end.
  rewrite Hrun' in Hloop. injection Hloop as <- <-.
  exists added. cbn [logs]. split; [reflexivity|]. split; [exact Hnd|].
  intros n. by rewrite Hin, phaseA_proofs.selected_discovered.
Qed.

Lemma phaseA_logs_each_new_name_once_witness :
  example.phaseA example.discoverWorld
  = (Ok tt, (example.phaseA example.discoverWorld).2)
  ∧ ∃ added,
      logs (example.phaseA example.discoverWorld).2
      = logs example.discoverWorld ++ map addLog added
      ∧ NoDup added
      ∧ (∀ n, n ∈ added ↔ discovered example.discoverWorld n
                           ∧ overrideMap example.discoverWorld !! n = None).
Proof.
  assert (Hrun : example.phaseA example.discoverWorld
                 = (Ok tt, (example.phaseA example.discoverWorld).2))
    by (vm_compute; reflexivity).
  split; [exact Hrun|].
  exact (phaseA_logs_each_new_name_once _ _ _ Hrun).
Defined.

Lemma char_length_le (s : string) : (char_length s ≤ String.length s)%nat.
Proof.
  induction s as [|c s IH]; cbn; [lia|]. destruct (isContinuation c); lia.
Qed.

Lemma char_length_eq (s : string) :
  char_length s = String.length s
  ↔ ∀ c, In c (list_ascii_of_string s) → isContinuation c = false.
Proof.
  induction s as [|c s IH]; cbn.
  - split; [intros _ c [] | reflexivity].
  - pose proof (char_length_le s) as Hle.
    destruct (isContinuation c) eqn:Hc.
    + split; [lia|]. intros H. specialize (H c (or_introl eq_refl)). congruence.
    + rewrite Nat.add_1_l, Nat.succ_inj_wd, IH. split.
      * intros H c' [<-|Hin]; auto.
      * intros H c' Hin. apply H. by right.
Qed.

(** X4. The query of line 90 flags a name exactly when one of its bytes
    continues a multi-byte character or is a space; so a name of ASCII
    bytes without a space is never flagged, whatever else it contains
    (capitals, underscores, dots). *)
Theorem isOldName_iff_space_or_multibyte (name : string) :
  (isOldName name = true
   ↔ (∃ c, In c (list_ascii_of_string name) ∧ isContinuation c = true)
     ∨ In " "%char (list_ascii_of_string name))
  ∧ ((∀ c, In c (list_ascii_of_string name) → (N_of_ascii c < 128)%N) →
     ¬ In " "%char (list_ascii_of_string name) →
     isOldName name = false).
Proof.
  assert (Hiff : isOldName name = true
                 ↔ (∃ c, In c (list_ascii_of_string name)
                         ∧ isContinuation c = true)
                   ∨ In " "%char (list_ascii_of_string name)).
  { unfold isOldName.
    rewrite orb_true_iff, negb_true_iff, Nat.eqb_neq,
      (converter_proofs.Contains_char name " "%char).
    assert (Hcl : String.length name ≠ char_length name
                  ↔ ∃ c, In c (list_ascii_of_string name)
                         ∧ isContinuation c = true).
    { split.
      - intros Hne.
        destruct (existsb isContinuation (list_ascii_of_string name)) eqn:Hex.
        + apply existsb_exists in Hex. exact Hex.
        + exfalso. apply Hne. symmetry. apply char_length_eq.
          intros c Hc. destruct (isContinuation c) eqn:Hcc; [|done].
          assert (existsb isContinuation (list_ascii_of_string name) = true)
            by (apply existsb_exists; eauto).
          congruence.
      - intros (c & Hc & Hcc) Heq. symmetry in Heq.
        rewrite char_length_eq in Heq. specialize (Heq c Hc). congruence. }
    by rewrite Hcl. }
  split; [exact Hiff|].
  intros Hascii Hspace. destruct (isOldName name) eqn:Hold; [|done].
  destruct (proj1 Hiff eq_refl) as [(c & Hc & Hcc)|Hin]; [|done].
  specialize (Hascii c Hc). unfold isContinuation in Hcc.
  apply andb_true_iff in Hcc as [H1 _]. apply N.leb_le in H1. lia.
Qed.

Lemma isOldName_iff_space_or_multibyte_witness :
  (∀ c, In c (list_ascii_of_string "HighCPU_usage.v2") → (N_of_ascii c < 128)%N)
  ∧ ¬ In " "%char (list_ascii_of_string "HighCPU_usage.v2")
  ∧ isOldName "HighCPU_usage.v2" = false.
Proof.
  assert (H1 : ∀ c, In c (list_ascii_of_string "HighCPU_usage.v2") →
                    (N_of_ascii c < 128)%N).
  { intros c Hc. cbn in Hc.
    repeat (destruct Hc as [<-|Hc]; [vm_compute; reflexivity|]).
    destruct Hc. }
  assert (H2 : ¬ In " "%char (list_ascii_of_string "HighCPU_usage.v2")).
  { cbn. intros H. repeat (destruct H as [H|H]; [discriminate H|]). exact H. }
  split; [exact H1|]. split; [exact H2|].
  exact (proj2 (isOldName_iff_space_or_multibyte "HighCPU_usage.v2") H1 H2).
Defined.

(** X5. Phase A followed by Phase B: once Phase A has ended well, the
    map has an entry for every rule the query flags, so Phase B takes
    the new name of such a rule from the map, whatever the slug function
    is; where the map had no entry before, the entry is the empty name
    Phase A has put in. *)
Theorem phaseA_then_phaseB_uses_the_entry (F : Faults) (w w1 : World)
    (v : models.AlertRule.t) :
  updateAlertNameMapInFile F w = (Ok tt, w1) →
  v ∈ alert_rules w1 →
  isOldName (models.AlertRule.Name v) = true →
  ∃ n, overrideMap w1 !! models.AlertRule.Name v = Some n
       ∧ (∀ KebabCase, newName KebabCase (overrideMap w1) v = n)
       ∧ (overrideMap w !! models.AlertRule.Name v = None → n = "").
Proof.
  intros Hrun Hv Hold. apply phaseA_Ok_inv in Hrun as (m' & wl & Hloop & ->).
  match type of Hloop with forRange _ ?l ?m ?w0 = _ =>
    destruct (phaseA_proofs.addOldNames_lookup l m w0)
      as (m1 & lg & Hrun' & Hkeep & Hnew & _)
  end.
  rewrite Hrun' in Hloop. injection Hloop as <- <-.
  cbn [alert_rules] in Hv. unfold overrideMap at 1 2. cbn [nameMapFile].
  assert (Hsel : models.AlertRule.Name v
                 ∈ filter (λ n, isOldName n = true)
                          (map models.AlertRule.Name (alert_rules w))).
  { apply list_elem_of_filter. split; [exact Hold|].
    apply list_elem_of_fmap. eauto. }
  destruct (overrideMap w !! models.AlertRule.Name v) as [x|] eqn:Hx.
  - exists x. split; [by apply Hkeep|]. split; [|done].
    intros K. unfold newName. by rewrite (Hkeep _ _ Hx).
  - exists "". split; [by apply Hnew|]. split; [|done].
    intros K. unfold newName. by rewrite (Hnew _ Hx Hsel).
Qed.

Lemma phaseA_then_phaseB_uses_the_entry_witness :
  example.phaseA example.discoverWorld
  = (Ok tt, (example.phaseA example.discoverWorld).2)
  ∧ standin.rule 1 "c1" "ns1" "Foo Bar"
    ∈ alert_rules (example.phaseA example.discoverWorld).2
  ∧ isOldName "Foo Bar" = true
  ∧ ∃ n, overrideMap (example.phaseA example.discoverWorld).2 !! "Foo Bar"
         = Some n
       ∧ (∀ KebabCase,
            newName KebabCase
              (overrideMap (example.phaseA example.discoverWorld).2)
              (standin.rule 1 "c1" "ns1" "Foo Bar") = n)
       ∧ (overrideMap example.discoverWorld !! "Foo Bar" = None → n = "").
Proof.
  assert (Hrun : example.phaseA example.discoverWorld
                 = (Ok tt, (example.phaseA example.discoverWorld).2))
    by (vm_compute; reflexivity).
  assert (Hin : standin.rule 1 "c1" "ns1" "Foo Bar"
                ∈ alert_rules (example.phaseA example.discoverWorld).2)
    by (apply list_elem_of_In; vm_compute; auto).
  assert (Hold : isOldName "Foo Bar" = true) by reflexivity.
  split; [exact Hrun|]. split; [exact Hin|]. split; [exact Hold|].
  exact (phaseA_then_phaseB_uses_the_entry _ _ _
           (standin.rule 1 "c1" "ns1" "Foo Bar") Hrun Hin Hold).
Defined.

End phaseA_more.

(** ** Phase B *)

Module phaseB_more.
Import normalizer.

(** A row with its name blanked: everything Phase B is not to touch. *)
Local Abbreviation erase :=
  (map (λ row : models.AlertRule.t, models.AlertRule.withName row "")).

Lemma erase_setName (id : N) (newname : string)
    (table : list models.AlertRule.t) :
  erase (setName id newname table) = erase table.
Proof.
  unfold setName. rewrite map_map. apply map_ext. intros row.
  by destruct (decide _).
Qed.

Section Run.

Variable KebabCase : string → string.
Variable IsValidAlertRuleName : string → option error.
Variable FullName : models.AlertRule.t → string.
Variable csvRecord : list string → string.
Variable F : Faults.

Local Abbreviation run :=
  (updateAlertRuleNameInDB KebabCase IsValidAlertRuleName FullName
                           csvRecord F).
Local Abbreviation body :=
  (renameRule KebabCase IsValidAlertRuleName FullName F).
Local Abbreviation write := (writeChangeRecords csvRecord F).
Local Abbreviation changed m :=
  (λ v : models.AlertRule.t,
     models.AlertRule.Name v ≠ newName KebabCase m v).

(** What the loop does to the table and to the log. *)
Lemma renameLoop_effects (m : gmap string string)
    (envinfo : gmap string database.EnvInfo.t)
    (todo : list models.AlertRule.t) :
  ∀ (records : list (list string)) (w w' : World)
    (r : Result (list (list string))),
    forRange (body m envinfo) todo records w = (r, w') →
    erase (alert_rules w') = erase (alert_rules w)
    ∧ (∀ recs, r = Ok recs →
               logs w'
               = logs w ++ map (renameLog KebabCase FullName m)
                               (filter (changed m) todo)).
Proof.
  induction todo as [|v todo IH]; intros records w w' r; cbn [forRange].
  - intros [= <- <-]. split; [done|]. intros _ _. cbn. by rewrite app_nil_r.
  - intros H. bind_inv H.
    + apply IH in H as [Htbl Hlog].
      rewrite phaseB_proofs.renameRule_cases in Hstep.
      destruct (IsValidAlertRuleName (newName KebabCase m v)); [discriminate|].
      destruct (decide (models.AlertRule.Name v ≠ newName KebabCase m v))
        as [Hne|Heq].
      * rewrite filter_cons_True by exact Hne. cbn zeta in Hstep.
        destruct (updateName F (alert_rules w) v (newName KebabCase m v));
          [discriminate|].
        injection Hstep as <- <-. cbn in Htbl, Hlog.
        split; [by rewrite Htbl, erase_setName|].
        intros recs Hr. rewrite (Hlog recs Hr). cbn. by rewrite <- app_assoc.
      * rewrite filter_cons_False by exact Heq.
        injection Hstep as <- <-. auto.
    + rewrite phaseB_proofs.renameRule_cases in Hstep. split; [|discriminate].
      destruct (IsValidAlertRuleName (newName KebabCase m v));
        [by injection Hstep as _ <-|].
      destruct (decide _); [|discriminate]. cbn zeta in Hstep.
      destruct (updateName F (alert_rules w) v (newName KebabCase m v));
        [|discriminate].
      by injection Hstep as _ <-.
    + split; [|discriminate].
      rewrite phaseB_proofs.renameRule_cases in Hstep.
      destruct (IsValidAlertRuleName (newName KebabCase m v)); [discriminate|].
      destruct (decide _); [|discriminate]. cbn zeta in Hstep.
      by destruct (updateName F (alert_rules w) v (newName KebabCase m v)).
Qed.

(** X6. Phase B writes the name column and nothing else of the table:
    whatever the validator, the store and the files answer, and however
    the run ends, the table afterwards has the same rows in the same
    order, each with every field but the name as before.  No row is
    added, dropped or moved. *)
Theorem phaseB_writes_only_names (w : World) :
  erase (alert_rules (run w).2) = erase (alert_rules w)
  ∧ length (alert_rules (run w).2) = length (alert_rules w)
  ∧ map models.AlertRule.ID (alert_rules (run w).2)
    = map models.AlertRule.ID (alert_rules w).
Proof.
  assert (H : erase (alert_rules (run w).2) = erase (alert_rules w)).
  { destruct (phaseB_proofs.run_cases KebabCase IsValidAlertRuleName FullName
                csvRecord F w)
      as [(m & envinfo & Hsetup)|(_ & e & _ & Htbl & _)]; [|by rewrite Htbl].
    rewrite (phaseB_proofs.run_after_setup _ _ _ _ _ w m envinfo Hsetup).
    destruct ((forRange (body m envinfo) (alert_rules w) [] ≫= write) w)
      as [r w'] eqn:Hrun.
    cbn [snd]. bind_inv Hrun.
    - apply renameLoop_effects in Hstep as [Htbl _].
      destruct (phaseB_proofs.write_table csvRecord F a w0) as (_ & Hw & _).
      rewrite Hrun in Hw. cbn in Hw. by rewrite Hw.
    - by apply renameLoop_effects in Hstep as [Htbl _].
    - by apply renameLoop_effects in Hstep as [Htbl _]. }
  split; [exact H|]. split.
  - apply (f_equal length) in H. by rewrite !length_map in H.
  - apply (f_equal (map models.AlertRule.ID)) in H.
    rewrite !map_map in H. exact H.
Qed.

(** X7. A run of Phase B that ends well logs "update alertrule name" for
    the rules whose new name differs from the old one, in table order,
    and logs nothing for a rule whose name stays. *)
Theorem phaseB_logs_the_renames (w w' : World) :
  run w = (Ok tt, w') →
  ∃ m, nameMapFile w = Some (YamlMap m)
       ∧ logs w'
         = logs w ++ map (renameLog KebabCase FullName m)
                         (filter (changed m) (alert_rules w)).
Proof.
  intros Hrun.
  destruct (phaseB_proofs.run_cases KebabCase IsValidAlertRuleName FullName
              csvRecord F w)
    as [(m & envinfo & Hsetup)|(_ & e & He & _)]; [|by rewrite Hrun in He].
  rewrite (phaseB_proofs.run_after_setup _ _ _ _ _ w m envinfo Hsetup) in Hrun.
  apply bind_Ok_inv in Hrun as (recs & w1 & Hloop & Hwrite).
  apply renameLoop_effects in Hloop as [_ Hlog].
  exists m. split; [apply Hsetup|].
  rewrite <- (Hlog recs eq_refl).
  unfold writeChangeRecords in Hwrite.
  by destruct (openChangeRecordFile F); injection Hwrite as <-.
Qed.


(** X9. On a world whose override file is absent or empty, Phase B
    stops at the decoder's io.EOF: the file exists (empty) afterwards,
    and the table, the audit file and the log are untouched. *)
Theorem phaseB_without_document_is_EOF (w : World) :
  openNameMapFile F = None →
  default YamlEmpty (nameMapFile w) = YamlEmpty →
  run w
  = (Fail EOF,
     mkWorld (alert_rules w) (Some YamlEmpty) (changeRecordFile w) (logs w)
             (synced w)).
Proof.
  intros Hopen Hfile. unfold updateAlertRuleNameInDB.
  erewrite bind_Ok.
  2: { unfold openMapFile. rewrite Hopen, Hfile. reflexivity. }
  erewrite bind_Ok by reflexivity. apply bind_Fail. reflexivity.
Qed.

End Run.

Import standin example.

Lemma phaseB_logs_the_renames_witness :
  phaseB renameWorld = (Ok tt, (phaseB renameWorld).2)
  ∧ ∃ m, nameMapFile renameWorld = Some (YamlMap m)
       ∧ logs (phaseB renameWorld).2
         = logs renameWorld
           ++ map (renameLog strcase.KebabCase FullName m)
                  (filter (λ v, models.AlertRule.Name v
                                ≠ newName strcase.KebabCase m v)
                          (alert_rules renameWorld)).
Proof.
  assert (Hrun : phaseB renameWorld = (Ok tt, (phaseB renameWorld).2))
    by (vm_compute; reflexivity).
  split; [exact Hrun|].
  exact (phaseB_logs_the_renames strcase.KebabCase IsValidAlertRuleName
           FullName csvPlain (noFaults envinfo) renameWorld _ Hrun).
Defined.


Lemma phaseB_without_document_is_EOF_witness :
  openNameMapFile (noFaults envinfo) = None
  ∧ default YamlEmpty (nameMapFile freshWorld) = YamlEmpty
  ∧ phaseB freshWorld
    = (Fail EOF,
       mkWorld (alert_rules freshWorld) (Some YamlEmpty)
               (changeRecordFile freshWorld) (logs freshWorld)
               (synced freshWorld)).
Proof.
  split; [reflexivity|]. split; [reflexivity|].
  exact (phaseB_without_document_is_EOF strcase.KebabCase IsValidAlertRuleName
           FullName csvPlain (noFaults envinfo) freshWorld eq_refl eq_refl).
Defined.

(** X10. Where there is no audit file yet, a run of Phase B that ends
    well (the open of the file going through) leaves a file that holds
    the byte-order marker, the header and then one record per rule of
    the table, in table order, for renamed and unchanged rules alike;
    each record is the old name, the new name and the five fields of the
    environment entry "cluster/namespace" (empty where there is none). *)
Theorem phaseB_fresh_audit_file (KebabCase : string → string)
    (IsValidAlertRuleName : string → option error)
    (FullName : models.AlertRule.t → string)
    (csvRecord : list string → string) (F : Faults) (w w' : World) :
  updateAlertRuleNameInDB KebabCase IsValidAlertRuleName FullName csvRecord F w
  = (Ok tt, w') →
  openChangeRecordFile F = None →
  changeRecordFile w = None →
  ∃ m envinfo records,
    setupOk F w m envinfo
    ∧ changeRecordFile w'
      = Some (BOM +:+ csvRecord header
              +:+ String.concat "" (map csvRecord records))
    ∧ length records = length (alert_rules w)
    ∧ (∀ i v, alert_rules w !! i = Some v →
              records !! i
              = Some (auditRecord envinfo v (newName KebabCase m v))).
Proof.
  intros Hrun Hopen Hnone.
  destruct (phaseB_proofs.phaseB_audit_fresh _ _ _ _ _ _ _ Hrun Hopen Hnone)
    as (m & envinfo & Hs & Hf).
  exists m, envinfo,
    (map (λ v, auditRecord envinfo v (newName KebabCase m v)) (alert_rules w)).
  split; [exact Hs|]. split; [exact Hf|]. split; [apply length_map|].
  intros i v Hi. by rewrite list_lookup_fmap, Hi.
Qed.

Lemma phaseB_fresh_audit_file_witness :
  phaseB renameWorld = (Ok tt, (phaseB renameWorld).2)
  ∧ openChangeRecordFile (noFaults envinfo) = None
  ∧ changeRecordFile renameWorld = None
  ∧ ∃ m envinfo' records,
      setupOk (noFaults envinfo) renameWorld m envinfo'
      ∧ changeRecordFile (phaseB renameWorld).2
        = Some (BOM +:+ csvPlain header
                +:+ String.concat "" (map csvPlain records))
      ∧ length records = length (alert_rules renameWorld)
      ∧ (∀ i v, alert_rules renameWorld !! i = Some v →
                records !! i
                = Some (auditRecord envinfo' v
                          (newName strcase.KebabCase m v))).
Proof.
  assert (Hrun : phaseB renameWorld = (Ok tt, (phaseB renameWorld).2))
    by (vm_compute; reflexivity).
  split; [exact Hrun|]. split; [reflexivity|]. split; [reflexivity|].
  exact (phaseB_fresh_audit_file strcase.KebabCase IsValidAlertRuleName
           FullName csvPlain (noFaults envinfo) renameWorld _ Hrun
           eq_refl eq_refl).
Defined.

End phaseB_more.

(** ** The re-sync driver *)

Module resync_more.
Import resync.

Section SyncFacts.

Variable Client : Type.
Variable Client_Name : Client → string.
Variable FullName : models.AlertRule.t → string.
Variable preloadFind : option error.
Variable ClientOf : string → option Client * option error.
Variable SyncAlertRule : option Client → models.AlertRule.t → option error.

Local Abbreviation one :=
  (syncOne Client Client_Name FullName ClientOf SyncAlertRule).
Local Abbreviation run :=
  (syncAlertRules Client Client_Name FullName preloadFind ClientOf
                  SyncAlertRule).
Local Abbreviation resolved :=
  (omap (λ v : models.AlertRule.t,
           match ClientOf (models.AlertRule.Cluster v) with
           | (cli, None) => Some (Client_Name <$> cli, v)
           | (_, Some _) => None
           end)).
(** The lookup of the rule's cluster returns the nil client with an
    error. *)
Local Abbreviation nilWithError :=
  (λ v : models.AlertRule.t,
     ∃ e, ClientOf (models.AlertRule.Cluster v) = (None, Some e)).

(** One round, by cases on the lookup. *)
Lemma syncOne_cases (v : models.AlertRule.t) (w : World) :
  (nilWithError v ∧ one v w = (Panic, w))
  ∨ (¬ nilWithError v
     ∧ ∃ entry,
         one v w
         = (Ok tt, mkWorld (alert_rules w) (nameMapFile w)
                           (changeRecordFile w) (logs w ++ [entry])
                           (synced w ++ resolved [v]))).
Proof.
  unfold syncOne. cbn [omap list_omap].
  destruct (ClientOf (models.AlertRule.Cluster v)) as [cli [e|]].
  - destruct cli as [c|].
    + right. split; [by intros [? [=]]|]. eexists. unfold log.
      rewrite (app_nil_r (synced w)). reflexivity.
    + left. split; [by exists e | reflexivity].
  - right. split; [by intros [? [=]]|].
    unfold mbind, M_bind, callSyncAlertRule.
    destruct (SyncAlertRule cli v); eexists; reflexivity.
Qed.

(** The loop, up to the first rule whose lookup returns the nil client
    with an error. *)
Lemma syncLoop_cases (alertrules : list models.AlertRule.t) :
  ∀ w,
    (Exists nilWithError alertrules
     ∧ (forRange (λ _ v, one v) alertrules tt w).1 = Panic)
    ∨ (Forall (λ v, ¬ nilWithError v) alertrules
       ∧ ∃ lg,
           length lg = length alertrules
           ∧ forRange (λ _ v, one v) alertrules tt w
             = (Ok tt, mkWorld (alert_rules w) (nameMapFile w)
                               (changeRecordFile w) (logs w ++ lg)
                               (synced w ++ resolved alertrules))).
Proof.
  induction alertrules as [|v l IH]; intros w; cbn [forRange].
  - right. split; [constructor|]. exists []. cbn. rewrite !app_nil_r.
    by destruct w.
  - destruct (syncOne_cases v w) as [[Hnil Hone]|[Hok [entry Hone]]].
    + left. split; [by constructor|]. by erewrite bind_Panic by exact Hone.
    + erewrite bind_Ok by exact Hone.
      match goal with |- context [forRange _ l tt ?w1] =>
        destruct (IH w1) as [[Hex Hp]|[Hall (lg & Hlen & Hrun)]] end.
      * left. split; [by apply Exists_cons_tl | exact Hp].
      * right. split; [by constructor|]. exists (entry :: lg).
        split; [cbn; by rewrite Hlen|]. rewrite Hrun. cbn.
        rewrite <- !app_assoc. do 2 f_equal.
        cbn [omap list_omap].
        by destruct (ClientOf (models.AlertRule.Cluster v)) as [cli [e|]].
Qed.

(** X11. When the rules are read and no cluster lookup returns the nil
    client with its error, the driver ends well: the rule processor has
    been called, in table order, for exactly the rules whose lookup
    reported no error, whatever the processor answered for the rules
    before; one line is logged per rule; and the table and the files are
    untouched. *)
Theorem syncAlertRules_processes_every_resolved_rule (w : World) :
  preloadFind = None →
  (∀ cluster e, ClientOf cluster ≠ (None, Some e)) →
  (run w).1 = Ok tt
  ∧ synced (run w).2 = synced w ++ resolved (alert_rules w)
  ∧ length (logs (run w).2) = length (logs w) + length (alert_rules w)
  ∧ alert_rules (run w).2 = alert_rules w
  ∧ nameMapFile (run w).2 = nameMapFile w
  ∧ changeRecordFile (run w).2 = changeRecordFile w.
Proof.
  intros Hfind Hnonnil. unfold syncAlertRules.
  erewrite bind_Ok by (unfold find; rewrite Hfind; reflexivity).
  destruct (syncLoop_cases (alert_rules w) w)
    as [[Hex _]|[_ (lg & Hlen & Hrun)]].
  - apply Exists_exists in Hex as (v & _ & e & He). by destruct (Hnonnil _ _ He).
  - rewrite Hrun. cbn. rewrite length_app, Hlen. repeat split; reflexivity.
Qed.

(** X12. The driver returns an error only when the rules cannot be read
    (and then nothing has happened), and it panics exactly when the
    rules are read and the cluster lookup of some rule returns the nil
    client with an error. *)
Theorem syncAlertRules_outcomes (w : World) :
  (∀ e, (run w).1 = Fail e ↔ preloadFind = Some e)
  ∧ (∀ e, preloadFind = Some e → (run w).2 = w)
  ∧ ((run w).1 = Panic
     ↔ preloadFind = None ∧ ∃ v, v ∈ alert_rules w ∧ nilWithError v).
Proof.
  unfold syncAlertRules, find.
  destruct preloadFind as [e0|].
  - unfold mbind, M_bind. cbn. split; [|split].
    + intros e. split; congruence.
    + reflexivity.
    + split; [discriminate | by intros [? _]].
  - erewrite bind_Ok by reflexivity.
    destruct (syncLoop_cases (alert_rules w) w)
      as [[Hex Hp]|[Hall (lg & _ & Hrun)]].
    + rewrite Hp. split; [|split].
      * intros e. split; discriminate.
      * discriminate.
      * split; [|reflexivity]. intros _. split; [reflexivity|].
        by apply Exists_exists in Hex.
    + rewrite Hrun. cbn. split; [|split].
      * intros e. split; discriminate.
      * discriminate.
      * split; [discriminate|].
        intros (_ & v & Hv & Hnil). rewrite Forall_forall in Hall.
        by destruct (Hall v Hv).
Qed.

End SyncFacts.

Lemma syncAlertRules_processes_every_resolved_rule_witness :
  (∀ cluster e, (λ c : string, (Some c, @None error)) cluster ≠ (None, Some e))
  ∧ (resync.syncAlertRules string id standin.FullName None
       (λ c, (Some c, None)) (λ _ _, Some (Err "sync failed"))
       example.syncWorld).1 = Ok tt
  ∧ synced (resync.syncAlertRules string id standin.FullName None
              (λ c, (Some c, None)) (λ _ _, Some (Err "sync failed"))
              example.syncWorld).2
    = [(Some "c1", standin.rule 1 "c1" "ns1" "rule-1");
       (Some "c2", standin.rule 2 "c2" "ns1" "rule-2");
       (Some "c3", standin.rule 3 "c3" "ns1" "rule-3")].
Proof.
  assert (H : ∀ cluster e,
            (λ c : string, (Some c, @None error)) cluster ≠ (None, Some e))
    by (intros cluster e; discriminate).
  split; [exact H|].
  destruct (syncAlertRules_processes_every_resolved_rule string id
              standin.FullName None (λ c, (Some c, None))
              (λ _ _, Some (Err "sync failed")) example.syncWorld eq_refl H)
    as (H1 & H2 & _).
  split; [exact H1|]. rewrite H2. reflexivity.
Defined.

Lemma syncAlertRules_outcomes_witness :
  resync.syncAlertRules string id standin.FullName (Some (Err "db down"))
    (λ c, (Some c, None)) (λ _ _, None) example.syncWorld
  = (Fail (Err "db down"), example.syncWorld)
  ∧ (resync.syncAlertRules string id standin.FullName None
       (λ _, (None, Some (Err "no such cluster"))) (λ _ _, None)
       example.syncWorld).1 = Panic.
Proof.
  split.
  - destruct (syncAlertRules_outcomes string id standin.FullName
                (Some (Err "db down")) (λ c, (Some c, None)) (λ _ _, None)
                example.syncWorld) as (H1 & H2 & _).
    apply injective_projections; cbn [fst snd].
    + apply H1. reflexivity.
    + exact (H2 _ eq_refl).
  - apply (syncAlertRules_outcomes string id standin.FullName None
             (λ _, (None, Some (Err "no such cluster"))) (λ _ _, None)
             example.syncWorld).
    split; [reflexivity|].
    exists (standin.rule 1 "c1" "ns1" "rule-1").
    split; [|by exists (Err "no such cluster")].
    vm_compute. apply list_elem_of_here.
Defined.

End resync_more.

(** ** The label matchers of the converter *)

Module converter_more.
Import converter.

(** The matchers built from a map that is visited entry by entry. *)
Lemma matchers_of_pairs (order : list (string * string))
    (pairs : gmap string string) :
  order ≡ₚ map_to_list pairs →
  appendEach convertLabelPair order []
  ≡ₚ map convertLabelPair (map_to_list pairs)
  ∧ NoDup (map promql.LabelMatcher.Name
               (appendEach convertLabelPair order []))
  ∧ (∀ k v, pairs !! k = Some v
            ↔ promql.LabelMatcher.mk (matchType v) k v
              ∈ appendEach convertLabelPair order []).
Proof.
  intros Hperm. rewrite converter_proofs.appendEach_map. cbn [app].
  split; [by apply fmap_Permutation|]. split.
  - rewrite map_map. cbn. change (map (λ x, x.1) order) with (order.*1).
    rewrite Hperm. apply NoDup_fst_map_to_list.
  - intros k v. rewrite <- elem_of_map_to_list, <- Hperm. split.
    + intros Hin. apply list_elem_of_fmap. by exists (k, v).
    + intros Hin. apply list_elem_of_fmap in Hin as ([k' v'] & Heq & Hin).
      unfold convertLabelPair in Heq. cbn in Heq. by injection Heq as _ -> ->.
Qed.

Section Matchers.

Variable FullName : models.AlertRule.t → string.
Variable StatusNormal : Z.

(** X13. Whatever order the two runs visit a label-pair map in (each
    entry once), the matchers of a converted rule are the same up to
    their order: there is one matcher per label of the legacy generator,
    no two with the same name, carrying the label's name and value and
    the match type of the value; and the scalar fields of the generator
    are copied. *)
Theorem convert_matchers_independent_of_order
    (order order' : gmap string string → list (string * string))
    (cluster : string) (monitorRule : observe.MonitorAlertRule.t)
    (loggingRule : observe.LoggingAlertRule.t)
    (p : observe.PromqlGenerator.t) (l : observe.LogqlGenerator.t) :
  (∀ m, order m ≡ₚ map_to_list m) →
  (∀ m, order' m ≡ₚ map_to_list m) →
  observe.MonitorAlertRule.PromqlGenerator monitorRule = Some p →
  observe.LoggingAlertRule.LogqlGenerator loggingRule = Some l →
  ∃ gp gp' gl gl',
    models.AlertRule.PromqlGenerator
      (convertMonitorAlertRule FullName StatusNormal order cluster
         monitorRule).1 = Some gp
    ∧ models.AlertRule.PromqlGenerator
        (convertMonitorAlertRule FullName StatusNormal order' cluster
           monitorRule).1 = Some gp'
    ∧ models.AlertRule.LogqlGenerator
        (convertLoggingAlertRule FullName StatusNormal order cluster
           loggingRule).1 = Some gl
    ∧ models.AlertRule.LogqlGenerator
        (convertLoggingAlertRule FullName StatusNormal order' cluster
           loggingRule).1 = Some gl'
    ∧ models.PromqlGenerator.LabelMatchers gp
      ≡ₚ models.PromqlGenerator.LabelMatchers gp'
    ∧ models.LogqlGenerator.LabelMatchers gl
      ≡ₚ models.LogqlGenerator.LabelMatchers gl'
    ∧ NoDup (map promql.LabelMatcher.Name
                 (models.PromqlGenerator.LabelMatchers gp))
    ∧ NoDup (map promql.LabelMatcher.Name
                 (models.LogqlGenerator.LabelMatchers gl))
    ∧ (∀ k v, observe.PromqlGenerator.LabelPairs p !! k = Some v
              ↔ promql.LabelMatcher.mk (matchType v) k v
                ∈ models.PromqlGenerator.LabelMatchers gp)
    ∧ (∀ k v, observe.LogqlGenerator.LabelPairs l !! k = Some v
              ↔ promql.LabelMatcher.mk (matchType v) k v
                ∈ models.LogqlGenerator.LabelMatchers gl)
    ∧ (models.PromqlGenerator.Scope gp, models.PromqlGenerator.Resource gp,
       models.PromqlGenerator.Rule gp, models.PromqlGenerator.Unit gp)
      = (observe.PromqlGenerator.Scope p, observe.PromqlGenerator.Resource p,
         observe.PromqlGenerator.Rule p, observe.PromqlGenerator.Unit p)
    ∧ (models.LogqlGenerator.Duration gl, models.LogqlGenerator.Match gl)
      = (observe.LogqlGenerator.Duration l, observe.LogqlGenerator.Match l).
Proof.
  intros Ho Ho' Hp Hl.
  unfold convertMonitorAlertRule, convertLoggingAlertRule. cbn [fst].
  cbn [models.AlertRule.PromqlGenerator models.AlertRule.LogqlGenerator].
  rewrite Hp, Hl.
  destruct (matchers_of_pairs _ _ (Ho (observe.PromqlGenerator.LabelPairs p)))
    as (P1 & P2 & P3).
  destruct (matchers_of_pairs _ _ (Ho' (observe.PromqlGenerator.LabelPairs p)))
    as (P1' & _ & _).
  destruct (matchers_of_pairs _ _ (Ho (observe.LogqlGenerator.LabelPairs l)))
    as (L1 & L2 & L3).
  destruct (matchers_of_pairs _ _ (Ho' (observe.LogqlGenerator.LabelPairs l)))
    as (L1' & _ & _).
  eexists _, _, _, _.
  do 4 (split; [reflexivity|]). cbn.
  split; [by rewrite P1, P1'|]. split; [by rewrite L1, L1'|].
  split; [exact P2|]. split; [exact L2|].
  split; [exact P3|]. split; [exact L3|]. split; reflexivity.
Qed.

End Matchers.

Lemma convert_matchers_independent_of_order_witness :
  (∀ m : gmap string string, map_to_list m ≡ₚ map_to_list m)
  ∧ (∀ m : gmap string string, reverse (map_to_list m) ≡ₚ map_to_list m)
  ∧ ∃ gp gp' gl gl',
      models.AlertRule.PromqlGenerator
        (convertMonitorAlertRule standin.FullName 0 map_to_list "c1"
           example.monitorRule).1 = Some gp
      ∧ models.AlertRule.PromqlGenerator
          (convertMonitorAlertRule standin.FullName 0
             (λ m, reverse (map_to_list m)) "c1" example.monitorRule).1
        = Some gp'
      ∧ models.AlertRule.LogqlGenerator
          (convertLoggingAlertRule standin.FullName 0 map_to_list "c1"
             example.loggingRule).1 = Some gl
      ∧ models.AlertRule.LogqlGenerator
          (convertLoggingAlertRule standin.FullName 0
             (λ m, reverse (map_to_list m)) "c1" example.loggingRule).1
        = Some gl'
      ∧ models.PromqlGenerator.LabelMatchers gp
        ≡ₚ models.PromqlGenerator.LabelMatchers gp'
      ∧ models.LogqlGenerator.LabelMatchers gl
        ≡ₚ models.LogqlGenerator.LabelMatchers gl'.
Proof.
  assert (H1 : ∀ m : gmap string string, map_to_list m ≡ₚ map_to_list m)
    by reflexivity.
  assert (H2 : ∀ m : gmap string string,
            reverse (map_to_list m) ≡ₚ map_to_list m)
    by (intros m; apply reverse_Permutation).
  split; [exact H1|]. split; [exact H2|].
  destruct (convert_matchers_independent_of_order standin.FullName 0
              map_to_list (λ m, reverse (map_to_list m)) "c1"
              example.monitorRule example.loggingRule _ _ H1 H2
              eq_refl eq_refl)
    as (gp & gp' & gl & gl' & A & B & C & D & E & G & _).
  exists gp, gp', gl, gl'. auto 10.
Defined.

End converter_more.

(** ** The export of the legacy rules *)

Module exporter_proofs.
Import exporter.

Lemma logAll_run (entries : list LogEntry) (w : World) :
  logAll entries w
  = (Ok tt, mkWorld (alert_rules w) (nameMapFile w) (changeRecordFile w)
                    (logs w ++ entries) (synced w)).
Proof.
  unfold logAll. revert w. induction entries as [|entry l IH]; intros w.
  - cbn. rewrite app_nil_r. by destruct w.
  - cbn [forRange]. erewrite bind_Ok by reflexivity. rewrite IH. cbn.
    by rewrite <- app_assoc.
Qed.

(** A loop that converts every element, logs what the conversion logs
    and appends the rule. *)
Lemma convertLoop_run {A : Type}
    (convert : A → models.AlertRule.t * list LogEntry) (l : list A) :
  ∀ (acc : list models.AlertRule.t) (w : World),
    forRange (λ alertrules v,
                let r := convert v in
                logAll r.2;; mret (alertrules ++ [r.1])) l acc w
    = (Ok (acc ++ map (λ v, (convert v).1) l),
       mkWorld (alert_rules w) (nameMapFile w) (changeRecordFile w)
               (logs w ++ concat (map (λ v, (convert v).2) l)) (synced w)).
Proof.
  induction l as [|v l IH]; intros acc w; cbn [forRange].
  - cbn. rewrite !app_nil_r. by destruct w.
  - erewrite bind_Ok.
    2: { cbn zeta. erewrite bind_Ok by apply logAll_run. reflexivity. }
    rewrite IH. cbn. by rewrite <- !app_assoc.
Qed.

Section ExportFacts.

Variable FullName : models.AlertRule.t → string.
Variable StatusNormal : Z.
Variable rangeOrder : gmap string string → list (string * string).
Variable SetReceivers : models.AlertRule.t → option error * models.AlertRule.t.
Variable Create : list models.AlertRule.t → models.AlertRule.t → error + N.

Local Abbreviation monitor :=
  (converter.convertMonitorAlertRule FullName StatusNormal rangeOrder).
Local Abbreviation logging :=
  (converter.convertLoggingAlertRule FullName StatusNormal rangeOrder).
Local Abbreviation callback :=
  (exportCluster FullName StatusNormal rangeOrder).
Local Abbreviation persist := (persistRules FullName SetReceivers Create).
Local Abbreviation created := (created SetReceivers Create).

(** The rules of one cluster, converted: the monitor rules first. *)
Local Abbreviation converted name ls :=
  (map (λ v, (monitor name v).1) (monitorAlertRules ls)
   ++ map (λ v, (logging name v).1) (loggingAlertRules ls)).

Local Abbreviation listLog format name err :=
  (match err with
   | Some e => [LogErrorf format [ArgS name; ArgE e]]
   | None => []
   end).

(** X14. The callback of one cluster always returns the nil error,
    whatever the two listings report: to the rules gathered so far it
    appends the conversions of the monitor rules listed, then those of
    the logging rules listed, each in listing order.  A listing that
    fails is logged and does not stop the other; the log gets the lines
    of the failed listings and then those of the conversions, and
    nothing but the log is written. *)
Theorem exportCluster_appends (name : string) (ls : Listing)
    (alertrules : list models.AlertRule.t) (w : World) :
  callback name ls alertrules w
  = (Ok (alertrules ++ converted name ls),
     mkWorld (alert_rules w) (nameMapFile w) (changeRecordFile w)
       (logs w
        ++ listLog "ListMonitorAlertRules in cluster: %s, err: %v" name
                   (monitorErr ls)
        ++ listLog "ListLoggingAlertRules in cluster: %s, err: %v" name
                   (loggingErr ls)
        ++ concat (map (λ v, (monitor name v).2) (monitorAlertRules ls))
        ++ concat (map (λ v, (logging name v).2) (loggingAlertRules ls)))
       (synced w)).
Proof.
  unfold exportCluster.
  erewrite bind_Ok.
  2: { instantiate (1 := mkWorld (alert_rules w) (nameMapFile w)
                           (changeRecordFile w)
                           (logs w ++ listLog
                              "ListMonitorAlertRules in cluster: %s, err: %v"
                              name (monitorErr ls)) (synced w)).
       instantiate (1 := tt).
       destruct (monitorErr ls); [reflexivity|].
       cbn. rewrite app_nil_r. by destruct w. }
  erewrite bind_Ok.
  2: { match goal with |- _ ?w0 = _ =>
         instantiate (1 := mkWorld (alert_rules w0) (nameMapFile w0)
                             (changeRecordFile w0)
                             (logs w0 ++ listLog
                                "ListLoggingAlertRules in cluster: %s, err: %v"
                                name (loggingErr ls)) (synced w0)) end.
       instantiate (1 := tt).
       destruct (loggingErr ls); [reflexivity|].
       cbn. by rewrite app_nil_r. }
  erewrite bind_Ok by apply (convertLoop_run (monitor name)).
  rewrite (convertLoop_run (logging name)). cbn.
  by rewrite <- !app_assoc.
Qed.

Local Abbreviation isSuccess :=
  (λ entry : LogEntry,
     match entry with
     | LogInfo msg _ => bool_decide (msg = "export alertrule success")
     | _ => false
     end = true).
Local Abbreviation receiversOk :=
  (λ v : models.AlertRule.t, (SetReceivers v).1 = None).

(** One round of the loop of lines 66-75, by cases. *)
Lemma persistRule_cases (v : models.AlertRule.t) (w : World) :
  ∃ v' lg,
    persistRule FullName SetReceivers Create v w
    = (Ok v', mkWorld (alert_rules w ++ created (alert_rules w) [v])
                      (nameMapFile w) (changeRecordFile w) (logs w ++ lg)
                      (synced w))
    ∧ length (filter isSuccess lg) = length (filter receiversOk [v]).
Proof.
  unfold persistRule. cbn [exporter.created].
  rewrite filter_cons, filter_nil.
  destruct (SetReceivers v) as [[e|] v1]; cbn [fst].
  - rewrite decide_False by discriminate.
    eexists _, _. split.
    + erewrite bind_Ok by reflexivity. cbn. rewrite app_nil_r. reflexivity.
    + reflexivity.
  - rewrite decide_True by reflexivity.
    unfold mbind, M_bind, create.
    destruct (Create (alert_rules w) v1) as [e|id]; cbn.
    + eexists _, [_; _]. split.
      * rewrite app_nil_r, <- app_assoc. reflexivity.
      * reflexivity.
    + eexists _, [_]. split; reflexivity.
Qed.

Lemma created_app (table : list models.AlertRule.t)
    (l1 l2 : list models.AlertRule.t) :
  created table (l1 ++ l2)
  = created table l1 ++ created (table ++ created table l1) l2.
Proof.
  revert table. induction l1 as [|v l1 IH]; intros table; cbn.
  - by rewrite app_nil_r.
  - destruct (SetReceivers v) as [[e|] v1]; [apply IH|].
    destruct (Create table v1) as [e|id]; [apply IH|].
    rewrite IH. cbn. by rewrite <- !app_assoc.
Qed.

Lemma persistLoop_run (alertrules : list models.AlertRule.t) :
  ∀ (done : list models.AlertRule.t) (w : World),
    ∃ rules' lg,
      forRange (λ done v,
                  v' ← persistRule FullName SetReceivers Create v;
                  mret (done ++ [v'])) alertrules done w
      = (Ok (done ++ rules'),
         mkWorld (alert_rules w ++ created (alert_rules w) alertrules)
                 (nameMapFile w) (changeRecordFile w) (logs w ++ lg)
                 (synced w))
      ∧ length rules' = length alertrules
      ∧ length (filter isSuccess lg) = length (filter receiversOk alertrules).
Proof.
  induction alertrules as [|v l IH]; intros done w; cbn [forRange].
  - exists [], []. cbn. rewrite !app_nil_r. by destruct w.
  - destruct (persistRule_cases v w) as (v' & lg1 & Hone & Hcount).
    erewrite bind_Ok by (erewrite bind_Ok by exact Hone; reflexivity).
    match goal with |- context [forRange _ l ?d ?w1] =>
      destruct (IH d w1) as (rules' & lg & Hrun & Hlen & Hlogs) end.
    exists (v' :: rules'), (lg1 ++ lg). rewrite Hrun. cbn [alert_rules logs].
    split; [|split].
    + rewrite <- !app_assoc. cbn [app].
      change (v :: l) with ([v] ++ l). by rewrite created_app.
    + cbn. by rewrite Hlen.
    + rewrite filter_app, length_app, Hlogs, Hcount.
      change (v :: l) with ([v] ++ l). by rewrite filter_app, length_app.
Qed.

Lemma created_from (table : list models.AlertRule.t)
    (alertrules : list models.AlertRule.t) :
  Forall (λ row, ∃ v v1 id,
            v ∈ alertrules ∧ SetReceivers v = (None, v1)
            ∧ row = withID v1 id)
         (created table alertrules).
Proof.
  revert table. induction alertrules as [|v l IH]; intros table; cbn.
  - constructor.
  - assert (Hweak : ∀ t, Forall (λ row, ∃ v0 v1 id,
                                   v0 ∈ v :: l ∧ SetReceivers v0 = (None, v1)
                                   ∧ row = withID v1 id) (created t l)).
    { intros t. eapply Forall_impl; [apply IH|].
      intros row (v0 & v1 & id & Hin & Hs & ->).
      exists v0, v1, id. split; [by apply list_elem_of_further|done]. }
    destruct (SetReceivers v) as [[e|] v1] eqn:Hs; [apply Hweak|].
    destruct (Create table v1) as [e|id]; [apply Hweak|].
    constructor; [|apply Hweak].
    exists v, v1, id. split; [apply list_elem_of_here|done].
Qed.

(** X15. The loop that persists the rules never aborts: it returns as
    many rules as it was given; the rows of the table stay, followed by
    one new row for each rule whose receivers resolve and whose create
    goes through, in order, each being the rule as SetReceivers left it
    with the key the database gave it; and "export alertrule success" is
    logged once for each rule whose receivers resolve, whether or not
    its create went through. *)
Theorem persistRules_never_aborts (alertrules : list models.AlertRule.t)
    (w : World) :
  ∃ rules' lg,
    persist alertrules w
    = (Ok rules',
       mkWorld (alert_rules w ++ created (alert_rules w) alertrules)
               (nameMapFile w) (changeRecordFile w) (logs w ++ lg)
               (synced w))
    ∧ length rules' = length alertrules
    ∧ length (filter isSuccess lg) = length (filter receiversOk alertrules)
    ∧ Forall (λ row, ∃ v v1 id,
                v ∈ alertrules ∧ SetReceivers v = (None, v1)
                ∧ row = withID v1 id)
             (created (alert_rules w) alertrules).
Proof.
  destruct (persistLoop_run alertrules [] w) as (rules' & lg & Hrun & H1 & H2).
  exists rules', lg. split; [exact Hrun|].
  split; [exact H1|]. split; [exact H2|]. apply created_from.
Qed.


End ExportFacts.

End exporter_proofs.

(** ** The purge of the cluster objects *)

Module purger_proofs.
Import purger.

Lemma filter_all {A : Type} (P : A → Prop) `{∀ x, Decision (P x)}
    (l : list A) :
  (∀ x, x ∈ l → P x) → filter P l = l.
Proof.
  induction l as [|x l IH]; intros Hall; [done|].
  rewrite filter_cons_True by (apply Hall, list_elem_of_here).
  f_equal. apply IH. intros y Hy. by apply Hall, list_elem_of_further.
Qed.

Section PurgeFacts.

Variable LabelAlertmanagerConfigName : string.
Variable LabelPrometheusRuleName : string.
Variable LabelPrometheusRuleType : string.
Variable AlertTypeMonitor : string.
Variable name : string.
Variable listConfigs : option error.
Variable listRules : option error.
Variable delete : Object.t → option error.

Local Abbreviation selectsConfig := (selectsConfig LabelAlertmanagerConfigName).
Local Abbreviation selectsRule :=
  (selectsRule LabelPrometheusRuleName LabelPrometheusRuleType
               AlertTypeMonitor).
Local Abbreviation purge :=
  (purgeCluster LabelAlertmanagerConfigName LabelPrometheusRuleName
                LabelPrometheusRuleType AlertTypeMonitor name listConfigs
                listRules delete).

(** No listed item whose delete went through has the key of [o]. *)
Local Abbreviation survives items :=
  (λ o : Object.t,
     Forall (λ v, delete v = None → key o ≠ key v) items).

(** The delete loop leaves the objects that share no key with an item
    whose delete went through. *)
Lemma deleteEach_objects (format : string) (items : list Object.t) :
  ∀ (objects : list Object.t) (lg : list LogEntry),
    (deleteEach name delete format items (objects, lg)).1
    = filter (survives items) objects.
Proof.
  unfold deleteEach.
  induction items as [|v items IH]; intros objects lg; cbn [fold_left].
  - cbn. symmetry. apply filter_all. intros o _. constructor.
  - destruct (delete v) as [e|] eqn:Hv; cbn [fst snd].
    + rewrite IH. apply list_filter_iff. intros o. split.
      * intros H. constructor; [by rewrite Hv|exact H].
      * intros H. by apply Forall_cons in H as [_ H].
    + rewrite IH. unfold remove. rewrite list_filter_filter.
      apply list_filter_iff. intros o. split.
      * intros [H1 H2]. constructor; [by intros _|exact H1].
      * intros H. apply Forall_cons in H as [H1 H2]. auto.
Qed.

Lemma key_inj (objects : list Object.t) (o v : Object.t) :
  NoDup (map key objects) → o ∈ objects → v ∈ objects → key o = key v →
  o = v.
Proof.
  intros Hnd Ho Hv Hkey.
  apply list_elem_of_lookup in Ho as [i Hi].
  apply list_elem_of_lookup in Hv as [j Hj].
  assert (i = j) as ->.
  { eapply (NoDup_lookup (map key objects)); [exact Hnd| |].
    - rewrite list_lookup_fmap, Hi. reflexivity.
    - rewrite list_lookup_fmap, Hj. cbn. by rewrite Hkey. }
  congruence.
Qed.

Lemma deleteEach_quiet (format : string) (items : list Object.t) :
  (∀ o, delete o = None) →
  ∀ (objects : list Object.t) (lg : list LogEntry),
    (deleteEach name delete format items (objects, lg)).2 = lg.
Proof.
  intros Hdel. unfold deleteEach.
  induction items as [|v items IH]; intros objects lg; cbn [fold_left].
  - reflexivity.
  - rewrite (Hdel v). cbn [fst snd]. apply IH.
Qed.

(** One kind of object after its part of the purge. *)
Lemma purgeKind_objects (listed : option error) (selects : Object.t → bool)
    (format : string) (objects : list Object.t) (lg : list LogEntry) :
  NoDup (map key objects) →
  (purgeKind name delete listed selects format (objects, lg)).1
  = match listed with
    | Some _ => objects
    | None =>
        filter (λ o, selects o = false ∨ is_Some (delete o)) objects
    end.
Proof.
  intros Hnd. unfold purgeKind. destruct listed as [e|]; [reflexivity|].
  cbn [fst]. rewrite deleteEach_objects.
  rename objects into all.
  assert (Hrow : ∀ x, x ∈ all →
            (survives (filter (λ o, selects o = true) all) x
             ↔ selects x = false ∨ is_Some (delete x))).
  { intros x Hx. rewrite Forall_forall. split.
    - intros Hs. destruct (selects x) eqn:Hsel; [|by left].
      destruct (delete x) as [e|] eqn:Hdel; [right; eauto|].
      exfalso. apply (Hs x); [|exact Hdel|reflexivity].
      apply list_elem_of_filter. auto.
    - intros Hx' v Hv Hdel Hkey.
      apply list_elem_of_filter in Hv as [Hsel Hv].
      assert (x = v) as -> by (by apply (key_inj all)).
      destruct Hx' as [Hx'|[e He]]; congruence. }
  clear Hnd. revert Hrow.
  generalize (filter (λ o, selects o = true) all). intros items Hrow.
  induction all as [|x all IH]; [reflexivity|].
  assert (Hrest : ∀ y, y ∈ all →
            (survives items y ↔ selects y = false ∨ is_Some (delete y)))
    by (intros y Hy; apply Hrow; by apply list_elem_of_further).
  rewrite !filter_cons.
  destruct (decide (survives items x)) as [Hs|Hs];
    destruct (decide (selects x = false ∨ is_Some (delete x))) as [Hp|Hp].
  - f_equal. by apply IH.
  - exfalso. apply Hp, Hrow; [apply list_elem_of_here|exact Hs].
  - exfalso. apply Hs, Hrow; [apply list_elem_of_here|exact Hp].
  - by apply IH.
Qed.

(** X17. The purge callback always returns the nil error.  With the
    names of each kind unique in the cluster: a kind whose listing
    fails is left as it is, and otherwise exactly the objects the
    selector matches and whose delete goes through are gone, a failed
    delete not stopping the ones after it.  So an alertmanager config
    without the config-name label, and a prometheus rule without the
    rule-name label or whose type label is not the monitor type (a
    logging rule), survive every purge. *)
Theorem purgeCluster_survivors (c : Cluster) (lg : list LogEntry) :
  NoDup (map key (alertmanagerConfigs c)) →
  NoDup (map key (prometheusRules c)) →
  (purge c lg).1.1 = None
  ∧ alertmanagerConfigs (purge c lg).1.2
    = match listConfigs with
      | Some _ => alertmanagerConfigs c
      | None => filter (λ o, selectsConfig o = false ∨ is_Some (delete o))
                       (alertmanagerConfigs c)
      end
  ∧ prometheusRules (purge c lg).1.2
    = match listRules with
      | Some _ => prometheusRules c
      | None => filter (λ o, selectsRule o = false ∨ is_Some (delete o))
                       (prometheusRules c)
      end
  ∧ (∀ o, o ∈ alertmanagerConfigs c →
          Object.Labels o !! LabelAlertmanagerConfigName = None →
          o ∈ alertmanagerConfigs (purge c lg).1.2)
  ∧ (∀ o, o ∈ prometheusRules c →
          Object.Labels o !! LabelPrometheusRuleName = None
          ∨ Object.Labels o !! LabelPrometheusRuleType ≠ Some AlertTypeMonitor →
          o ∈ prometheusRules (purge c lg).1.2).
Proof.
  intros Hc Hr. unfold purgeCluster. cbn [fst snd alertmanagerConfigs
                                            prometheusRules].
  rewrite !purgeKind_objects by assumption.
  split; [reflexivity|]. split; [reflexivity|]. split; [reflexivity|]. split.
  - intros o Ho Hlabel. destruct listConfigs; [exact Ho|].
    apply list_elem_of_filter. split; [|exact Ho]. left.
    unfold purger.selectsConfig. rewrite Hlabel.
    apply bool_decide_eq_false. by intros [? [=]].
  - intros o Ho Hlabel. destruct listRules; [exact Ho|].
    apply list_elem_of_filter. split; [|exact Ho]. left.
    unfold purger.selectsRule. apply andb_false_iff.
    destruct Hlabel as [Hl|Hl].
    + left. rewrite Hl. apply bool_decide_eq_false. by intros [? [=]].
    + right. by apply bool_decide_eq_false.
Qed.

(** X18. When both listings and every delete go through, no object the
    selectors match is left in the cluster, and nothing has been logged:
    no alertmanager config with the config-name label, and no prometheus
    rule with the rule-name label and the monitor type. *)
Theorem purgeCluster_leaves_no_selected_object (c : Cluster)
    (lg : list LogEntry) :
  listConfigs = None → listRules = None → (∀ o, delete o = None) →
  Forall (λ o, selectsConfig o = false) (alertmanagerConfigs (purge c lg).1.2)
  ∧ Forall (λ o, selectsRule o = false) (prometheusRules (purge c lg).1.2)
  ∧ alertmanagerConfigs (purge c lg).1.2 ⊆ alertmanagerConfigs c
  ∧ prometheusRules (purge c lg).1.2 ⊆ prometheusRules c
  ∧ (purge c lg).2 = lg.
Proof.
  intros -> -> Hdel. unfold purgeCluster, purgeKind.
  cbn [fst snd alertmanagerConfigs prometheusRules].
  rewrite !deleteEach_objects, !deleteEach_quiet by exact Hdel.
  assert (Hgone : ∀ (selects : Object.t → bool) objects,
            Forall (λ o, selects o = false)
                   (filter (survives (filter (λ o, selects o = true) objects))
                           objects)).
  { intros selects objects. apply Forall_forall. intros o Ho.
    apply list_elem_of_filter in Ho as [Hs Ho].
    destruct (selects o) eqn:Hsel; [|done]. exfalso.
    rewrite Forall_forall in Hs.
    apply (Hs o); [|apply Hdel|reflexivity].
    apply list_elem_of_filter. auto. }
  split; [apply Hgone|]. split; [apply Hgone|].
  split; [|split]; [| |reflexivity];
    intros o Ho; by apply list_elem_of_filter in Ho as [_ Ho].
Qed.

End PurgeFacts.

Lemma purgeCluster_survivors_witness :
  NoDup (map key (alertmanagerConfigs example_more.cluster))
  ∧ NoDup (map key (prometheusRules example_more.cluster))
  ∧ example_more.purge.1.1 = None
  ∧ alertmanagerConfigs example_more.purge.1.2
    = [example_more.object "ns1" "handmade" ∅]
  ∧ prometheusRules example_more.purge.1.2
    = [example_more.object "ns1" "errors"
         {[ "rule-name" := "errors"; "rule-type" := "logging" ]};
       example_more.object "ns2" "handmade" ∅].
Proof.
  assert (H1 : NoDup (map key (alertmanagerConfigs example_more.cluster)))
    by (apply (bool_decide_unpack _); vm_compute; exact I).
  assert (H2 : NoDup (map key (prometheusRules example_more.cluster)))
    by (apply (bool_decide_unpack _); vm_compute; exact I).
  split; [exact H1|]. split; [exact H2|].
  destruct (purgeCluster_survivors "amcfg-name" "rule-name" "rule-type"
              "monitor" "c1" None None (λ _, None) example_more.cluster []
              H1 H2) as (A & B & C & _).
  split; [exact A|]. split.
  - unfold example_more.purge. rewrite B. vm_compute. reflexivity.
  - unfold example_more.purge. rewrite C. vm_compute. reflexivity.
Defined.

Lemma purgeCluster_leaves_no_selected_object_witness :
  (∀ o : Object.t, (λ _ : Object.t, @None error) o = None)
  ∧ Forall (λ o, selectsConfig "amcfg-name" o = false)
           (alertmanagerConfigs example_more.purge.1.2)
  ∧ Forall (λ o, selectsRule "rule-name" "rule-type" "monitor" o = false)
           (prometheusRules example_more.purge.1.2).
Proof.
  split; [reflexivity|].
  destruct (purgeCluster_leaves_no_selected_object "amcfg-name" "rule-name"
              "rule-type" "monitor" "c1" None None (λ _, None)
              example_more.cluster [] eq_refl eq_refl (λ _, eq_refl))
    as (A & B & _).
  split; [exact A | exact B].
Defined.

End purger_proofs.

(** ** More on the deep copies *)

Module deepcopy_more.
Import v1beta1 v1beta1_rest deepcopy_proofs.

Local Open Scope nat_scope.

Section ArrayFacts.

Context {A : Type}.
Implicit Types (h : gmap loc (list A)) (s : Slice) (hdr : SliceHeader).

(** A slice reads the same in two heaps that hold the same array at its
    location. *)
Lemma sliceValue_agree h h2 s :
  (∀ hdr, s = Some hdr → h2 !! array hdr = h !! array hdr) →
  sliceValue h2 s = sliceValue h s.
Proof.
  destruct s as [hdr|]; [|done]. intros H. cbn. f_equal.
  unfold elements. by rewrite (H hdr eq_refl).
Qed.

Lemma wfSlice_dom h s hdr : wfSlice h s → s = Some hdr → array hdr ∈ dom h.
Proof. intros Hwf ->. destruct Hwf as (arr & Harr & _). by apply elem_of_dom_2 in Harr. Qed.

Lemma deepCopySlice_owns (zero : A) h s :
  wfSlice h s →
  owns h s (deepCopySlice zero s h).2 (deepCopySlice zero s h).1.
Proof.
  destruct s as [hdr|]; [|done]. intros Hwf. cbn in Hwf.
  rewrite (deepCopySlice_Some zero h hdr Hwf). cbn.
  repeat split; [apply is_fresh | by apply elements_length].
Qed.

End ArrayFacts.

Section PluginFacts.

Context {X : Foreign}.

(** X19. The slices of the copy of a plugin are cut to size.  For each
    of Dependencies, ValuesFrom and Resources: a nil slice stays nil and
    allocates nothing; any other gets one new array that holds exactly
    the elements of the original slice, from offset 0 and with nothing
    of the rest of the original's backing array; no other array is
    allocated or changed, and the arrays of plugins are untouched. *)
Theorem Plugin_DeepCopy_cuts_to_size (h : Heap) (p : Plugin) :
  faithful → wfPlugin h p →
  ∃ p' h',
    Plugin_DeepCopy (Some p) h = (Ok (Some p'), h')
    ∧ owns (refs h) (spec_Dependencies (Spec p))
           (refs h') (spec_Dependencies (Spec p'))
    ∧ owns (froms h) (spec_ValuesFrom (Spec p))
           (froms h') (spec_ValuesFrom (Spec p'))
    ∧ owns (resources h) (status_Resources (Status p))
           (resources h') (status_Resources (Status p'))
    ∧ plugins h' = plugins h.
Proof.
  intros Hf (W1 & W2 & W3). unfold Plugin_DeepCopy.
  erewrite bindH_Ok by (by apply Plugin_DeepCopyInto_eq).
  eexists _, _. split; [reflexivity|]. cbn zeta.
  cbn [Spec Status spec_Dependencies spec_ValuesFrom status_Resources
       refs froms resources plugins].
  pose proof (deepCopySlice_owns zeroObjectReference _ _ W1) as H1.
  pose proof (deepCopySlice_owns zeroValuesFrom _ _ W2) as H2.
  pose proof (deepCopySlice_owns zeroManagedResource _ _ W3) as H3.
  split; [exact H1|]. split; [exact H2|]. split; [exact H3|reflexivity].
Qed.

Lemma samePlugin_agree (h h2 : Heap) (p : Plugin) :
  (∀ hdr, spec_Dependencies (Spec p) = Some hdr →
          refs h2 !! array hdr = refs h !! array hdr) →
  (∀ hdr, spec_ValuesFrom (Spec p) = Some hdr →
          froms h2 !! array hdr = froms h !! array hdr) →
  (∀ hdr, status_Resources (Status p) = Some hdr →
          resources h2 !! array hdr = resources h !! array hdr) →
  samePlugin h p h2 p.
Proof.
  intros H1 H2 H3. unfold samePlugin.
  rewrite (sliceValue_agree _ _ _ H1), (sliceValue_agree _ _ _ H2),
    (sliceValue_agree _ _ _ H3).
  repeat split.
Qed.

(** X20. The copy and the original are independent.  After the copy,
    however the arrays allocated since the call are written, the
    original still reads field for field and element for element as
    before the call; and however the arrays that existed before the
    call are written, the copy reads as it did when it was returned. *)
Theorem Plugin_DeepCopy_independent (h : Heap) (p : Plugin) :
  faithful → wfPlugin h p →
  ∃ p' h',
    Plugin_DeepCopy (Some p) h = (Ok (Some p'), h')
    ∧ (∀ h2, sameOn (dom (refs h)) (dom (froms h)) (dom (resources h))
                    h' h2 →
             samePlugin h p h2 p)
    ∧ (∀ h2, sameOn (dom (refs h') ∖ dom (refs h))
                    (dom (froms h') ∖ dom (froms h))
                    (dom (resources h') ∖ dom (resources h)) h' h2 →
             samePlugin h' p' h2 p').
Proof.
  intros Hf Hwf.
  destruct (Plugin_DeepCopyInto_spec p h Hf Hwf)
    as (p' & h' & Hrun & _ & (E1 & E2 & E3 & _) & (N1 & N2 & N3)
        & (W1' & W2' & W3') & _).
  destruct Hwf as (W1 & W2 & W3).
  exists p', h'. unfold Plugin_DeepCopy.
  erewrite bindH_Ok by exact Hrun. split; [reflexivity|]. split.
  - intros h2 (A1 & A2 & A3). apply samePlugin_agree; intros hdr Hs.
    + pose proof (wfSlice_dom _ _ _ W1 Hs) as Hd. rewrite (A1 _ Hd).
      apply elem_of_dom in Hd as [arr Harr].
      by rewrite Harr, (lookup_weaken _ _ _ _ Harr E1).
    + pose proof (wfSlice_dom _ _ _ W2 Hs) as Hd. rewrite (A2 _ Hd).
      apply elem_of_dom in Hd as [arr Harr].
      by rewrite Harr, (lookup_weaken _ _ _ _ Harr E2).
    + pose proof (wfSlice_dom _ _ _ W3 Hs) as Hd. rewrite (A3 _ Hd).
      apply elem_of_dom in Hd as [arr Harr].
      by rewrite Harr, (lookup_weaken _ _ _ _ Harr E3).
  - intros h2 (A1 & A2 & A3). apply samePlugin_agree; intros hdr Hs.
    + apply A1. apply elem_of_difference. split.
      * exact (wfSlice_dom _ _ _ W1' Hs).
      * unfold newIn in N1. by rewrite Hs in N1.
    + apply A2. apply elem_of_difference. split.
      * exact (wfSlice_dom _ _ _ W2' Hs).
      * unfold newIn in N2. by rewrite Hs in N2.
    + apply A3. apply elem_of_difference. split.
      * exact (wfSlice_dom _ _ _ W3' Hs).
      * unfold newIn in N3. by rewrite Hs in N3.
Qed.

Lemma samePlugin_trans (h1 : Heap) (a : Plugin) (h2 : Heap) (b : Plugin)
    (h3 : Heap) (c : Plugin) :
  samePlugin h1 a h2 b → samePlugin h2 b h3 c → samePlugin h1 a h3 c.
Proof.
  unfold samePlugin.
  intros (A1 & A2 & A3 & A4 & A5 & A6 & A7 & A8 & A9 & A10 & A11)
         (B1 & B2 & B3 & B4 & B5 & B6 & B7 & B8 & B9 & B10 & B11).
  repeat split; etrans; eassumption.
Qed.

(** X21. Copying a copy: the second copy equals the original again, its
    slices are backed by arrays that belong neither to the original nor
    to the first copy, and the first copy reads as before. *)
Theorem Plugin_DeepCopy_twice (h : Heap) (p : Plugin) :
  faithful → wfPlugin h p →
  ∃ p1 h1 p2 h2,
    Plugin_DeepCopy (Some p) h = (Ok (Some p1), h1)
    ∧ Plugin_DeepCopy (Some p1) h1 = (Ok (Some p2), h2)
    ∧ samePlugin h p h2 p2
    ∧ newSlices h1 p2
    ∧ samePlugin h1 p1 h2 p1
    ∧ samePlugin h p h2 p.
Proof.
  intros Hf Hwf.
  destruct (Plugin_DeepCopyInto_spec p h Hf Hwf)
    as (p1 & h1 & Hrun1 & Hs1 & He1 & _ & Hw1 & _).
  destruct (Plugin_DeepCopyInto_spec p1 h1 Hf Hw1)
    as (p2 & h2 & Hrun2 & Hs2 & He2 & Hn2 & _ & _).
  exists p1, h1, p2, h2. unfold Plugin_DeepCopy.
  erewrite !bindH_Ok by eassumption.
  split; [reflexivity|]. split; [reflexivity|].
  split; [by eapply samePlugin_trans|]. split; [exact Hn2|].
  pose proof (extends_grows _ _ He1) as G1.
  pose proof (extends_grows _ _ He2) as G2.
  assert (Hrefl : ∀ h0 q, samePlugin h0 q h0 q) by (by repeat split).
  split.
  - apply (samePlugin_mono_r h1 p1 h1 h2); auto.
  - apply (samePlugin_mono_r h p h h2); auto.
    destruct G1 as (A1 & A2 & A3), G2 as (B1 & B2 & B3).
    repeat split; etrans; eauto.
Qed.

(** X22. The deep copies of the two parts of a plugin on their own.
    Of the nil pointer they are nil and leave the heap alone.  Of a spec
    (a status) they are a spec (a status) with the same fields and the
    same elements in Dependencies and ValuesFrom (in Resources), in
    arrays allocated by the call; the arrays that existed are
    unchanged. *)
Theorem PluginSpec_and_Status_DeepCopy (h : Heap) (s : PluginSpec)
    (t : PluginStatus) :
  faithful →
  wfSlice (refs h) (spec_Dependencies s) →
  wfSlice (froms h) (spec_ValuesFrom s) →
  wfSlice (resources h) (status_Resources t) →
  PluginSpec_DeepCopy None h = (Ok None, h)
  ∧ PluginStatus_DeepCopy None h = (Ok None, h)
  ∧ (∃ s' h',
       PluginSpec_DeepCopy (Some s) h = (Ok (Some s'), h')
       ∧ spec_Fields s' = spec_Fields s
       ∧ spec_Values s' = spec_Values s
       ∧ sliceValue (refs h') (spec_Dependencies s')
         = sliceValue (refs h) (spec_Dependencies s)
       ∧ sliceValue (froms h') (spec_ValuesFrom s')
         = sliceValue (froms h) (spec_ValuesFrom s)
       ∧ newIn (refs h) (spec_Dependencies s')
       ∧ newIn (froms h) (spec_ValuesFrom s')
       ∧ extends h h')
  ∧ (∃ t' h',
       PluginStatus_DeepCopy (Some t) h = (Ok (Some t'), h')
       ∧ status_Fields t' = status_Fields t
       ∧ status_Values t' = status_Values t
       ∧ status_CreationTimestamp t' = status_CreationTimestamp t
       ∧ status_UpgradeTimestamp t' = status_UpgradeTimestamp t
       ∧ sliceValue (resources h') (status_Resources t')
         = sliceValue (resources h) (status_Resources t)
       ∧ newIn (resources h) (status_Resources t')
       ∧ extends h h').
Proof.
  intros (Hom & _ & Htime & Hval) W1 W2 W3.
  split; [reflexivity|]. split; [reflexivity|]. split.
  - unfold PluginSpec_DeepCopy, PluginSpec_DeepCopyInto, Values_DeepCopyInto,
      onRefs, onFroms.
    unfold mbind, H_bind, mret, H_ret.
    destruct (deepCopySlice_spec zeroObjectReference _ _ W1)
      as (D1 & D2 & D3 & _).
    destruct (deepCopySlice_spec zeroValuesFrom _ _ W2)
      as (V1 & V2 & V3 & _).
    destruct (deepCopySlice zeroObjectReference _ (refs h)) as [d1 d2].
    rewrite Hval. cbn [froms refs resources plugins].
    destruct (deepCopySlice zeroValuesFrom _ (froms h)) as [v1 v2].
    eexists _, _. split; [reflexivity|]. cbn in *.
    repeat split; auto.
  - unfold PluginStatus_DeepCopy, PluginStatus_DeepCopyInto,
      Values_DeepCopyInto, onResources.
    unfold mbind, H_bind, mret, H_ret.
    destruct (deepCopySlice_spec zeroManagedResource _ _ W3)
      as (R1 & R2 & R3 & _).
    rewrite Hval, !Htime.
    destruct (deepCopySlice zeroManagedResource _ (resources h)) as [r1 r2].
    eexists _, _. split; [reflexivity|]. cbn in *.
    repeat split; auto.
Qed.

(** X23. [DeepCopyObject] never wraps a nil pointer: whenever it returns,
    the object is the nil interface exactly when the receiver is the nil
    pointer, and otherwise it holds the non-nil pointer that [DeepCopy]
    returns, of the receiver's own type; the heap is the one [DeepCopy]
    leaves. *)
Theorem DeepCopyObject_is_nil_only_for_nil (h : Heap) (p : option Plugin)
    (l : option PluginList) :
  ((Plugin_DeepCopyObject p h).2 = (Plugin_DeepCopy p h).2
   ∧ ((Plugin_DeepCopyObject p h).1 = Ok None ↔ p = None)
   ∧ (∀ o, (Plugin_DeepCopyObject p h).1 = Ok (Some o) →
           ∃ p', o = PluginObject (Some p')
                 ∧ (Plugin_DeepCopy p h).1 = Ok (Some p')))
  ∧ ((PluginList_DeepCopyObject l h).2 = (PluginList_DeepCopy l h).2
     ∧ ((PluginList_DeepCopyObject l h).1 = Ok None ↔ l = None)
     ∧ (∀ o, (PluginList_DeepCopyObject l h).1 = Ok (Some o) →
             ∃ l', o = PluginListObject (Some l')
                   ∧ (PluginList_DeepCopy l h).1 = Ok (Some l'))).
Proof.
  split.
  - unfold Plugin_DeepCopyObject, Plugin_DeepCopy.
    destruct p as [p|]; [|cbn; split; [done|split; [done|discriminate]]].
    unfold mbind, H_bind, mret, H_ret.
    destruct (Plugin_DeepCopyInto p h) as [[p'|e|] h']; cbn;
      (split; [reflexivity|]); (split; [split; discriminate|]);
      intros o [=]; subst; eauto.
  - unfold PluginList_DeepCopyObject, PluginList_DeepCopy.
    destruct l as [l|]; [|cbn; split; [done|split; [done|discriminate]]].
    unfold mbind at 1 2 3 4 5 6 7 8, H_bind at 1 2 3 4 5 6 7 8, mret, H_ret.
    destruct (PluginList_DeepCopyInto l h) as [[l'|e|] h']; cbn;
      (split; [reflexivity|]); (split; [split; discriminate|]);
      intros o [=]; subst; eauto.
Qed.

Lemma newSlices_anti (h0 h : Heap) (p : Plugin) :
  refs h0 ⊆ refs h → froms h0 ⊆ froms h → resources h0 ⊆ resources h →
  newSlices h p → newSlices h0 p.
Proof.
  intros S1 S2 S3 (N1 & N2 & N3). unfold newSlices, newIn in *.
  repeat split.
  - destruct (spec_Dependencies (Spec p)); [|done].
    intros Hin. apply N1. by eapply subseteq_dom.
  - destruct (spec_ValuesFrom (Spec p)); [|done].
    intros Hin. apply N2. by eapply subseteq_dom.
  - destruct (status_Resources (Status p)); [|done].
    intros Hin. apply N3. by eapply subseteq_dom.
Qed.

(** The loop of lines 77-79 once more, for the arrays of the items. *)
Lemma copyItems_fresh (hin : SliceHeader) (l : loc) (h0 : Heap)
    (arr : list Plugin) :
  faithful →
  plugins h0 !! array hin = Some arr →
  offset hin + len hin ≤ length arr →
  plugins h0 !! l = None →
  Forall (wfPlugin h0) (elements (plugins h0) hin) →
  ∀ (m k : nat) (h : Heap) (copies : list Plugin),
    k + m = len hin →
    length copies = k →
    plugins h = <[l := copies ++ replicate m zeroPlugin]> (plugins h0) →
    (refs h0 ⊆ refs h ∧ froms h0 ⊆ froms h ∧ resources h0 ⊆ resources h) →
    Forall (newSlices h0) copies →
    ∃ h' copies',
      copyItems hin (mkSlice l 0 (len hin)) (seq k m) h = (Ok tt, h')
      ∧ plugins h' = <[l := copies']> (plugins h0)
      ∧ length copies' = len hin
      ∧ Forall (newSlices h0) copies'.
Proof.
  intros Hf Harr Hbound Hl Hwf.
  assert (Hne : array hin ≠ l) by congruence.
  induction m as [|m IH]; intros k h copies Hkm Hcopies Hplug Hgrow Hnew.
  - exists h, copies. cbn [seq copyItems]. split; [reflexivity|].
    rewrite Hplug, app_nil_r. split; [reflexivity|]. split; [lia|exact Hnew].
  - cbn [seq copyItems].
    assert (Hk : k < len hin) by lia.
    destruct (lookup_lt_is_Some_2 arr (offset hin + k)) as [e He]; [lia|].
    assert (Hek : elements (plugins h0) hin !! k = Some e)
      by (by rewrite (elements_lookup _ _ arr)).
    assert (Hwfe : wfPlugin h e).
    { apply (wfPlugin_mono h0); [exact Hgrow|].
      rewrite Forall_forall in Hwf. apply Hwf.
      by apply list_elem_of_lookup_2 in Hek. }
    erewrite bindH_Ok.
    2: { unfold load. rewrite Hplug, lookup_insert_ne by congruence.
         rewrite Harr, decide_True by exact Hk. by rewrite He. }
    destruct (Plugin_DeepCopyInto_spec e h Hf Hwfe)
      as (c & h2 & Hrun & _ & Hext2 & Hnewc & _ & Hplug2).
    erewrite bindH_Ok by exact Hrun.
    erewrite bindH_Ok.
    2: { unfold store. cbn [len]. rewrite decide_True by exact Hk.
         reflexivity. }
    cbn [array offset]. rewrite Hplug2, Hplug, alter_insert_eq.
    assert (Hins : <[0 + k := c]> (copies ++ replicate (S m) zeroPlugin)
                   = (copies ++ [c]) ++ replicate m zeroPlugin).
    { cbn [Nat.add]. rewrite insert_app_r_alt by lia.
      rewrite Hcopies, Nat.sub_diag, <- app_assoc. reflexivity. }
    rewrite Hins.
    destruct Hgrow as (A1 & A2 & A3).
    destruct (extends_grows _ _ Hext2) as (B1 & B2 & B3).
    apply (IH (S k) _ (copies ++ [c])).
    + lia.
    + rewrite length_app. cbn. lia.
    + reflexivity.
    + repeat split; cbn; etrans; eauto.
    + apply Forall_app. split; [exact Hnew|].
      constructor; [|constructor]. by apply (newSlices_anti h0 h).
Qed.

(** X24. In the copy of a plugin list no item shares an array with the
    list it was copied from: Items is a new array of the same length,
    and the Dependencies, ValuesFrom and Resources slices of every item
    of the copy are nil or backed by arrays allocated by the call. *)
Theorem PluginList_DeepCopy_items_are_new (h : Heap) (l : PluginList) :
  faithful → wfPluginList h l →
  ∃ l' h',
    PluginList_DeepCopy (Some l) h = (Ok (Some l'), h')
    ∧ match Items l, Items l' with
      | None, None => h' = h
      | Some hdr, Some hdr' =>
          (array hdr' ∉ dom (plugins h))
          ∧ offset hdr' = 0 ∧ len hdr' = len hdr
          ∧ length (elements (plugins h') hdr') = len hdr
          ∧ Forall (newSlices h) (elements (plugins h') hdr')
      | _, _ => False
      end.
Proof.
  intros Hf [Hwf Helems].
  unfold PluginList_DeepCopy, PluginList_DeepCopyInto.
  destruct (Items l) as [hin|] eqn:Hitems.
  - destruct Hwf as (arr & Harr & Hbound).
    set (a := fresh (dom (plugins h))).
    assert (Ha : plugins h !! a = None) by (apply not_elem_of_dom, is_fresh).
    destruct (copyItems_fresh hin a h arr Hf Harr Hbound Ha
                (Helems hin eq_refl) (len hin) 0
                (mkHeap (refs h) (froms h) (resources h)
                        (<[a := replicate (len hin) zeroPlugin]> (plugins h)))
                [])
      as (h' & copies & Hrun & Hplug & Hlen & Hnew);
      [lia | reflexivity | reflexivity | by repeat split | constructor |].
    eexists _, h'. split.
    { erewrite bindH_Ok; [reflexivity|].
      erewrite bindH_Ok; [reflexivity|].
      erewrite bindH_Ok by reflexivity.
      fold a. erewrite bindH_Ok by exact Hrun. reflexivity. }
    cbn [Items].
    assert (Hel : elements (plugins h') (mkSlice a 0 (len hin)) = copies).
    { unfold elements. cbn [array offset len].
      rewrite Hplug, lookup_insert_eq. cbn [default]. rewrite drop_0.
      rewrite <- Hlen. apply firstn_all. }
    rewrite Hel. cbn. repeat split; auto. apply is_fresh.
  - eexists _, h. split; [reflexivity|]. reflexivity.
Qed.

End PluginFacts.

Lemma example_faithful : faithful (X := example.stringForeign).
Proof. repeat split; intros; reflexivity. Qed.

Lemma example_inBounds {A : Type} (h : gmap loc (list A)) (hdr : SliceHeader)
    (arr : list A) :
  h !! array hdr = Some arr → offset hdr + len hdr ≤ length arr →
  inBounds h hdr.
Proof. intros H1 H2. exists arr. auto. Qed.

Lemma example_wfPlugin1 : wfPlugin example.heap example.plugin1.
Proof.
  repeat split; cbn; (eapply example_inBounds; [reflexivity | cbn; lia]).
Qed.

Lemma example_wfPlugin2 : wfPlugin example.heap example.plugin2.
Proof.
  repeat split; cbn. eapply example_inBounds; [reflexivity | cbn; lia].
Qed.

Lemma example_wfPluginList : wfPluginList example.heap example.pluginList.
Proof.
  split.
  - eapply example_inBounds; [reflexivity | cbn; lia].
  - intros hdr [= <-].
    change (Forall (wfPlugin example.heap) [example.plugin1; example.plugin2]).
    constructor; [exact example_wfPlugin1|].
    constructor; [exact example_wfPlugin2|]. constructor.
Qed.

Lemma Plugin_DeepCopy_cuts_to_size_witness :
  faithful (X := example.stringForeign)
  ∧ wfPlugin example.heap example.plugin1
  ∧ ∃ p' h',
      Plugin_DeepCopy (Some example.plugin1) example.heap
      = (Ok (Some p'), h')
      ∧ owns (refs example.heap) (spec_Dependencies (Spec example.plugin1))
             (refs h') (spec_Dependencies (Spec p'))
      ∧ owns (froms example.heap) (spec_ValuesFrom (Spec example.plugin1))
             (froms h') (spec_ValuesFrom (Spec p'))
      ∧ owns (resources example.heap)
             (status_Resources (Status example.plugin1))
             (resources h') (status_Resources (Status p'))
      ∧ plugins h' = plugins example.heap.
Proof.
  split; [exact example_faithful|]. split; [exact example_wfPlugin1|].
  exact (Plugin_DeepCopy_cuts_to_size example.heap example.plugin1
           example_faithful example_wfPlugin1).
Defined.

Lemma Plugin_DeepCopy_independent_witness :
  faithful (X := example.stringForeign)
  ∧ wfPlugin example.heap example.plugin1
  ∧ ∃ p' h',
      Plugin_DeepCopy (Some example.plugin1) example.heap
      = (Ok (Some p'), h')
      ∧ (∀ h2, sameOn (dom (refs example.heap)) (dom (froms example.heap))
                      (dom (resources example.heap)) h' h2 →
               samePlugin example.heap example.plugin1 h2 example.plugin1)
      ∧ (∀ h2, sameOn (dom (refs h') ∖ dom (refs example.heap))
                      (dom (froms h') ∖ dom (froms example.heap))
                      (dom (resources h') ∖ dom (resources example.heap))
                      h' h2 →
               samePlugin h' p' h2 p').
Proof.
  split; [exact example_faithful|]. split; [exact example_wfPlugin1|].
  exact (Plugin_DeepCopy_independent example.heap example.plugin1
           example_faithful example_wfPlugin1).
Defined.

Lemma Plugin_DeepCopy_twice_witness :
  faithful (X := example.stringForeign)
  ∧ wfPlugin example.heap example.plugin1
  ∧ ∃ p1 h1 p2 h2,
      Plugin_DeepCopy (Some example.plugin1) example.heap = (Ok (Some p1), h1)
      ∧ Plugin_DeepCopy (Some p1) h1 = (Ok (Some p2), h2)
      ∧ samePlugin example.heap example.plugin1 h2 p2
      ∧ newSlices h1 p2
      ∧ samePlugin h1 p1 h2 p1
      ∧ samePlugin example.heap example.plugin1 h2 example.plugin1.
Proof.
  split; [exact example_faithful|]. split; [exact example_wfPlugin1|].
  exact (Plugin_DeepCopy_twice example.heap example.plugin1
           example_faithful example_wfPlugin1).
Defined.

Lemma PluginSpec_and_Status_DeepCopy_witness :
  faithful (X := example.stringForeign)
  ∧ wfSlice (refs example.heap) (spec_Dependencies (Spec example.plugin1))
  ∧ wfSlice (froms example.heap) (spec_ValuesFrom (Spec example.plugin1))
  ∧ wfSlice (resources example.heap)
            (status_Resources (Status example.plugin2))
  ∧ PluginSpec_DeepCopy None example.heap = (Ok None, example.heap)
  ∧ ∃ s' h',
      PluginSpec_DeepCopy (Some (Spec example.plugin1)) example.heap
      = (Ok (Some s'), h')
      ∧ sliceValue (refs h') (spec_Dependencies s')
        = Some ["monitoring-crds"; "cert-manager"].
Proof.
  destruct example_wfPlugin1 as (W1 & W2 & _).
  destruct example_wfPlugin2 as (_ & _ & W3).
  split; [exact example_faithful|]. split; [exact W1|]. split; [exact W2|].
  split; [exact W3|].
  destruct (PluginSpec_and_Status_DeepCopy example.heap (Spec example.plugin1)
              (Status example.plugin2) example_faithful W1 W2 W3)
    as (A & _ & (s' & h' & Hrun & _ & _ & Hdeps & _) & _).
  split; [exact A|]. exists s', h'. split; [exact Hrun|].
  rewrite Hdeps. reflexivity.
Defined.

Lemma PluginList_DeepCopy_items_are_new_witness :
  faithful (X := example.stringForeign)
  ∧ wfPluginList example.heap example.pluginList
  ∧ ∃ l' h',
      PluginList_DeepCopy (Some example.pluginList) example.heap
      = (Ok (Some l'), h')
      ∧ match Items example.pluginList, Items l' with
        | None, None => h' = example.heap
        | Some hdr, Some hdr' =>
            (array hdr' ∉ dom (plugins example.heap))
            ∧ offset hdr' = 0 ∧ len hdr' = len hdr
            ∧ length (elements (plugins h') hdr') = len hdr
            ∧ Forall (newSlices example.heap) (elements (plugins h') hdr')
        | _, _ => False
        end.
Proof.
  split; [exact example_faithful|]. split; [exact example_wfPluginList|].
  exact (PluginList_DeepCopy_items_are_new example.heap example.pluginList
           example_faithful example_wfPluginList).
Defined.

Lemma DeepCopyObject_is_nil_only_for_nil_witness :
  (Plugin_DeepCopyObject None example.heap).1 = Ok None
  ∧ (PluginList_DeepCopyObject None example.heap).1 = Ok None
  ∧ ∃ p',
      (Plugin_DeepCopy (Some example.plugin1) example.heap).1 = Ok (Some p')
      ∧ (Plugin_DeepCopyObject (Some example.plugin1) example.heap).1
        = Ok (Some (PluginObject (Some p'))).
Proof.
  destruct (DeepCopyObject_is_nil_only_for_nil example.heap None None)
    as ((_ & N1 & _) & (_ & N2 & _)).
  split; [exact (proj2 N1 eq_refl)|]. split; [exact (proj2 N2 eq_refl)|].
  destruct (DeepCopyObject_is_nil_only_for_nil example.heap
              (Some example.plugin1) None) as ((_ & _ & S1) & _).
  destruct (Plugin_DeepCopyInto_spec example.plugin1 example.heap
              example_faithful example_wfPlugin1) as (q & h' & Hrun & _).
  assert (Hobj : (Plugin_DeepCopyObject (Some example.plugin1)
                    example.heap).1 = Ok (Some (PluginObject (Some q)))).
  { unfold Plugin_DeepCopyObject, Plugin_DeepCopy.
    erewrite bindH_Ok by (erewrite bindH_Ok by exact Hrun; reflexivity).
    reflexivity. }
  destruct (S1 _ Hobj) as (p' & Ho & Hp').
  exists p'. split; [exact Hp'|]. rewrite Hobj, Ho. reflexivity.
Defined.

End deepcopy_more.
